(** * Cartopy [Projection.project_geometry]: ring stitching and polygon assembly

    A shallow embedding of the geometry pipeline of [lib/cartopy/crs.py]
    (class [Projection], class [_BoundaryPoint], function [_find_first_ge])
    together with the properties the design document states about it.

    Numbers.  Python floats are idealised as canonical rationals [Qc]: a
    total order with decidable Leibniz equality, closed under the
    arithmetic the code performs (differences, absolute values, halving,
    scaling by 1e-5).  NaN and rounding are outside the model.

    Collaborators.  The map-projection mathematics, the line clipper
    ([cartopy.trace.project_linear]) and the planar geometry predicates of
    shapely are consumed through the interface [Shapely]; every definition
    of the pipeline is parametric in it.

    Loops.  The [while] loops are run with fuel; the theorems give the fuel
    that lets them finish. *)

From stdpp Require Import base tactics option list numbers strings gmap sorting relations.
From Stdlib Require Import QArith Qcanon Qcabs Permutation Lqa.

Close Scope Q_scope.
Close Scope Qc_scope.

(** ** Coordinates and line strings *)

Definition coord : Type := Qc * Qc.

(** A [LineString] is its coordinate sequence. *)
Abbreviation line_string := (list coord).

(** ** Boundary events: class [_BoundaryPoint] *)

Inductive end_tag := tag_first | tag_last.

#[global] Instance end_tag_eq_dec : EqDecision end_tag.
Proof. solve_decision. Defined.

(** The [data] attribute: a [sgeom.Point] for a boundary vertex, or the
    tuple [(i, 'first' | 'last', coords)] for a line end. *)
Inductive edge_data :=
| BoundaryVertex (p : coord)
| LineEnd (i : nat) (tag : end_tag) (xy : coord).

#[global] Instance edge_data_eq_dec : EqDecision edge_data.
Proof. solve_decision. Defined.

(** [_BoundaryPoint(distance, kind, data)].  The constructor is only ever
    called with [kind = True] and a point, or [kind = False] and a tuple, so
    [kind] is the tag of [data]. *)
Record _BoundaryPoint := BoundaryPoint {
  distance : Qc;
  data : edge_data
}.

#[global] Instance BoundaryPoint_eq_dec : EqDecision _BoundaryPoint.
Proof. solve_decision. Defined.

Definition kind (t : _BoundaryPoint) : bool :=
  match data t with
  | BoundaryVertex _ => true
  | LineEnd _ _ _ => false
  end.

(** ** The sort step: [edge_things.sort(key=lambda thing: (thing.distance, thing.kind))] *)

(** Python's [<] on the key tuples: the first components decide unless they
    are equal, then [False < True] on the kinds. *)
Definition key_lt (a b : _BoundaryPoint) : bool :=
  if decide (distance a = distance b)
  then negb (kind a) && kind b
  else bool_decide (distance a < distance b)%Qc.

(** [list.sort] is stable; the stable sort of a list is unique, and is
    computed here by insertion from the right. *)
Fixpoint sort_insert (x : _BoundaryPoint) (l : list _BoundaryPoint) : list _BoundaryPoint :=
  match l with
  | [] => [x]
  | y :: l' => if key_lt y x then y :: sort_insert x l' else x :: y :: l'
  end.

Fixpoint sort_edge_things (l : list _BoundaryPoint) : list _BoundaryPoint :=
  match l with
  | [] => []
  | x :: l' => sort_insert x (sort_edge_things l')
  end.

(** The ordering the specification describes: distance ascending, and at
    equal distance a vertex event never before a line-end event. *)
Definition key_le (a b : _BoundaryPoint) : Prop :=
  (distance a ≤ distance b)%Qc ∧
  (distance a = distance b → kind a = true → kind b = true).


(** ** Exceptions and results *)

Inductive exn := TypeError | ValueError | RuntimeError | IndexError | AttributeError.

(** A call returns a value, raises, or (for the loops that are run with
    fuel) has not finished when the fuel is spent. *)
Inductive outcome (A : Type) :=
| Ok (a : A)
| Raise (e : exn)
| OutOfFuel.

Arguments Ok {A} a.
Arguments Raise {A} e.
Arguments OutOfFuel {A}.

#[global] Instance outcome_ret : MRet outcome := λ A a, Ok a.
#[global] Instance outcome_bind : MBind outcome := λ A B f m,
  match m with
  | Ok a => f a
  | Raise e => Raise e
  | OutOfFuel => OutOfFuel
  end.

(** [coords[0]] and [coords[-1]] are [head] and [last]: [None] stands for
    the [IndexError] of an empty sequence. *)
Definition coords_first (ls : line_string) : option coord := head ls.
Definition coords_last (ls : line_string) : option coord := last ls.

(** An optional value whose absence is the exception [e]. *)
Definition or_raise {A} (e : exn) (o : option A) : outcome A :=
  match o with Some a => Ok a | None => Raise e end.

(** [list.remove(x)]: delete the first item equal to [x]; [ValueError]
    ([None] here) when there is none. *)
Fixpoint list_remove {A} `{EqDecision A} (x : A) (l : list A) : option (list A) :=
  match l with
  | [] => None
  | y :: l' => if decide (x = y) then Some l' else (y ::.) <$> list_remove x l'
  end.

(** ** Rings *)

(** A [LinearRing] is its closed coordinate sequence. *)
Abbreviation linear_ring := (list coord).

(** [sgeom.LinearRing(coords)]: the ring is closed implicitly when the
    first and last coordinates differ, and taken as it is otherwise. *)
Definition LinearRing (cs : list coord) : linear_ring :=
  match cs with
  | [] => []
  | c0 :: _ => if decide (last cs = Some c0) then cs else cs ++ [c0]
  end.

(** ** Collaborators *)

Class Shapely := {
  (** [cartopy._crs.CRS] instances and their [is_geodetic()] *)
  crs : Type;
  is_geodetic : crs → bool;
  (** [ring.project(sgeom.Point( *xy))]: arc length of the nearest point *)
  project : linear_ring → coord → Qc;
  (** [ring.interpolate(d)] *)
  interpolate : linear_ring → Qc → coord;
  (** [line_string.is_valid] *)
  is_valid : line_string → bool;
  (** [ring.is_ccw] *)
  is_ccw : linear_ring → bool;
  (** polygonal geometries as shapely holds them, with [.exterior] and
      [.interiors] *)
  polygon : Type;
  exterior : polygon → linear_ring;
  interiors : polygon → list linear_ring;
  (** [sgeom.Polygon(ring)] *)
  Polygon : linear_ring → polygon;
  (** [prep(polygon).contains(ring)] and [polygon.crosses(ring)] *)
  contains : polygon → linear_ring → bool;
  crosses : polygon → linear_ring → bool;
  (** [polygon.buffer(0)], [.is_empty], [.is_valid], [.bounds] *)
  buffer0 : polygon → polygon;
  is_empty : polygon → bool;
  polygon_is_valid : polygon → bool;
  bounds : polygon → Qc * Qc * Qc * Qc;
  (** [sgeom.box(minx, miny, maxx, maxy)] *)
  box : Qc → Qc → Qc → Qc → polygon;
  (** [a.difference(b)], [a.intersection(b)] *)
  difference : polygon → polygon → polygon;
  intersection : polygon → polygon → polygon
}.

(** The abstract members of class [Projection], and what the class consumes
    from [CRS] and from [cartopy.trace]. *)
Record Projection `{Shapely} := {
  boundary : list coord;
  x_limits : Qc * Qc;
  y_limits : Qc * Qc;
  as_geodetic : crs;
  transform_point : Qc → Qc → crs → coord;
  (** [cartopy.trace.project_linear(geometry, src_crs, self)] *)
  project_linear : list coord → crs → list line_string
}.

(** ** Geometries handed to and returned by [project_geometry] *)

Inductive geometry `{Shapely} :=
| Point (x y : Qc)
| LineString (cs : list coord)
| LinearRing_geom (cs : linear_ring)
| Polygon_geom (p : polygon)
| MultiPoint (geoms : list coord)
| MultiLineString (geoms : list line_string)
| MultiPolygon (geoms : list polygon)
| GeometryCollection.

Definition geom_type `{Shapely} (g : geometry) : string :=
  match g with
  | Point _ _ => "Point"
  | LineString _ => "LineString"
  | LinearRing_geom _ => "LinearRing"
  | Polygon_geom _ => "Polygon"
  | MultiPoint _ => "MultiPoint"
  | MultiLineString _ => "MultiLineString"
  | MultiPolygon _ => "MultiPolygon"
  | GeometryCollection => "GeometryCollection"
  end.

(** The [src_crs] argument: [None], a [CRS] instance, or any other object. *)
Inductive src_arg `{Shapely} :=
| SrcNone
| SrcCRS (c : crs)
| SrcOther.

(** One entry of [polygon_bits]: a [(shell, holes)] coordinate tuple, or a
    geometry returned by shapely's overlay operations. *)
Inductive polygon_bit `{Shapely} :=
| ShellHoles (shell : list coord) (holes : list (list coord))
| Overlay (p : polygon).

(** What the handlers return; [ProjEmptyList] is the plain Python list [[]]. *)
Inductive projected `{Shapely} :=
| ProjPoint (xy : coord)
| ProjMultiLineString (lines : list line_string)
| ProjRings (rings : list linear_ring) (multi_line_string : list line_string)
| ProjMultiPoint (pts : list coord)
| ProjMultiPolygon (parts : list polygon_bit)
| ProjEmptyList.

(** [Projection._method_map] *)
Definition _method_map : gmap string string :=
  list_to_map [
    ("Point", "_project_point");
    ("LineString", "_project_line_string");
    ("LinearRing", "_project_linear_ring");
    ("Polygon", "_project_polygon");
    ("MultiPoint", "_project_multipoint");
    ("MultiLineString", "_project_multiline");
    ("MultiPolygon", "_project_multipolygon")
  ].

(** ** Closeness: [np.allclose(a, b, atol=threshold)] *)

Definition Qc_max (x y : Qc) : Qc := if decide (x ≤ y)%Qc then y else x.

Definition rtol : Qc := Q2Qc (1 # 100000).

(** [absolute(a - b) <= atol + rtol * absolute(b)] on every component. *)
Definition allclose (atol : Qc) (a b : coord) : bool :=
  bool_decide (Qcabs (a.1 - b.1) ≤ atol + rtol * Qcabs b.1)%Qc &&
  bool_decide (Qcabs (a.2 - b.2) ≤ atol + rtol * Qcabs b.2)%Qc.

(** The specification's "within tolerance": every component differs by at
    most the tolerance. *)
Definition within_tolerance (tol : Qc) (a b : coord) : Prop :=
  (Qcabs (a.1 - b.1) ≤ tol)%Qc ∧ (Qcabs (a.2 - b.2) ≤ tol)%Qc.

Section Pipeline.

Context `{Shapely}.
Variable self : Projection.

(** ** [_project_point], [_project_line_string] *)

(** [sgeom.Point( *self.transform_point(point.x, point.y, src_crs))] *)
Definition _project_point (x y : Qc) (src_crs : crs) : coord :=
  transform_point self x y src_crs.

Definition _project_line_string (cs : list coord) (src_crs : crs) : list line_string :=
  project_linear self cs src_crs.

(** ** [_project_linear_ring] *)

(** [max(np.abs(self.x_limits + self.y_limits)) * 1e-5]; the [+] joins the
    two tuples. *)
Definition threshold : Qc :=
  (Qc_max (Qc_max (Qcabs (x_limits self).1) (Qcabs (x_limits self).2))
          (Qc_max (Qcabs (y_limits self).1) (Qcabs (y_limits self).2))
   * Q2Qc (1 # 100000))%Qc.

(** The test of the inner loop:
    [i != j and np.allclose(line_strings[i].coords[0],
                            line_strings[j].coords[-1], atol=threshold)]. *)
Definition joins (line_strings : list line_string) (i j : nat) : outcome bool :=
  if decide (i = j) then Ok false
  else
    li ← or_raise IndexError (line_strings !! i);
    lj ← or_raise IndexError (line_strings !! j);
    a ← or_raise IndexError (coords_first li);
    b ← or_raise IndexError (coords_last lj);
    Ok (allclose threshold a b).

(** The inner [while j < len(line_strings)] loop, run for the [n] values of
    [j] that are left: the first [j] that joins, if any. *)
Fixpoint scan_j (line_strings : list line_string) (i j n : nat) : outcome (option nat) :=
  match n with
  | 0 => Ok None
  | S n' =>
      b ← joins line_strings i j;
      if b : bool then Ok (Some j) else scan_j line_strings i (S j) n'
  end.

(** The replacement made when [i] and [j] join:
    [combo = LineString(list(ls[j].coords) + list(ls[i].coords)[1:])],
    [del ls[j], ls[i]] with the larger index first, [ls.append(combo)]. *)
Definition fuse_pair (line_strings : list line_string) (i j : nat) : list line_string :=
  let last_coords := default [] (line_strings !! j) in
  let first_coords := tail (default [] (line_strings !! i)) in
  let combo := last_coords ++ first_coords in
  let '(i, j) := if decide (j < i) then (j, i) else (i, j) in
  delete i (delete j line_strings) ++ [combo].

(** The outer [while i < len(line_strings)] loop. *)
Fixpoint fuse_loop (fuel : nat) (i : nat) (line_strings : list line_string)
    (any_modified : bool) : outcome (list line_string * bool) :=
  match fuel with
  | 0 => OutOfFuel
  | S fuel' =>
      if decide (i < length line_strings) then
        found ← scan_j line_strings i 0 (length line_strings);
        match found with
        | Some j =>
            fuse_loop fuel' (if decide (j < i) then j else i)
              (fuse_pair line_strings i j) true
        | None => fuse_loop fuel' (S i) line_strings any_modified
        end
      else Ok (line_strings, any_modified)
  end.

(** Step 2 as a whole: only a result of more than one fragment is scanned. *)
Definition fuse_fragments (fuel : nat) (multi_line_string : list line_string)
    : outcome (list line_string) :=
  if decide (1 < length multi_line_string) then
    '(line_strings, any_modified) ← fuse_loop fuel 0 multi_line_string false;
    Ok (if any_modified : bool then line_strings else multi_line_string)
  else Ok multi_line_string.

(** The test of step 3. *)
Definition closes_itself (line : line_string) : bool :=
  bool_decide (3 < length line) &&
  match head line, last line with
  | Some a, Some b => allclose threshold a b
  | _, _ => false
  end.

(** Step 3: the loop over [multi_line_string], filling [rings] and
    [line_strings]. *)
Fixpoint detect_rings (multi_line_string : list line_string)
    : list linear_ring * list line_string :=
  match multi_line_string with
  | [] => ([], [])
  | line :: rest =>
      let '(rings, line_strings) := detect_rings rest in
      if closes_itself line
      then (LinearRing (removelast line) :: rings, line_strings)
      else (rings, line :: line_strings)
  end.

Definition _project_linear_ring (fuel : nat) (ring : linear_ring) (src_crs : crs)
    : outcome (list linear_ring * list line_string) :=
  let multi_line_string := project_linear self ring src_crs in
  multi_line_string ← fuse_fragments fuel multi_line_string;
  let '(rings, line_strings) := detect_rings multi_line_string in
  Ok (rings, if rings is [] then multi_line_string else line_strings).

(** ** [_attach_lines_to_boundary] *)

Definition cw_boundary : linear_ring := LinearRing (boundary self).
Definition ccw_boundary : linear_ring := LinearRing (rev (boundary self)).

(** [boundary = self.ccw_boundary if is_ccw else self.cw_boundary] *)
Definition oriented_boundary (ccw : bool) : linear_ring :=
  if ccw then ccw_boundary else cw_boundary.

Definition boundary_distance (bdry : linear_ring) (xy : coord) : Qc :=
  project bdry xy.

(** "Record the positions of all the segment ends": two events per line,
    numbered from [i] on. *)
Fixpoint record_segment_ends (bdry : linear_ring) (i : nat)
    (line_strings : list line_string) : outcome (list _BoundaryPoint) :=
  match line_strings with
  | [] => Ok []
  | line_string :: rest =>
      c0 ← or_raise IndexError (coords_first line_string);
      c1 ← or_raise IndexError (coords_last line_string);
      things ← record_segment_ends bdry (S i) rest;
      Ok (BoundaryPoint (boundary_distance bdry c0) (LineEnd i tag_first c0)
          :: BoundaryPoint (boundary_distance bdry c1) (LineEnd i tag_last c1)
          :: things)
  end.

(** "Record the positions of all the boundary vertices":
    [for xy in boundary.coords[:-1]]. *)
Definition record_boundary_vertices (bdry : linear_ring) : list _BoundaryPoint :=
  (λ xy, BoundaryPoint (project bdry xy) (BoundaryVertex xy)) <$> removelast bdry.

(** The loop over the sorted events that inserts an artificial boundary
    point between two neighbouring ends of one line.  [index] finds the
    event by identity, so the new point lands just before [edge_thing]. *)
Fixpoint insert_artificial (bdry : linear_ring) (prev_thing : option _BoundaryPoint)
    (things : list _BoundaryPoint) : list _BoundaryPoint :=
  match things with
  | [] => []
  | edge_thing :: rest =>
      match prev_thing, data edge_thing with
      | Some prev, LineEnd j _ _ =>
          match data prev with
          | LineEnd j' _ _ =>
              if decide (j = j') then
                let mid_dist := ((distance edge_thing + distance prev) * Q2Qc (1 # 2))%Qc in
                let mid_point := interpolate bdry mid_dist in
                BoundaryPoint mid_dist (BoundaryVertex mid_point)
                  :: edge_thing :: insert_artificial bdry None rest
              else edge_thing :: insert_artificial bdry (Some edge_thing) rest
          | BoundaryVertex _ =>
              edge_thing :: insert_artificial bdry (Some edge_thing) rest
          end
      | _, _ => edge_thing :: insert_artificial bdry (Some edge_thing) rest
      end
  end.

(** [filter_last]: [t.kind or t.data[1] == 'first'] *)
Definition filter_last (t : _BoundaryPoint) : bool :=
  match data t with
  | BoundaryVertex _ => true
  | LineEnd _ tag _ => bool_decide (tag = tag_first)
  end.

(** [_find_first_ge(a, x)]: the first event at distance [>= x], else [a[0]]
    ([None]: the [IndexError] of [a[0]] on an empty list). *)
Definition _find_first_ge (a : list _BoundaryPoint) (x : Qc) : option _BoundaryPoint :=
  match list_find (λ v, (x ≤ distance v)%Qc) a with
  | Some (_, v) => Some v
  | None => head a
  end.

(** [remaining_ls = dict(enumerate(line_strings))]: a dict keeps its
    insertion order, and [popitem] takes the entry inserted last. *)
Definition enumerate_dict (line_strings : list line_string) : list (nat * line_string) :=
  imap (λ i ls, (i, ls)) line_strings.

Definition popitem (d : list (nat * line_string))
    : option ((nat * line_string) * list (nat * line_string)) :=
  match last d with
  | Some kv => Some (kv, removelast d)
  | None => None
  end.

(** [if j in remaining_ls: remaining_ls.pop(j)] *)
Definition pop_if_present (j : nat) (d : list (nat * line_string)) : list (nat * line_string) :=
  filter (λ kv, kv.1 ≠ j) d.

(** The state the [while True] loop works on. *)
Record walk := Walk {
  edge_things : list _BoundaryPoint;
  remaining_ls : list (nat * line_string);
  current_ls : line_string;
  added_linestring : gset nat
}.

(** What one pass through the body of the [while True] loop does. *)
Inductive pass :=
| AddedBoundaryPoint (w : walk)      (* "adding boundary point" *)
| AddedLine (j : nat) (w : walk)     (* "adding line" *)
| ClosedLoop (w : walk)              (* "close loop": [break] *)
| Raised (e : exn).

Definition walk_pass (bdry : linear_ring) (line_strings : list line_string)
    (i : nat) (w : walk) : pass :=
  match coords_last (current_ls w) with
  | None => Raised IndexError
  | Some c =>
      let d_last := boundary_distance bdry c in
      match _find_first_ge (edge_things w) d_last with
      | None => Raised IndexError
      | Some next_thing =>
          match list_remove next_thing (edge_things w) with
          | None => Raised ValueError
          | Some edge_things' =>
              match data next_thing with
              | BoundaryVertex boundary_point =>
                  AddedBoundaryPoint
                    (Walk edge_things' (remaining_ls w)
                          (current_ls w ++ [boundary_point]) (added_linestring w))
              | LineEnd j _ _ =>
                  if decide (j = i) then
                    ClosedLoop (Walk edge_things' (remaining_ls w) (current_ls w)
                                     (added_linestring w))
                  else
                    match line_strings !! j with
                    | None => Raised IndexError
                    | Some line_to_append =>
                        if decide (j ∈ added_linestring w) then Raised RuntimeError
                        else
                          AddedLine j
                            (Walk edge_things' (pop_if_present j (remaining_ls w))
                                  (current_ls w ++ line_to_append)
                                  ({[j]} ∪ added_linestring w))
                    end
              end
          end
      end
  end.

(** The [while True] loop. *)
Fixpoint walk_boundary (fuel : nat) (bdry : linear_ring) (line_strings : list line_string)
    (i : nat) (w : walk) : outcome walk :=
  match fuel with
  | 0 => OutOfFuel
  | S fuel' =>
      match walk_pass bdry line_strings i w with
      | AddedBoundaryPoint w' => walk_boundary fuel' bdry line_strings i w'
      | AddedLine _ w' => walk_boundary fuel' bdry line_strings i w'
      | ClosedLoop w' => Ok w'
      | Raised e => Raise e
      end
  end.

(** The [while remaining_ls] loop; [processed_ls] collects the closed paths.
    The inner loop gets one unit of fuel per event and one more: every pass
    consumes an event, so it cannot need more. *)
Fixpoint process_lines (fuel : nat) (bdry : linear_ring) (line_strings : list line_string)
    (things : list _BoundaryPoint) (remaining : list (nat * line_string))
    (processed_ls : list line_string) : outcome (list line_string) :=
  match fuel with
  | 0 => OutOfFuel
  | S fuel' =>
      match popitem remaining with
      | None => Ok processed_ls
      | Some ((i, ls), remaining') =>
          w ← walk_boundary (S (length things)) bdry line_strings i
                (Walk things remaining' ls ∅);
          process_lines fuel' bdry line_strings (edge_things w) (remaining_ls w)
            (processed_ls ++ [current_ls w])
      end
  end.

(** [makes_valid_ring] *)
Definition makes_valid_ring (line_string : line_string) : bool :=
  if decide (length line_string = 3) then
    bool_decide (head line_string ≠ last line_string) && is_valid line_string
  else
    bool_decide (3 < length line_string) && is_valid line_string.

(** The paths the traversal finishes ([processed_ls]). *)
Definition stitched_paths (fuel : nat) (multi_line_strings : list (list line_string))
    (ccw : bool) : outcome (list line_string) :=
  let bdry := oriented_boundary ccw in
  let line_strings := concat multi_line_strings in
  ends ← record_segment_ends bdry 0 line_strings;
  let things := sort_edge_things (ends ++ record_boundary_vertices bdry) in
  let things := insert_artificial bdry None things in
  let things := filter (λ t, filter_last t = true) things in
  process_lines fuel bdry line_strings things (enumerate_dict line_strings) [].

Definition _attach_lines_to_boundary (fuel : nat) (multi_line_strings : list (list line_string))
    (ccw : bool) : outcome (list linear_ring) :=
  match stitched_paths fuel multi_line_strings ccw with
  | Ok processed_ls =>
      Ok (map LinearRing (filter (λ ls, makes_valid_ring ls = true) processed_ls))
  | Raise e => Raise e
  | OutOfFuel => OutOfFuel
  end.

(** ** [_rings_to_multi_polygon] *)

(** The first loop: a ring goes to [interior_rings] when
    [ring.is_ccw != is_ccw], to [exterior_rings] otherwise. *)
Fixpoint classify_rings (rings : list linear_ring) (ccw : bool)
    : list linear_ring * list linear_ring :=
  match rings with
  | [] => ([], [])
  | ring :: rest =>
      let '(exterior_rings, interior_rings) := classify_rings rest ccw in
      if decide (is_ccw ring ≠ ccw)
      then (exterior_rings, ring :: interior_rings)
      else (ring :: exterior_rings, interior_rings)
  end.

(** [for interior_ring in interior_rings[:]]: the loop runs over the copy
    [todo] and removes from the live list [interior_rings]. *)
Fixpoint slurp_holes (polygon : polygon) (todo : list linear_ring)
    (holes interior_rings : list linear_ring)
    : outcome (list linear_ring * list linear_ring) :=
  match todo with
  | [] => Ok (holes, interior_rings)
  | interior_ring :: todo' =>
      if contains polygon interior_ring then
        interior_rings' ← or_raise ValueError (list_remove interior_ring interior_rings);
        slurp_holes polygon todo' (holes ++ [interior_ring]) interior_rings'
      else if crosses polygon interior_ring then
        interior_rings' ← or_raise ValueError (list_remove interior_ring interior_rings);
        slurp_holes polygon todo' (holes ++ [interior_ring]) interior_rings'
      else slurp_holes polygon todo' holes interior_rings
  end.

(** [for exterior_ring in exterior_rings] *)
Fixpoint assign_holes (exterior_rings interior_rings : list linear_ring)
    (polygon_bits : list polygon_bit)
    : outcome (list polygon_bit * list linear_ring) :=
  match exterior_rings with
  | [] => Ok (polygon_bits, interior_rings)
  | exterior_ring :: rest =>
      '(holes, interior_rings') ←
        slurp_holes (Polygon exterior_ring) interior_rings [] interior_rings;
      assign_holes rest interior_rings'
        (polygon_bits ++ [ShellHoles exterior_ring holes])
  end.

Definition Qc_min (x y : Qc) : Qc := if decide (x ≤ y)%Qc then x else y.

Definition tenth : Qc := Q2Qc (1 # 10).

(** The body of [for ring in interior_rings] of the inversion step; the
    arguments are the padded bounds of the domain. *)
Definition invert_ring (boundary_poly : polygon) (x3 y3 x4 y4 : Qc)
    (ring : linear_ring) : option polygon :=
  let polygon := buffer0 (Polygon ring) in
  if negb (is_empty polygon) && polygon_is_valid polygon then
    let '(x1, y1, x2, y2) := bounds polygon in
    let bx := ((x2 - x1) * tenth)%Qc in
    let by_ := ((y2 - y1) * tenth)%Qc in
    let x1 := (x1 - bx)%Qc in
    let y1 := (y1 - by_)%Qc in
    let x2 := (x2 + bx)%Qc in
    let y2 := (y2 + by_)%Qc in
    let box := box (Qc_min x1 x3) (Qc_min y1 y3) (Qc_max x2 x4) (Qc_max y2 y4) in
    let polygon := difference box polygon in
    let polygon := intersection boundary_poly polygon in
    if negb (is_empty polygon) then Some polygon else None
  else None.

(** "Any left over interior rings need inverting with respect to the
    boundary." *)
Definition invert_leftovers (interior_rings : list linear_ring) : list polygon_bit :=
  match interior_rings with
  | [] => []
  | _ =>
      let boundary_poly := Polygon (boundary self) in
      let '(x3, y3, x4, y4) := bounds boundary_poly in
      let bx := ((x4 - x3) * tenth)%Qc in
      let by_ := ((y4 - y3) * tenth)%Qc in
      let x3 := (x3 - bx)%Qc in
      let y3 := (y3 - by_)%Qc in
      let x4 := (x4 + bx)%Qc in
      let y4 := (y4 + by_)%Qc in
      omap (λ ring, Overlay <$> invert_ring boundary_poly x3 y3 x4 y4 ring)
           interior_rings
  end.

Definition _rings_to_multi_polygon (rings : list linear_ring) (ccw : bool)
    : outcome projected :=
  let '(exterior_rings, interior_rings) := classify_rings rings ccw in
  '(polygon_bits, interior_rings) ← assign_holes exterior_rings interior_rings [];
  let polygon_bits := polygon_bits ++ invert_leftovers interior_rings in
  Ok (match polygon_bits with
      | [] => ProjMultiPolygon []
      | _ => ProjMultiPolygon polygon_bits
      end).

(** ** [_project_polygon] *)

(** [for src_ring in [polygon.exterior] + list(polygon.interiors)] *)
Fixpoint project_rings (fuel : nat) (src_rings : list linear_ring) (src_crs : crs)
    : outcome (list linear_ring * list (list line_string)) :=
  match src_rings with
  | [] => Ok ([], [])
  | src_ring :: rest =>
      '(p_rings, p_mline) ← _project_linear_ring fuel src_ring src_crs;
      '(rings, multi_lines) ← project_rings fuel rest src_crs;
      Ok (p_rings ++ rings,
          match p_mline with [] => multi_lines | _ => p_mline :: multi_lines end)
  end.

(** [_project_polygon], with the method it calls to attach lines to the
    boundary as a parameter [attach]. *)
Definition project_polygon_with
    (attach : list (list line_string) → bool → outcome (list linear_ring))
    (fuel : nat) (polygon : polygon) (src_crs : crs) : outcome projected :=
  let ccw := if is_geodetic src_crs then true else is_ccw (exterior polygon) in
  '(rings, multi_lines) ←
    project_rings fuel (exterior polygon :: interiors polygon) src_crs;
  rings ← match multi_lines with
          | [] => Ok rings
          | _ => attached ← attach multi_lines ccw; Ok (rings ++ attached)
          end;
  _rings_to_multi_polygon rings ccw.

Definition _project_polygon (fuel : nat) (polygon : polygon) (src_crs : crs)
    : outcome projected :=
  project_polygon_with (_attach_lines_to_boundary fuel) fuel polygon src_crs.

(** ** The multi-geometry handlers *)

Definition _project_multipoint (geoms : list coord) (src_crs : crs) : projected :=
  let geoms := (λ geom : coord, _project_point geom.1 geom.2 src_crs) <$> geoms in
  match geoms with
  | [] => ProjMultiPoint []
  | _ => ProjMultiPoint geoms
  end.

(** The loop of [_project_multiline]: [if r: geoms.extend(r.geoms)]. *)
Fixpoint project_lines (geoms : list line_string) (src_crs : crs) : list line_string :=
  match geoms with
  | [] => []
  | geom :: rest =>
      let r := _project_line_string geom src_crs in
      match r with
      | [] => project_lines rest src_crs
      | _ => r ++ project_lines rest src_crs
      end
  end.

Definition _project_multiline (geoms : list line_string) (src_crs : crs) : projected :=
  let geoms := project_lines geoms src_crs in
  match geoms with
  | [] => ProjEmptyList
  | _ => ProjMultiLineString geoms
  end.

(** [r.geoms] for the result [r] of [_project_polygon]; an empty result is
    falsy and contributes nothing. *)
Definition parts_of (r : projected) : outcome (list polygon_bit) :=
  match r with
  | ProjMultiPolygon parts => Ok parts
  | _ => Raise AttributeError
  end.

Fixpoint project_polygons (fuel : nat) (geoms : list polygon) (src_crs : crs)
    : outcome (list polygon_bit) :=
  match geoms with
  | [] => Ok []
  | geom :: rest =>
      r ← _project_polygon fuel geom src_crs;
      parts ← parts_of r;
      more ← project_polygons fuel rest src_crs;
      Ok (parts ++ more)
  end.

Definition _project_multipolygon (fuel : nat) (geoms : list polygon) (src_crs : crs)
    : outcome projected :=
  geoms ← project_polygons fuel geoms src_crs;
  Ok (match geoms with
      | [] => ProjMultiPolygon []
      | _ => ProjMultiPolygon geoms
      end).

(** ** [project_geometry] *)

(** [getattr(self, method_name)(geometry, src_crs)]; a handler applied to a
    geometry without the attributes it reads raises [AttributeError]. *)
Definition call_method (fuel : nat) (method_name : string) (g : geometry)
    (src_crs : crs) : outcome projected :=
  if decide (method_name = "_project_point") then
    match g with
    | Point x y => Ok (ProjPoint (_project_point x y src_crs))
    | _ => Raise AttributeError
    end
  else if decide (method_name = "_project_line_string") then
    match g with
    | LineString cs => Ok (ProjMultiLineString (_project_line_string cs src_crs))
    | _ => Raise AttributeError
    end
  else if decide (method_name = "_project_linear_ring") then
    match g with
    | LinearRing_geom cs =>
        '(rings, mls) ← _project_linear_ring fuel cs src_crs; Ok (ProjRings rings mls)
    | _ => Raise AttributeError
    end
  else if decide (method_name = "_project_polygon") then
    match g with
    | Polygon_geom p => _project_polygon fuel p src_crs
    | _ => Raise AttributeError
    end
  else if decide (method_name = "_project_multipoint") then
    match g with
    | MultiPoint geoms => Ok (_project_multipoint geoms src_crs)
    | _ => Raise AttributeError
    end
  else if decide (method_name = "_project_multiline") then
    match g with
    | MultiLineString geoms => Ok (_project_multiline geoms src_crs)
    | _ => Raise AttributeError
    end
  else if decide (method_name = "_project_multipolygon") then
    match g with
    | MultiPolygon geoms => _project_multipolygon fuel geoms src_crs
    | _ => Raise AttributeError
    end
  else Raise AttributeError.

Definition project_geometry (fuel : nat) (g : geometry) (src_crs : src_arg)
    : outcome projected :=
  src_crs ← match src_crs with
            | SrcNone => Ok (as_geodetic self)
            | SrcCRS c => Ok c
            | SrcOther => Raise TypeError
            end;
  match _method_map !! geom_type g with
  | None => Raise ValueError
  | Some method_name =>
      if decide (method_name = "") then Raise ValueError
      else call_method fuel method_name g src_crs
  end.

End Pipeline.

(** ** Notions used to state the properties *)

(** The seven geometry kinds [project_geometry] supports. *)
Definition supported_kinds : list string :=
  ["Point"; "LineString"; "LinearRing"; "Polygon";
   "MultiPoint"; "MultiLineString"; "MultiPolygon"].


(** The number of the line an event is an end of. *)
Definition line_of (t : _BoundaryPoint) : option nat :=
  match data t with
  | LineEnd j _ _ => Some j
  | BoundaryVertex _ => None
  end.

(** The lines that have an end among the events, and those whose first
    end is among them. *)
Definition line_ends (things : list _BoundaryPoint) : list nat :=
  omap line_of things.

Definition first_end_of (t : _BoundaryPoint) : option nat :=
  match data t with
  | LineEnd j tag_first _ => Some j
  | _ => None
  end.

Definition first_ends (things : list _BoundaryPoint) : list nat :=
  omap first_end_of things.

Section Notions.

Context `{Shapely}.
Variable self : Projection.

(** The ordered pair [(i, j)] can be fused: two different fragments, the
    first coordinate of fragment [i] close to the last one of fragment [j]. *)
Definition fusable (line_strings : list line_string) (i j : nat) : Prop :=
  i ≠ j ∧
  ∃ li lj a b,
    line_strings !! i = Some li ∧ line_strings !! j = Some lj ∧
    head li = Some a ∧ last lj = Some b ∧ allclose (threshold self) a b = true.

(** One replacement: the pair leaves the pool and one fragment, [j]'s
    coordinates followed by [i]'s without the joint point, enters it. *)
Inductive fuse_step : list line_string → list line_string → Prop :=
| fuse_step_pair line_strings i j li lj :
    fusable line_strings i j →
    line_strings !! i = Some li → line_strings !! j = Some lj →
    fuse_step line_strings
      (delete (i `min` j) (delete (i `max` j) line_strings) ++ [lj ++ tail li]).

(** Nothing before row [i] of the pool can be fused. *)
Definition rows_done (i : nat) (ls : list line_string) : Prop :=
  ∀ k j, k < i → ¬ fusable ls k j.

(** Fuel that lets the outer loop of the fusion finish from row [i]. *)
Definition fuse_fuel (i : nat) (ls : list line_string) : nat :=
  S ((length ls - i) + length ls * length ls).

(** The exterior ring [e] claims the ring [r]: its polygon contains it or,
    failing that, crosses it. *)
Definition claims (e r : linear_ring) : bool :=
  contains (Polygon e) r || crosses (Polygon e) r.

(** The holes a polygon bit was given by the hole assignment. *)
Definition assigned_holes (b : polygon_bit) : list linear_ring :=
  match b with
  | ShellHoles _ holes => holes
  | Overlay _ => []
  end.

(** The exterior ring and the holes of an emitted polygon part. *)
Definition part_exterior (b : polygon_bit) : linear_ring :=
  match b with
  | ShellHoles shell _ => shell
  | Overlay p => exterior p
  end.

Definition part_holes (b : polygon_bit) : list linear_ring :=
  match b with
  | ShellHoles _ holes => holes
  | Overlay p => interiors p
  end.

(** The (exterior, holes) pairs of the parts of a multi-polygon result. *)
Definition emitted_rings (r : outcome projected)
    : list (linear_ring * list linear_ring) :=
  match r with
  | Ok (ProjMultiPolygon parts) => (λ b, (part_exterior b, part_holes b)) <$> parts
  | _ => []
  end.

(** [n] passes through the body of the [while True] loop, none of which
    closes the loop or raises: the numbers of the lines appended, in order,
    and the state reached. *)
Fixpoint passes (n : nat) (bdry : linear_ring) (line_strings : list line_string)
    (i : nat) (w : walk) : option (list nat * walk) :=
  match n with
  | 0 => Some ([], w)
  | S n' =>
      match walk_pass bdry line_strings i w with
      | AddedBoundaryPoint w' => passes n' bdry line_strings i w'
      | AddedLine j w' =>
          '(js, w'') ← passes n' bdry line_strings i w';
          Some (j :: js, w'')
      | ClosedLoop _ | Raised _ => None
      end
  end.

(** The line the next pass appends to the path: the event it finds is the
    end of a line other than the origin [i]. *)
Definition next_line (bdry : linear_ring) (line_strings : list line_string)
    (i : nat) (w : walk) : option nat :=
  c ← coords_last (current_ls w);
  next_thing ← _find_first_ge (edge_things w) (boundary_distance bdry c);
  _ ← list_remove next_thing (edge_things w);
  match data next_thing with
  | LineEnd j _ _ =>
      if decide (j = i) then None else _ ← line_strings !! j; Some j
  | BoundaryVertex _ => None
  end.

(** The event list and the registry fit together: every line has at most
    one end among the events, an end belongs to a line of [line_strings],
    and every registered line is registered once, under its number, with
    its end still among the events. *)
Definition registry_ok (line_strings : list line_string)
    (things : list _BoundaryPoint) (remaining : list (nat * line_string)) : Prop :=
  NoDup (line_ends things) ∧
  (∀ j, j ∈ line_ends things → j < length line_strings) ∧
  NoDup remaining.*1 ∧
  (∀ k l, (k, l) ∈ remaining → line_strings !! k = Some l ∧ k ∈ line_ends things).

(** The state of a path that started from line [i]: the end of [i] is among
    the events, [i] has left the registry, the path has coordinates, and no
    line appended to it has an end left among the events. *)
Definition walk_ok (line_strings : list line_string) (i : nat) (w : walk) : Prop :=
  registry_ok line_strings (edge_things w) (remaining_ls w) ∧
  i ∈ line_ends (edge_things w) ∧
  (i ∉ (remaining_ls w).*1) ∧
  current_ls w ≠ [] ∧
  ∀ j, j ∈ added_linestring w → j ∉ line_ends (edge_things w).

End Notions.

(** ** A concrete collaborator: rectangles

    A small geometry kernel that is exact on axis-parallel rectangles (rings
    whose segments are parallel to the axes, polygons that are a rectangle
    with rectangular holes).  It is what the worked examples below run on.
    Rings built by its overlay operations are oriented the way GEOS orients
    them: shells clockwise, holes counter-clockwise. *)

Module Rect.

Definition qc (n : Z) : Qc := Q2Qc (inject_Z n).
Definition pt (x y : Z) : coord := (qc x, qc y).

(** Length of an axis-parallel segment. *)
Definition seg_len (a b : coord) : Qc :=
  (Qcabs (b.1 - a.1) + Qcabs (b.2 - a.2))%Qc.

Definition clamp (lo hi x : Qc) : Qc :=
  Qc_max (Qc_min lo hi) (Qc_min (Qc_max lo hi) x).

(** The point of the segment [a b] nearest to [p], and its squared distance. *)
Definition nearest (a b p : coord) : coord :=
  (clamp a.1 b.1 p.1, clamp a.2 b.2 p.2).

Definition dist2 (p q : coord) : Qc :=
  ((p.1 - q.1) * (p.1 - q.1) + (p.2 - q.2) * (p.2 - q.2))%Qc.

(** [ring.project(p)]: arc length of the nearest point, the first one on
    ties.  A candidate is a (squared distance, arc length) pair. *)
Definition candidate (travelled : Qc) (a b p : coord) : Qc * Qc :=
  let n := nearest a b p in (dist2 n p, (travelled + seg_len a n)%Qc).

Definition better (best : option (Qc * Qc)) (cand : Qc * Qc) : option (Qc * Qc) :=
  match best with
  | Some (d, _) => if decide (cand.1 < d)%Qc then Some cand else best
  | None => Some cand
  end.

(** [travelled] is the length of the segments already passed, [a] the start
    of the next segment. *)
Fixpoint arc_length_from (travelled : Qc) (best : option (Qc * Qc))
    (a : coord) (rest : list coord) (p : coord) {struct rest} : option (Qc * Qc) :=
  match rest with
  | [] => best
  | b :: rest' =>
      arc_length_from (travelled + seg_len a b)%Qc
        (better best (candidate travelled a b p)) b rest' p
  end.

Definition arc_length (ring : linear_ring) (p : coord) : Qc :=
  match ring with
  | [] => qc 0
  | a :: rest =>
      match arc_length_from (qc 0) None a rest p with
      | Some (_, d) => d
      | None => qc 0
      end
  end.

(** The point at distance [d] from [a] on the segment [a b]. *)
Definition along (a b : coord) (d : Qc) : coord :=
  let len := seg_len a b in
  if decide (len = qc 0) then a
  else (a.1 + (b.1 - a.1) * (d / len), a.2 + (b.2 - a.2) * (d / len))%Qc.

(** [ring.interpolate(d)] *)
Fixpoint point_at_from (a : coord) (rest : list coord) (d : Qc) {struct rest} : coord :=
  match rest with
  | [] => a
  | b :: rest' =>
      if decide (d ≤ seg_len a b)%Qc then along a b d
      else point_at_from b rest' (d - seg_len a b)%Qc
  end.

Definition point_at (ring : linear_ring) (d : Qc) : coord :=
  match ring with
  | [] => (qc 0, qc 0)
  | a :: rest => point_at_from a rest d
  end.

(** A line string is valid when it has two different points. *)
Definition two_points (ls : line_string) : bool :=
  match ls with
  | [] => false
  | c :: rest => bool_decide (Exists (λ c', c' ≠ c) rest)
  end.

(** Twice the signed area of a closed ring (shoelace formula). *)
Definition cross (a b : coord) : Qc := (a.1 * b.2 - b.1 * a.2)%Qc.

Fixpoint area2_from (a : coord) (rest : list coord) {struct rest} : Qc :=
  match rest with
  | [] => qc 0
  | b :: rest' => (cross a b + area2_from b rest')%Qc
  end.

Definition area2 (ring : list coord) : Qc :=
  match ring with
  | [] => qc 0
  | a :: rest => area2_from a rest
  end.

Definition positive_area (ring : linear_ring) : bool := bool_decide (qc 0 < area2 ring)%Qc.

(** A polygon: its shell and holes; the empty polygon has no shell. *)
Record poly := Poly { shell : linear_ring; holes : list linear_ring }.

Definition empty_poly : poly := Poly [] [].

(** Bounding rectangle [(minx, miny, maxx, maxy)] of a non-empty ring. *)
Definition grow (c : coord) (b : Qc * Qc * Qc * Qc) : Qc * Qc * Qc * Qc :=
  let '(x1, y1, x2, y2) := b in
  (Qc_min c.1 x1, Qc_min c.2 y1, Qc_max c.1 x2, Qc_max c.2 y2).

Definition bbox (ring : list coord) : option (Qc * Qc * Qc * Qc) :=
  match ring with
  | [] => None
  | c :: rest =>
      Some (foldr grow (c.1, c.2, c.1, c.2) rest)
  end.

(** The rectangle as a clockwise and as a counter-clockwise ring. *)
Definition cw_rect (b : Qc * Qc * Qc * Qc) : linear_ring :=
  let '(x1, y1, x2, y2) := b in [(x1, y1); (x1, y2); (x2, y2); (x2, y1); (x1, y1)].

Definition ccw_rect (b : Qc * Qc * Qc * Qc) : linear_ring :=
  let '(x1, y1, x2, y2) := b in [(x2, y1); (x2, y2); (x1, y2); (x1, y1); (x2, y1)].

(** [inside a b]: rectangle [a] lies in the closed rectangle [b];
    [strictly_inside a b]: in its interior;
    [apart a b]: the open boxes do not meet. *)
Definition inside (a b : Qc * Qc * Qc * Qc) : bool :=
  let '(a1, a2, a3, a4) := a in
  let '(b1, b2, b3, b4) := b in
  bool_decide (b1 ≤ a1)%Qc && bool_decide (b2 ≤ a2)%Qc &&
  bool_decide (a3 ≤ b3)%Qc && bool_decide (a4 ≤ b4)%Qc.

Definition strictly_inside (a b : Qc * Qc * Qc * Qc) : bool :=
  let '(a1, a2, a3, a4) := a in
  let '(b1, b2, b3, b4) := b in
  bool_decide (b1 < a1)%Qc && bool_decide (b2 < a2)%Qc &&
  bool_decide (a3 < b3)%Qc && bool_decide (a4 < b4)%Qc.

Definition apart (a b : Qc * Qc * Qc * Qc) : bool :=
  let '(a1, a2, a3, a4) := a in
  let '(b1, b2, b3, b4) := b in
  bool_decide (a3 ≤ b1)%Qc || bool_decide (b3 ≤ a1)%Qc ||
  bool_decide (a4 ≤ b2)%Qc || bool_decide (b4 ≤ a2)%Qc.

Definition boxes (rings : list linear_ring) : list (Qc * Qc * Qc * Qc) :=
  omap bbox rings.

(** [polygon.contains(ring)]: the ring lies in the shell and meets no hole. *)
Definition covers_ring (p : poly) (ring : linear_ring) : bool :=
  match bbox (shell p), bbox ring with
  | Some b, Some r => inside r b && forallb (apart r) (boxes (holes p))
  | _, _ => false
  end.

(** [polygon.crosses(ring)]: part of the ring is inside and part outside. *)
Definition straddles (p : poly) (ring : linear_ring) : bool :=
  match bbox (shell p), bbox ring with
  | Some b, Some r => negb (inside r b) && negb (apart r b)
  | _, _ => false
  end.

Definition extent (p : poly) : Qc * Qc * Qc * Qc :=
  default (qc 0, qc 0, qc 0, qc 0) (bbox (shell p)).

(** [sgeom.box(minx, miny, maxx, maxy)] is counter-clockwise. *)
Definition rectangle (x1 y1 x2 y2 : Qc) : poly := Poly (ccw_rect (x1, y1, x2, y2)) [].

(** [a.difference(b)] for a [b] without holes: [b] is cut out of [a] as a
    hole when it lies strictly inside, [a] is unchanged when they are apart,
    nothing is left when [b] covers [a]. *)
Definition cut_out (a b : poly) : poly :=
  match bbox (shell a), bbox (shell b) with
  | Some ba, Some bb =>
      if apart ba bb then a
      else if inside ba bb then empty_poly
      else if strictly_inside bb ba
      then Poly (cw_rect ba) (ccw_rect <$> (boxes (holes a) ++ [bb]))
      else empty_poly
  | Some _, None => a
  | None, _ => empty_poly
  end.

(** [a.intersection(b)]: the smaller shell when one lies in the other, with
    the holes that lie strictly inside it. *)
Definition common (a b : poly) : poly :=
  match bbox (shell a), bbox (shell b) with
  | Some ba, Some bb =>
      let hs := boxes (holes a) ++ boxes (holes b) in
      if inside ba bb
      then Poly (cw_rect ba) (ccw_rect <$> filter (λ h, strictly_inside h ba = true) hs)
      else if inside bb ba
      then Poly (cw_rect bb) (ccw_rect <$> filter (λ h, strictly_inside h bb = true) hs)
      else empty_poly
  | _, _ => empty_poly
  end.

Definition no_shell (p : poly) : bool := bool_decide (shell p = []).

#[export] Instance shapely : Shapely := {|
  crs := bool;
  is_geodetic := λ c, c;
  project := arc_length;
  interpolate := point_at;
  is_valid := two_points;
  is_ccw := positive_area;
  polygon := poly;
  exterior := shell;
  interiors := holes;
  Polygon := λ ring, Poly ring [];
  contains := covers_ring;
  crosses := straddles;
  buffer0 := λ p, p;
  is_empty := no_shell;
  polygon_is_valid := λ _, true;
  bounds := extent;
  box := rectangle;
  difference := cut_out;
  intersection := common
|}.

(** The square domain [0,10] x [0,10], its boundary clockwise from the
    origin (perimeter 40), with the line clipper as a parameter. *)
Definition square : list coord := [pt 0 0; pt 0 10; pt 10 10; pt 10 0; pt 0 0].

Definition domain_with (clip : list coord → list line_string) : Projection := {|
  boundary := square;
  x_limits := (qc 0, qc 10);
  y_limits := (qc 0, qc 10);
  as_geodetic := true;
  transform_point := λ x y _, (x, y);
  project_linear := λ cs _, clip cs
|}.

(** A clipper that leaves every line as it is: all input lies in the domain. *)
Definition domain : Projection := domain_with (λ cs, [cs]).

(** A clipper that leaves nothing: all input lies outside the domain. *)
Definition far_domain : Projection := domain_with (λ _, []).

(** A walk from line 0 over an event list that holds the first end of
    line 1 twice. *)
Definition two_lines : list line_string :=
  [[pt 0 1; pt 0 2]; [pt 0 5; pt 0 6]].

Definition doubled_events : list _BoundaryPoint :=
  [BoundaryPoint (qc 5) (LineEnd 1 tag_first (pt 0 5));
   BoundaryPoint (qc 7) (LineEnd 1 tag_first (pt 0 7))].

Definition after_first_pass : walk :=
  Walk [BoundaryPoint (qc 7) (LineEnd 1 tag_first (pt 0 7))] []
       [pt 0 1; pt 0 2; pt 0 5; pt 0 6] ({[1]} ∪ ∅).

(** Two fragments across the square, from the left side to the right side
    and back. *)
Definition across : list line_string :=
  [[pt 0 5; pt 5 5; pt 10 5]; [pt 10 5; pt 5 4; pt 0 5]].

(** Three fragments that chain up: (5,5)-(1,1), (1,1)-(2,2), (2,2)-(3,3). *)
Definition chain : list line_string :=
  [[pt 1 1; pt 2 2]; [pt 5 5; pt 1 1]; [pt 2 2; pt 3 3]].

End Rect.

(** * The projection classes: limits, boundaries, quick transforms

    The part of [crs.py] around the pipeline: the helpers of class
    [Projection] that do not touch geometry, and the arithmetic of the
    concrete classes.  Numpy arrays of shape [(n, 2)] are lists of
    coordinates; a column is a list of numbers. *)

(** A Python number literal. *)
Definition int (n : Z) : Qc := Q2Qc (inject_Z n).

(** [epsilon = 1e-10] *)
Definition epsilon : Qc := Q2Qc (1 # 10000000000).

(** ** [Projection._determine_longitude_bounds] *)

Definition _determine_longitude_bounds (central_longitude : Qc) : Qc * Qc :=
  let minlon := (int (-180) + central_longitude)%Qc in
  let maxlon := (int 180 + central_longitude)%Qc in
  if decide (0 < central_longitude)%Qc then (minlon, (maxlon - epsilon)%Qc)
  else if decide (central_longitude < 0)%Qc then ((minlon + epsilon)%Qc, maxlon)
  else (minlon, maxlon).

(** ** The abstract properties of class [Projection]

    [boundary], [x_limits] and [y_limits] are abstract: every concrete class
    supplies them, and the methods of [Projection] reach them through
    [self]. *)
Class ProjectionMembers (T : Type) := {
  get_boundary : T → linear_ring;
  get_x_limits : T → Qc * Qc;
  get_y_limits : T → Qc * Qc
}.

#[global] Instance Projection_members `{Shapely} : ProjectionMembers Projection := {|
  get_boundary := boundary;
  get_x_limits := x_limits;
  get_y_limits := y_limits
|}.

(** [a.min()], [a.max()] of a numpy column: [ValueError] for a zero-size
    array. *)
Definition array_min (a : list Qc) : outcome Qc :=
  match a with
  | [] => Raise ValueError
  | x :: a' => Ok (foldl Qc_min x a')
  end.

Definition array_max (a : list Qc) : outcome Qc :=
  match a with
  | [] => Raise ValueError
  | x :: a' => Ok (foldl Qc_max x a')
  end.

(** [np.diff(limits)[0]] *)
Definition diff (limits : Qc * Qc) : Qc := (limits.2 - limits.1)%Qc.

(** ** [Projection.quick_vertices_transform]

    [self_eq_src] is the value of [self == src_crs] ([CRS.__eq__]).  The
    [and] chain stops at its first false operand. *)
Definition quick_vertices_transform `{ProjectionMembers T} (self : T)
    (vertices : list coord) (self_eq_src : bool) : outcome (option (list coord)) :=
  if self_eq_src then
    let x := vertices.*1 in
    let y := vertices.*2 in
    let x_limits := (((get_x_limits self).1 - epsilon)%Qc, ((get_x_limits self).2 + epsilon)%Qc) in
    let y_limits := (((get_y_limits self).1 - epsilon)%Qc, ((get_y_limits self).2 + epsilon)%Qc) in
    x_min ← array_min x;
    if negb (bool_decide (x_limits.1 ≤ x_min)%Qc) then Ok None else
    x_max ← array_max x;
    if negb (bool_decide (x_max ≤ x_limits.2)%Qc) then Ok None else
    y_min ← array_min y;
    if negb (bool_decide (y_limits.1 ≤ y_min)%Qc) then Ok None else
    y_max ← array_max y;
    if negb (bool_decide (y_max ≤ y_limits.2)%Qc) then Ok None else
    Ok (Some vertices)
  else Ok None.

(** A vertex inside the limits widened by epsilon. *)
Definition inside_widened_limits `{ProjectionMembers T} (self : T) (v : coord) : Prop :=
  ((get_x_limits self).1 - epsilon ≤ v.1)%Qc ∧ (v.1 ≤ (get_x_limits self).2 + epsilon)%Qc ∧
  ((get_y_limits self).1 - epsilon ≤ v.2)%Qc ∧ (v.2 ≤ (get_y_limits self).2 + epsilon)%Qc.

(** ** Class [_RectangularProjection] *)

Module _RectangularProjection.

Record t := new {
  _half_width : Qc;
  _half_height : Qc
}.

Definition boundary (self : t) : linear_ring :=
  let w := _half_width self in
  let h := _half_height self in
  LinearRing [((- w)%Qc, (- h)%Qc); ((- w)%Qc, h); (w, h); (w, (- h)%Qc); ((- w)%Qc, (- h)%Qc)].

Definition x_limits (self : t) : Qc * Qc := ((- _half_width self)%Qc, _half_width self).

Definition y_limits (self : t) : Qc * Qc := ((- _half_height self)%Qc, _half_height self).

#[global] Instance members : ProjectionMembers t := {|
  get_boundary := boundary;
  get_x_limits := x_limits;
  get_y_limits := y_limits
|}.

(** The object as the pipeline sees it; what it inherits from [CRS] and the
    clipper are arguments. *)
Definition projection `{Shapely} (self : t) (geodetic : crs)
    (transform : Qc → Qc → crs → coord)
    (clip : list coord → crs → list line_string) : Projection :=
  Build_Projection _ (boundary self) (x_limits self) (y_limits self) geodetic transform clip.

End _RectangularProjection.

(** ** Class [PlateCarree] *)

(** A value of a [proj4_params] entry: a number, a string or [None]. *)
Inductive pval :=
| PNum (q : Qc)
| PStr (s : string)
| PNone.

#[global] Instance pval_eq_dec : EqDecision pval.
Proof. solve_decision. Defined.

Module PlateCarree.

(** [super().quick_vertices_transform] *)
Definition super_quick_vertices_transform `{ProjectionMembers T} :=
  @quick_vertices_transform T _.

(** The attributes the methods below read.  The dictionary [proj4_params]
    always holds the key ['lon_0'] (the constructor enters it): [lon_0] is
    its value, [other_params] the dictionary without it, which is what is
    left after [.pop('lon_0')]. *)
Record t := new {
  lon_0 : Qc;
  other_params : gmap string pval;
  rectangular : _RectangularProjection.t;
  _threshold : Qc
}.

Definition x_limits (self : t) : Qc * Qc := _RectangularProjection.x_limits (rectangular self).
Definition y_limits (self : t) : Qc * Qc := _RectangularProjection.y_limits (rectangular self).

#[global] Instance members : ProjectionMembers t := {|
  get_boundary := λ self, _RectangularProjection.boundary (rectangular self);
  get_x_limits := x_limits;
  get_y_limits := y_limits
|}.

(** [PlateCarree(central_longitude, globe)].  [a_rad] is
    [math.radians(globe.semimajor_axis or WGS84_SEMIMAJOR_AXIS)] and
    [globe_params] the entries [CRS.__init__] takes from the globe. *)
Definition __init__ (central_longitude : Qc) (a_rad : Qc) (globe_params : gmap string pval) : t :=
  let x_max := (a_rad * int 180)%Qc in
  let y_max := (a_rad * int 90)%Qc in
  {| lon_0 := central_longitude;
     other_params := <["proj" := PStr "eqc"]> (delete "lon_0" globe_params);
     rectangular := _RectangularProjection.new x_max y_max;
     _threshold := (x_max / int 360)%Qc |}.

(** [sorted([a, b])] *)
Definition sorted2 (a b : Qc) : Qc * Qc := if decide (b < a)%Qc then (b, a) else (a, b).

Definition _bbox_and_offset (self other_plate_carree : t) : list (Qc * Qc) * Qc :=
  let self_lon_0 := lon_0 self in
  let other_lon_0 := lon_0 other_plate_carree in
  let lon_0_offset := (other_lon_0 - self_lon_0)%Qc in
  let lon_lower_bound_0 := (x_limits self).1 in
  let lon_lower_bound_1 := ((x_limits other_plate_carree).1 + lon_0_offset)%Qc in
  let lon_lower_bound_1 :=
    if decide (lon_lower_bound_1 < (x_limits self).1)%Qc
    then (lon_lower_bound_1 + diff (x_limits self))%Qc
    else lon_lower_bound_1 in
  let '(lon_lower_bound_0, lon_lower_bound_1) := sorted2 lon_lower_bound_0 lon_lower_bound_1 in
  ([(lon_lower_bound_0, lon_lower_bound_1);
    (lon_lower_bound_1, (lon_lower_bound_0 + diff (x_limits self))%Qc)],
   lon_0_offset).

(** The [src_crs] argument: a [PlateCarree] instance or another CRS. *)
Inductive source :=
| IsPlateCarree (src_crs : t)
| OtherCRS.

(** [vertices + [[-offset, 0]]] *)
Definition shifted (vertices : list coord) (offset : Qc) : list coord :=
  (λ v : coord, ((v.1 + - offset)%Qc, (v.2 + 0)%Qc)) <$> vertices.

(** The inner loop [for i in [-1, 0, 1, 2]] with its [break]. *)
Fixpoint try_moduli (vertices : list coord) (poly : Qc * Qc) (x_lim : Qc * Qc)
    (mod_ proj_offset : Qc) (moduli : list Z) : option (list coord) :=
  match moduli with
  | [] => None
  | i :: moduli' =>
      let offset := (mod_ * int i - proj_offset)%Qc in
      if bool_decide (poly.1 + offset ≤ x_lim.1)%Qc && bool_decide (x_lim.2 ≤ poly.2 + offset)%Qc
      then Some (shifted vertices offset)
      else try_moduli vertices poly x_lim mod_ proj_offset moduli'
  end.

(** The outer loop [for poly in bboxes], left as soon as a value is found. *)
Fixpoint try_bboxes (vertices : list coord) (bboxes : list (Qc * Qc)) (x_lim : Qc * Qc)
    (mod_ proj_offset : Qc) : option (list coord) :=
  match bboxes with
  | [] => None
  | poly :: bboxes' =>
      match try_moduli vertices poly x_lim mod_ proj_offset [-1; 0; 1; 2]%Z with
      | Some return_value => Some return_value
      | None => try_bboxes vertices bboxes' x_lim mod_ proj_offset
      end
  end.

(** [potential]: the [and] chain stops at its first false operand. *)
Definition potential (self src_crs : t) (ys : list Qc) : outcome bool :=
  if negb (bool_decide (other_params self = other_params src_crs)) then Ok false else
  y_min ← array_min ys;
  if negb (bool_decide ((y_limits self).1 ≤ y_min)%Qc) then Ok false else
  y_max ← array_max ys;
  Ok (bool_decide (y_max ≤ (y_limits self).2)%Qc).

Definition quick_vertices_transform (self : t) (vertices : list coord)
    (src_crs : source) (self_eq_src : bool) : outcome (option (list coord)) :=
  return_value ← super_quick_vertices_transform self vertices self_eq_src;
  match return_value, src_crs with
  | None, IsPlateCarree src_crs =>
      let xs := vertices.*1 in
      let ys := vertices.*2 in
      potential ← potential self src_crs ys;
      if potential : bool then
        let mod_ := diff (x_limits src_crs) in
        let '(bboxes, proj_offset) := _bbox_and_offset self src_crs in
        x_min ← array_min xs;
        x_max ← array_max xs;
        Ok (try_bboxes vertices bboxes (x_min, x_max) mod_ proj_offset)
      else Ok None
  | _, _ => Ok return_value
  end.

End PlateCarree.

(** ** Classes with constant limits: [TransverseMercator], [OSGB], [OSNI],
    [UTM], [EuroPP] *)

(** A decimal literal: [decimal 188149667 4] is [18814.9667]. *)
Definition decimal (digits : Z) (places : nat) : Qc :=
  Q2Qc (digits # Pos.of_nat (10 ^ places)).

(** [sgeom.LinearRing([(x0, y0), (x0, y1), (x1, y1), (x1, y0), (x0, y0)])]:
    the [boundary] of [TransverseMercator], [UTM] and [Mercator]. *)
Definition limits_ring (x_limits y_limits : Qc * Qc) : linear_ring :=
  let '(x0, x1) := x_limits in
  let '(y0, y1) := y_limits in
  LinearRing [(x0, y0); (x0, y1); (x1, y1); (x1, y0); (x0, y0)].

(** The [boundary] of [OSGB] and [OSNI]. *)
Definition origin_ring (x_limits y_limits : Qc * Qc) : linear_ring :=
  let w := (x_limits.2 - x_limits.1)%Qc in
  let h := (y_limits.2 - y_limits.1)%Qc in
  LinearRing [(int 0, int 0); (int 0, h); (w, h); (w, int 0); (int 0, int 0)].

Module fixed_limits.

(** The classes; [OSGB] and [OSNI] derive from [TransverseMercator],
    [EuroPP] from [UTM]. *)
Inductive t := TransverseMercator | OSGB | OSNI | UTM | EuroPP.

#[global] Instance t_eq_dec : EqDecision t.
Proof. solve_decision. Defined.

Definition x_limits (self : t) : Qc * Qc :=
  match self with
  | TransverseMercator => (int (-20000000), int 20000000)
  | OSGB => (int 0, int 700000)
  | OSNI => (decimal 188149667 4, decimal 3860623293 4)
  | UTM =>
      let easting := int 500000 in
      ((int 0 - easting / int 2)%Qc, (int 2 * easting + easting / int 2)%Qc)
  | EuroPP => (int (-1400000), int 2000000)
  end.

Definition y_limits (self : t) : Qc * Qc :=
  match self with
  | TransverseMercator => (int (-10000000), int 10000000)
  | OSGB => (int 0, int 1300000)
  | OSNI => (decimal 117648481 4, decimal 4647209559 4)
  | UTM =>
      let northing := int 10000000 in
      ((int 0 - northing)%Qc, (int 2 * northing + northing / int 2)%Qc)
  | EuroPP => (int 4000000, int 7900000)
  end.

(** The [boundary] property the class finds first in its bases; it reads
    the limits of the object's own class. *)
Definition boundary (self : t) : linear_ring :=
  match self with
  | TransverseMercator | UTM | EuroPP => limits_ring (x_limits self) (y_limits self)
  | OSGB | OSNI => origin_ring (x_limits self) (y_limits self)
  end.

#[global] Instance members : ProjectionMembers t := {|
  get_boundary := boundary;
  get_x_limits := x_limits;
  get_y_limits := y_limits
|}.

End fixed_limits.

(** A coordinate inside the limits. *)
Definition inside_limits `{ProjectionMembers T} (self : T) (v : coord) : Prop :=
  ((get_x_limits self).1 ≤ v.1)%Qc ∧ (v.1 ≤ (get_x_limits self).2)%Qc ∧
  ((get_y_limits self).1 ≤ v.2)%Qc ∧ (v.2 ≤ (get_y_limits self).2)%Qc.

#[global] Instance inside_limits_dec `{ProjectionMembers T} (self : T) (v : coord) :
  Decision (inside_limits self v).
Proof. unfold inside_limits. apply _. Defined.

(** ** Boundaries sampled point by point

    [_Satellite._set_boundary], and the same statements at the end of the
    constructors that sample their boundary: the ring through the points
    and the extreme values of their columns. *)

Module _Satellite.

Record t := new {
  _boundary : linear_ring;
  _x_limits : Qc * Qc;
  _y_limits : Qc * Qc;
  threshold : Qc
}.

#[global] Instance members : ProjectionMembers t := {|
  get_boundary := _boundary;
  get_x_limits := _x_limits;
  get_y_limits := _y_limits
|}.

(** [coords] has shape [(2, n)]: it is held as the list of its columns,
    which is [coords.T]. *)
Definition _set_boundary (coords : list coord) : outcome t :=
  let _boundary := LinearRing coords in
  x_min ← array_min coords.*1;
  y_min ← array_min coords.*2;
  x_max ← array_max coords.*1;
  y_max ← array_max coords.*2;
  let _x_limits := (x_min, x_max) in
  let _y_limits := (y_min, y_max) in
  Ok (new _boundary _x_limits _y_limits (diff _x_limits * decimal 2 2)%Qc).

End _Satellite.

(** ** Class [Mercator] *)

Module Mercator.

Record t := new {
  proj4_params : list (string * pval);
  _x_limits : Qc * Qc;
  _y_limits : Qc * Qc;
  threshold : Qc
}.

Definition x_limits (self : t) : Qc * Qc := _x_limits self.
Definition y_limits (self : t) : Qc * Qc := _y_limits self.
Definition boundary (self : t) : linear_ring := limits_ring (x_limits self) (y_limits self).

#[global] Instance members : ProjectionMembers t := {|
  get_boundary := boundary;
  get_x_limits := x_limits;
  get_y_limits := y_limits
|}.

(** [min(a, b)] *)
Definition py_min (a b : Qc) : Qc := if decide (b < a)%Qc then b else a.

(** [Mercator(central_longitude, min_latitude, max_latitude, globe,
    latitude_true_scale, false_easting, false_northing, scale_factor)].
    [transform] is [self.transform_points(Geodetic(), ...)] of the system
    with the given parameters, point by point. *)
Definition __init__
    (transform : list (string * pval) → Qc → Qc → coord)
    (central_longitude min_latitude max_latitude : Qc)
    (latitude_true_scale : option Qc)
    (false_easting false_northing : Qc)
    (scale_factor : option Qc) : outcome t :=
  let proj4_params :=
    [("proj", PStr "merc"); ("lon_0", PNum central_longitude);
     ("x_0", PNum false_easting); ("y_0", PNum false_northing);
     ("units", PStr "m")] in
  let proj4_params :=
    match latitude_true_scale with
    | Some lat_ts => proj4_params ++ [("lat_ts", PNum lat_ts)]
    | None => proj4_params
    end in
  proj4_params ←
    match scale_factor with
    | Some k_0 =>
        match latitude_true_scale with
        | Some _ => Raise ValueError
        | None => Ok (proj4_params ++ [("k_0", PNum k_0)])
        end
    | None => Ok proj4_params
    end;
  let '(minlon, maxlon) := _determine_longitude_bounds central_longitude in
  let lower := transform proj4_params minlon min_latitude in
  let upper := transform proj4_params maxlon max_latitude in
  let _x_limits := (lower.1, upper.1) in
  let _y_limits := (lower.2, upper.2) in
  Ok (new proj4_params _x_limits _y_limits
        (py_min (diff _x_limits / int 720) (diff _y_limits / int 360))%Qc).

End Mercator.

(** ** Numpy arrays filled in place

    A one-dimensional array is the list of its cells.  [np.empty(n)] gives
    [n] cells with whatever the memory holds: [uninitialised] stands for
    that content, and the constructors below are parametric in it. *)

Definition np_empty (uninitialised : nat → Qc) (n : nat) : list Qc :=
  uninitialised <$> seq 0 n.

(** [np.full(n, v)] *)
Definition np_full (n : nat) (v : Qc) : list Qc := replicate n v.

(** [np.linspace(start, stop, num)]: [start + i * step] with
    [step = (stop - start) / (num - 1)]. *)
Definition linspace (start stop : Qc) (num : nat) : list Qc :=
  let step := ((stop - start) / int (Z.of_nat (num - 1)))%Qc in
  (λ i, (start + int (Z.of_nat i) * step)%Qc) <$> seq 0 num.

(** The number of cells the slice [a[i:j]] selects; slices are clipped to
    the array. *)
Definition slice_length (a : list Qc) (i j : nat) : nat := length (drop i (take j a)).

(** [a[i:j] = v] for a number [v]. *)
Definition set_slice_scalar (a : list Qc) (i j : nat) (v : Qc) : list Qc :=
  imap (λ k x, if bool_decide (i ≤ k < j) then v else x) a.

(** [a[i:j] = values] for an array: the shapes must agree, apart from a
    one-cell array, which is broadcast; otherwise [ValueError]. *)
Definition set_slice (a : list Qc) (i j : nat) (values : list Qc) : outcome (list Qc) :=
  if decide (length values = slice_length a i j) then
    Ok (imap (λ k x, if bool_decide (i ≤ k < j) then default x (values !! (k - i)) else x) a)
  else
    match values with
    | [v] => Ok (set_slice_scalar a i j v)
    | _ => Raise ValueError
    end.

(** [a[-1] = v] *)
Definition set_last (a : list Qc) (v : Qc) : outcome (list Qc) :=
  match a with
  | [] => Raise IndexError
  | _ => Ok (<[length a - 1 := v]> a)
  end.

(** [a[0] = v] *)
Definition set_first (a : list Qc) (v : Qc) : outcome (list Qc) :=
  match a with
  | [] => Raise IndexError
  | _ => Ok (<[0 := v]> a)
  end.

(** What every sampling constructor stores. *)
Record sampled := Sampled {
  proj4_params : list (string * pval);
  _boundary : linear_ring;
  _x_limits : Qc * Qc;
  _y_limits : Qc * Qc
}.

#[global] Instance sampled_members : ProjectionMembers sampled := {|
  get_boundary := _boundary;
  get_x_limits := _x_limits;
  get_y_limits := _y_limits
|}.

(** The closing statements of those constructors:
    [[
      self._boundary = sgeom.LinearRing(points)
      mins = np.min(points, axis=0)
      maxs = np.max(points, axis=0)
      self._x_limits = mins[0], maxs[0]
      self._y_limits = mins[1], maxs[1]
    ]]
    [points] are the first two columns of what [transform_points] returns. *)
Definition store_boundary (params : list (string * pval)) (points : list coord) : outcome sampled :=
  let _boundary := LinearRing points in
  x_min ← array_min points.*1;
  y_min ← array_min points.*2;
  x_max ← array_max points.*1;
  y_max ← array_max points.*2;
  Ok (Sampled params _boundary (x_min, x_max) (y_min, y_max)).

(** [self.transform_points(src, lons, lats)], point by point; the arrays
    must have one shape. *)
Definition transform_points (transform : Qc → Qc → coord) (lons lats : list Qc) :
    outcome (list coord) :=
  if decide (length lons = length lats) then Ok (zip_with transform lons lats)
  else Raise ValueError.

(** ** Class [_WarpedRectangularProjection] *)

Module _WarpedRectangularProjection.

(** The block "Obtain boundary points" ([n = 91]): up the meridian [minlon],
    down the meridian [maxlon], and back to the start. *)
Definition boundary_arrays (uninitialised_lon uninitialised_lat : nat → Qc)
    (minlon maxlon : Qc) : outcome (list Qc * list Qc) :=
  let n := 91 in
  let lon := np_empty uninitialised_lon (2 * n + 1) in
  let lat := np_empty uninitialised_lat (2 * n + 1) in
  let lon := set_slice_scalar lon 0 n minlon in
  lat ← set_slice lat 0 n (linspace (int (-90)) (int 90) n);
  let lon := set_slice_scalar lon n (2 * n) maxlon in
  lat ← set_slice lat n (2 * n) (linspace (int 90) (int (-90)) n);
  lon ← set_last lon minlon;
  lat ← set_last lat (int (-90));
  Ok (lon, lat).

(** [transform] is [self.transform_points(self.as_geodetic(), ...)] of the
    system with the given parameters. *)
Definition __init__
    (transform : list (string * pval) → Qc → Qc → coord)
    (uninitialised_lon uninitialised_lat : nat → Qc)
    (proj4_params : list (string * pval)) (central_longitude : Qc)
    (false_easting false_northing : option Qc) : outcome sampled :=
  let proj4_params :=
    match false_easting with
    | Some x_0 => proj4_params ++ [("x_0", PNum x_0)]
    | None => proj4_params
    end in
  let proj4_params :=
    match false_northing with
    | Some y_0 => proj4_params ++ [("y_0", PNum y_0)]
    | None => proj4_params
    end in
  let '(minlon, maxlon) := _determine_longitude_bounds central_longitude in
  '(lon, lat) ← boundary_arrays uninitialised_lon uninitialised_lat minlon maxlon;
  points ← transform_points (transform proj4_params) lon lat;
  store_boundary proj4_params points.

End _WarpedRectangularProjection.

(** ** Class [LambertConformal] *)

Module LambertConformal.

Record t := new {
  base : sampled;
  cutoff : Qc;
  threshold : Qc
}.

(** Truth value of a sequence argument that may be [None]. *)
Definition truthy (arg : option (list Qc)) : bool :=
  match arg with
  | Some (_ :: _) => true
  | _ => false
  end.

(** [90 if latitude > 0 else -90] *)
Definition pole_of (latitude : Qc) : Qc :=
  if decide (0 < latitude)%Qc then int 90 else int (-90).

(** The effective [standard_parallels] after the first [if] chain. *)
Definition effective_parallels (secant_latitudes standard_parallels : option (list Qc)) :
    outcome (list Qc) :=
  if truthy secant_latitudes && truthy standard_parallels then Raise TypeError
  else match secant_latitudes with
       | Some secant => Ok secant
       | None =>
           match standard_parallels with
           | None => Ok [int 33; int 45]
           | Some parallels => Ok parallels
           end
       end.

(** The pole the cone converges to: [plat]. *)
Definition central_pole (standard_parallels : list Qc) : outcome Qc :=
  lat_1 ← or_raise IndexError (standard_parallels !! 0);
  if decide (length standard_parallels = 1) then Ok (pole_of lat_1)
  else
    lat_2 ← or_raise IndexError (standard_parallels !! 1);
    let poliest_sec := if decide (Qcabs lat_2 < Qcabs lat_1)%Qc then lat_1 else lat_2 in
    Ok (pole_of poliest_sec).

(** The boundary samples ([n = 91]): the pole, the parallel [cutoff] swept
    once around, the pole again. *)
Definition boundary_arrays (uninitialised_lon : nat → Qc)
    (central_longitude cutoff plat : Qc) : outcome (list Qc * list Qc) :=
  let n := 91 in
  let lons := np_empty uninitialised_lon (n + 2) in
  let lats := np_full (n + 2) cutoff in
  lons ← set_first lons (int 0);
  lons ← set_last lons (int 0);
  lats ← set_first lats plat;
  lats ← set_last lats plat;
  lons ←
    (if decide (plat = int 90) then
       set_slice lons 1 (length lons - 1)
         (linspace (central_longitude + int 180 - decimal 1 3)
                   (central_longitude - int 180 + decimal 1 3) n)
     else
       set_slice lons 1 (length lons - 1)
         (linspace (central_longitude - int 180 + decimal 1 3)
                   (central_longitude + int 180 - decimal 1 3) n));
  Ok (lons, lats).

Definition __init__
    (transform : list (string * pval) → Qc → Qc → coord)
    (uninitialised_lon : nat → Qc)
    (central_longitude central_latitude false_easting false_northing : Qc)
    (secant_latitudes standard_parallels : option (list Qc))
    (cutoff : Qc) : outcome t :=
  let proj4_params :=
    [("proj", PStr "lcc"); ("lon_0", PNum central_longitude);
     ("lat_0", PNum central_latitude); ("x_0", PNum false_easting);
     ("y_0", PNum false_northing)] in
  standard_parallels ← effective_parallels secant_latitudes standard_parallels;
  let n_parallels := length standard_parallels in
  if negb (bool_decide (1 ≤ n_parallels ≤ 2)) then Raise ValueError else
  lat_1 ← or_raise IndexError (standard_parallels !! 0);
  let proj4_params := proj4_params ++ [("lat_1", PNum lat_1)] in
  proj4_params ←
    (if decide (n_parallels = 2) then
       lat_2 ← or_raise IndexError (standard_parallels !! 1);
       Ok (proj4_params ++ [("lat_2", PNum lat_2)])
     else Ok proj4_params);
  plat ← central_pole standard_parallels;
  '(lons, lats) ← boundary_arrays uninitialised_lon central_longitude cutoff plat;
  points ← transform_points (transform proj4_params) lons lats;
  stored ← store_boundary proj4_params points;
  Ok (new stored cutoff (int 100000)).

End LambertConformal.

(** ** Classes [AlbersEqualArea] and [EquidistantConic] *)

(** The [standard_parallels] argument: [None], a number, or a sequence. *)
Inductive parallels_arg :=
| NoParallels
| OneNumber (latitude : Qc)
| Parallels (latitudes : list Qc).

#[global] Instance parallels_arg_eq_dec : EqDecision parallels_arg.
Proof. solve_decision. Defined.

(** The block both constructors open with:
    [[
      if standard_parallels is not None:
          try:
              proj4_params.append(('lat_1', standard_parallels[0]))
              try:
                  proj4_params.append(('lat_2', standard_parallels[1]))
              except IndexError:
                  pass
          except TypeError:
              proj4_params.append(('lat_1', standard_parallels))
    ]]
    Subscripting a number raises [TypeError]; an [IndexError] of the first
    subscript is not caught. *)
Definition append_standard_parallels (proj4_params : list (string * pval))
    (standard_parallels : parallels_arg) : outcome (list (string * pval)) :=
  match standard_parallels with
  | NoParallels => Ok proj4_params
  | OneNumber latitude => Ok (proj4_params ++ [("lat_1", PNum latitude)])
  | Parallels latitudes =>
      lat_1 ← or_raise IndexError (latitudes !! 0);
      let proj4_params := proj4_params ++ [("lat_1", PNum lat_1)] in
      match latitudes !! 1 with
      | Some lat_2 => Ok (proj4_params ++ [("lat_2", PNum lat_2)])
      | None => Ok proj4_params
      end
  end.

(** The block both constructors sample their boundary with ([n = 103]):
    along the parallel 90 from [minlon] to [maxlon] and back along -90. *)
Definition conic_boundary_arrays (uninitialised_lon uninitialised_lat : nat → Qc)
    (minlon maxlon : Qc) : outcome (list Qc * list Qc) :=
  let n := 103 in
  let lons := np_empty uninitialised_lon (2 * n + 1) in
  let lats := np_empty uninitialised_lat (2 * n + 1) in
  let tmp := linspace minlon maxlon n in
  lons ← set_slice lons 0 n tmp;
  let lats := set_slice_scalar lats 0 n (int 90) in
  lons ← set_slice lons n (length lons - 1) (rev tmp);
  let lats := set_slice_scalar lats n (length lats - 1) (int (-90)) in
  lons_0 ← or_raise IndexError (lons !! 0);
  lons ← set_last lons lons_0;
  lats_0 ← or_raise IndexError (lats !! 0);
  lats ← set_last lats lats_0;
  Ok (lons, lats).

(** What the two conic constructors leave on [self]. *)
Module conic.

Record t := new {
  base : sampled;
  threshold : Qc
}.

End conic.

(** The two constructors differ in the projection name only. *)
Definition conic__init__ (proj : string)
    (transform : list (string * pval) → Qc → Qc → coord)
    (uninitialised_lon uninitialised_lat : nat → Qc)
    (central_longitude central_latitude false_easting false_northing : Qc)
    (standard_parallels : parallels_arg) : outcome conic.t :=
  let proj4_params :=
    [("proj", PStr proj); ("lon_0", PNum central_longitude);
     ("lat_0", PNum central_latitude); ("x_0", PNum false_easting);
     ("y_0", PNum false_northing)] in
  proj4_params ← append_standard_parallels proj4_params standard_parallels;
  let '(minlon, maxlon) := _determine_longitude_bounds central_longitude in
  '(lons, lats) ← conic_boundary_arrays uninitialised_lon uninitialised_lat minlon maxlon;
  points ← transform_points (transform proj4_params) lons lats;
  stored ← store_boundary proj4_params points;
  Ok (conic.new stored (int 100000)).

Module AlbersEqualArea.

Definition __init__ := conic__init__ "aea".

End AlbersEqualArea.

Module EquidistantConic.

Definition __init__ := conic__init__ "eqdc".

End EquidistantConic.

(** ** Class [InterruptedGoodeHomolosine] *)

Module InterruptedGoodeHomolosine.

(** [a < b] on version tuples: lexicographic, a proper prefix is smaller. *)
Fixpoint version_lt (a b : list nat) : bool :=
  match a, b with
  | _, [] => false
  | [], _ :: _ => true
  | x :: a', y :: b' => if decide (x < y) then true else if decide (x = y) then version_lt a' b' else false
  end.

(** The arrays under construction and the write position [end]. *)
Definition cursor : Type := list Qc * list Qc * nat.

(** One pass of [for lon in top_interrupted_lons] ([up = true]) or of
    [for lon in bottom_interrupted_lons] ([up = false]). *)
Definition interruption (up : bool) (n : nat) (central_longitude : Qc) (state : cursor)
    (lon : Qc) : outcome cursor :=
  let '(lons, lats, end_) := state in
  let pole := if up then int 90 else int (-90) in
  let first := if up then (lon - epsilon + central_longitude)%Qc
               else (lon + epsilon + central_longitude)%Qc in
  let second := if up then (lon + epsilon + central_longitude)%Qc
                else (lon - epsilon + central_longitude)%Qc in
  let lons := set_slice_scalar lons end_ (end_ + n) first in
  lats ← set_slice lats end_ (end_ + n) (linspace pole (int 0) n);
  let end_ := end_ + n in
  let lons := set_slice_scalar lons end_ (end_ + n) second in
  lats ← set_slice lats end_ (end_ + n) (linspace (int 0) pole n);
  let end_ := end_ + n in
  Ok (lons, lats, end_).

Fixpoint interruptions (up : bool) (n : nat) (central_longitude : Qc) (state : cursor)
    (interrupted_lons : list Qc) : outcome cursor :=
  match interrupted_lons with
  | [] => Ok state
  | lon :: rest =>
      state ← interruption up n central_longitude state lon;
      interruptions up n central_longitude state rest
  end.

Record t := new {
  base : sampled;
  threshold : Qc
}.

(** The block "Obtain boundary points" ([n = 31]). *)
Definition boundary_arrays (uninitialised_lon uninitialised_lat : nat → Qc)
    (central_longitude minlon maxlon : Qc)
    (top_interrupted_lons bottom_interrupted_lons : list Qc) : outcome (list Qc * list Qc) :=
  let n := 31 in
  let size := (2 + 2 * length (top_interrupted_lons ++ bottom_interrupted_lons)) * n + 1 in
  let lons := np_empty uninitialised_lon size in
  let lats := np_empty uninitialised_lat size in
  let end_ := 0 in
  let lons := set_slice_scalar lons end_ (end_ + n) minlon in
  lats ← set_slice lats end_ (end_ + n) (linspace (int (-90)) (int 90) n);
  let end_ := end_ + n in
  '(lons, lats, end_) ← interruptions true n central_longitude (lons, lats, end_)
                          top_interrupted_lons;
  let lons := set_slice_scalar lons end_ (end_ + n) maxlon in
  lats ← set_slice lats end_ (end_ + n) (linspace (int 90) (int (-90)) n);
  let end_ := end_ + n in
  '(lons, lats, end_) ← interruptions false n central_longitude (lons, lats, end_)
                          bottom_interrupted_lons;
  lons ← set_last lons minlon;
  lats ← set_last lats (int (-90));
  Ok (lons, lats).

Definition __init__
    (PROJ4_VERSION : list nat)
    (transform : list (string * pval) → Qc → Qc → coord)
    (uninitialised_lon uninitialised_lat : nat → Qc)
    (central_longitude : Qc) (emphasis : string) : outcome t :=
  proj4_params ←
    (if decide (emphasis = "land") then
       Ok [("proj", PStr "igh"); ("lon_0", PNum central_longitude)]
     else if decide (emphasis = "ocean") then
       if version_lt PROJ4_VERSION [7; 1; 0] then Raise ValueError
       else Ok [("proj", PStr "igh_o"); ("lon_0", PNum central_longitude)]
     else Raise ValueError);
  let '(minlon, maxlon) := _determine_longitude_bounds central_longitude in
  let '(top_interrupted_lons, bottom_interrupted_lons) :=
    if decide (emphasis = "land")
    then ([int (-40)], [int 80; int (-20); int (-100)])
    else ([int (-90); int 60], [int 90; int (-60)]) in
  '(lons, lats) ← boundary_arrays uninitialised_lon uninitialised_lat central_longitude
                    minlon maxlon top_interrupted_lons bottom_interrupted_lons;
  points ← transform_points (transform proj4_params) lons lats;
  stored ← store_boundary proj4_params points;
  Ok (new stored (int 20000)).

End InterruptedGoodeHomolosine.

(** ** [Sinusoidal] *)

Module Sinusoidal.

Record t := new {
  base : sampled;
  threshold : Qc
}.

(** The block "Obtain boundary points" repeats the one of
    [_WarpedRectangularProjection.__init__]; the threshold is
    [max(np.abs(self.x_limits + self.y_limits)) * 1e-5]. *)
Definition __init__
    (transform : list (string * pval) → Qc → Qc → coord)
    (uninitialised_lon uninitialised_lat : nat → Qc)
    (central_longitude false_easting false_northing : Qc) : outcome t :=
  let proj4_params :=
    [("proj", PStr "sinu"); ("lon_0", PNum central_longitude);
     ("x_0", PNum false_easting); ("y_0", PNum false_northing)] in
  let '(minlon, maxlon) := _determine_longitude_bounds central_longitude in
  '(lon, lat) ← _WarpedRectangularProjection.boundary_arrays
                  uninitialised_lon uninitialised_lat minlon maxlon;
  points ← transform_points (transform proj4_params) lon lat;
  self ← store_boundary proj4_params points;
  Ok (new self
        (Qc_max (Qc_max (Qcabs (_x_limits self).1) (Qcabs (_x_limits self).2))
                (Qc_max (Qcabs (_y_limits self).1) (Qcabs (_y_limits self).2))
         * Q2Qc (1 # 100000))%Qc).

End Sinusoidal.
Section Sorting.

Lemma key_le_refl a : key_le a a.
Proof. split; [reflexivity | auto]. Qed.

Lemma key_le_trans a b c : key_le a b → key_le b c → key_le a c.
Proof.
  intros [Hab Kab] [Hbc Kbc]. split.
  - by etrans.
  - intros Heq Ka.
    assert (distance a = distance b) as E1.
    { apply (anti_symm Qcle); [done | by rewrite Heq]. }
    apply Kbc; [congruence | by apply Kab].
Qed.

Lemma key_lt_false_le y x : key_lt y x = false → key_le x y.
Proof.
  unfold key_lt, key_le. case_decide as E.
  - rewrite E. intros Hb. split; [reflexivity|].
    intros _ Kx. destruct (kind y); [done|]. by rewrite Kx in Hb.
  - intros Hlt%bool_decide_eq_false. apply Qcle_ngt in Hlt.
    split; [done | intros E'; by rewrite E' in E].
Qed.

Lemma key_lt_true_le y x : key_lt y x = true → key_le y x.
Proof.
  unfold key_lt, key_le. case_decide as E.
  - rewrite E. intros [Ky Kx]%andb_true_iff. by split.
  - intros Hlt%bool_decide_eq_true. split; [by apply Qclt_le_weak | done].
Qed.

Lemma sort_insert_perm x l : sort_insert x l ≡ₚ x :: l.
Proof.
  induction l as [|y l IH]; simpl; [done|].
  destruct (key_lt y x); [|done].
  rewrite IH. apply Permutation_swap.
Qed.

Lemma sort_edge_things_perm l : sort_edge_things l ≡ₚ l.
Proof.
  induction l as [|x l IH]; simpl; [done|].
  by rewrite sort_insert_perm, IH.
Qed.

Lemma sort_insert_sorted x l :
  StronglySorted key_le l → StronglySorted key_le (sort_insert x l).
Proof.
  induction 1 as [|y l Hs IH Hall]; simpl.
  - repeat constructor.
  - destruct (key_lt y x) eqn:E.
    + constructor; [done|].
      rewrite sort_insert_perm. constructor; [by apply key_lt_true_le | done].
    + apply key_lt_false_le in E.
      constructor; [by constructor|].
      constructor; [done|].
      eapply Forall_impl; [exact Hall|]. intros z Hz. by eapply key_le_trans.
Qed.

Lemma sort_edge_things_sorted l : StronglySorted key_le (sort_edge_things l).
Proof.
  induction l as [|x l IH]; simpl; [constructor | by apply sort_insert_sorted].
Qed.

Lemma StronglySorted_lookup_lt {A} (R : relation A) (l : list A) a b x y :
  StronglySorted R l → (a < b)%nat → l !! a = Some x → l !! b = Some y → R x y.
Proof.
  intros Hs. revert a b. induction Hs as [|z l Hs IH Hall]; intros a b Hab Ha Hb.
  - by rewrite lookup_nil in Ha.
  - destruct b as [|b]; [lia|]. simpl in Hb.
    destruct a as [|a]; simpl in Ha.
    + simplify_eq. rewrite Forall_forall in Hall. apply Hall.
      by eapply list_elem_of_lookup_2.
    + apply (IH a b); [lia | done | done].
Qed.

End Sorting.

(** C4.  After the sort step the event list is a rearrangement of the
    recorded events in which, for every pair of positions [a < b], the
    earlier event has the smaller or equal boundary distance, and at equal
    distance a boundary-vertex event is never placed before a line-end
    event. *)
Theorem sort_step_orders_events (edge_things : list _BoundaryPoint) :
  sort_edge_things edge_things ≡ₚ edge_things ∧
  ∀ a b ea eb,
    (a < b)%nat →
    sort_edge_things edge_things !! a = Some ea →
    sort_edge_things edge_things !! b = Some eb →
    (distance ea ≤ distance eb)%Qc ∧
    (distance ea = distance eb → kind ea = true → kind eb = true).
Proof.
  split; [apply sort_edge_things_perm|].
  intros a b ea eb Hab Ha Hb.
  exact (StronglySorted_lookup_lt key_le _ a b ea eb
           (sort_edge_things_sorted edge_things) Hab Ha Hb).
Qed.

(** ** The validity filter of the stitcher *)

Section Stitcher_output.

Context `{Shapely}.
Variable self : Projection.

Lemma makes_valid_ring_spec (p : line_string) :
  makes_valid_ring p = true ↔
  is_valid p = true ∧ (3 < length p ∨ (length p = 3 ∧ head p ≠ last p)).
Proof.
  unfold makes_valid_ring. case_decide as E.
  - rewrite andb_true_iff, bool_decide_eq_true. split.
    + intros [Hne Hv]. split; [done | right; done].
    + intros [Hv [Hlt | [_ Hne]]]; [lia | done].
  - rewrite andb_true_iff, bool_decide_eq_true. split.
    + intros [Hlt Hv]. split; [done | by left].
    + intros [Hv [Hlt | [E' _]]]; [done | done].
Qed.

Lemma LinearRing_closed (cs : list coord) : head (LinearRing cs) = last (LinearRing cs).
Proof.
  destruct cs as [|c0 cs]; [done|]. unfold LinearRing. case_decide as E.
  - by rewrite E.
  - by rewrite last_snoc.
Qed.

Lemma LinearRing_length (cs : list coord) :
  length cs ≤ length (LinearRing cs) ∧
  (head cs ≠ last cs → length (LinearRing cs) = S (length cs)).
Proof.
  destruct cs as [|c0 cs]; [done|]. unfold LinearRing. case_decide as E.
  - split; [done|]. intros Hne. by rewrite E in Hne.
  - rewrite length_app. simpl. split; [lia|]. intros _. lia.
Qed.

End Stitcher_output.

(** C1 (as amended).  Every ring the stitcher returns is [LinearRing p] for
    a finished path [p] that shapely reports valid and that has more than 3
    coordinates, or exactly 3 whose first and last differ; the ring is
    closed and has at least 4 coordinates counting the closing one.  A
    path is kept exactly under that condition: no closing coordinate is
    dropped before counting and the coordinates are not required to be
    distinct. *)
Theorem stitcher_keeps_valid_paths `{Shapely} (self : Projection) (fuel : nat)
    (multi_line_strings : list (list line_string)) (ccw : bool)
    (rings : list linear_ring) :
  _attach_lines_to_boundary self fuel multi_line_strings ccw = Ok rings →
  ∃ paths,
    stitched_paths self fuel multi_line_strings ccw = Ok paths ∧
    rings = map LinearRing (filter (λ p, makes_valid_ring p = true) paths) ∧
    (∀ p, makes_valid_ring p = true ↔
          is_valid p = true ∧ (3 < length p ∨ (length p = 3 ∧ head p ≠ last p))) ∧
    ∀ r, r ∈ rings →
      head r = last r ∧ 4 ≤ length r ∧
      ∃ p, p ∈ paths ∧ r = LinearRing p ∧ is_valid p = true ∧ 3 ≤ length p ∧
           ¬ (length p = 3 ∧ head p = last p).
Proof.
  unfold _attach_lines_to_boundary.
  destruct (stitched_paths self fuel multi_line_strings ccw) as [paths| |] eqn:E;
    [|done|done].
  intros [= <-]. exists paths. split; [done|]. split; [done|].
  split; [apply makes_valid_ring_spec|].
  intros r Hr. apply list_elem_of_fmap in Hr as (p & -> & Hp).
  apply list_elem_of_filter in Hp as [Hv Hp].
  apply makes_valid_ring_spec in Hv as [Hv Hlen].
  split; [apply LinearRing_closed|].
  destruct (LinearRing_length p) as [Hle Hopen].
  split.
  - destruct Hlen as [Hlt | [E3 Hne]]; [lia|]. rewrite (Hopen Hne). lia.
  - exists p. repeat split; [done | done | | ].
    + destruct Hlen as [Hlt | [E3 _]]; lia.
    + intros [E3 Heq]. destruct Hlen as [Hlt | [_ Hne]]; [lia | done].
Qed.

Section Corner_cut.

#[local] Existing Instance Rect.shapely.

(** A line that cuts the corner (0,10) of the square domain: the stitcher
    returns the triangle through the corner. *)
Lemma stitcher_keeps_valid_paths_witness :
  ∃ paths,
    stitched_paths Rect.domain 10
      [[[Rect.pt 5 10; Rect.pt 0 5]]] false = Ok paths ∧
    [[Rect.pt 5 10; Rect.pt 0 5; Rect.pt 0 10; Rect.pt 5 10]]
      = map LinearRing (filter (λ p, makes_valid_ring p = true) paths) ∧
    (∀ p, makes_valid_ring p = true ↔
          is_valid p = true ∧ (3 < length p ∨ (length p = 3 ∧ head p ≠ last p))) ∧
    ∀ r, r ∈ [[Rect.pt 5 10; Rect.pt 0 5; Rect.pt 0 10; Rect.pt 5 10]] →
      head r = last r ∧ 4 ≤ length r ∧
      ∃ p, p ∈ paths ∧ r = LinearRing p ∧ is_valid p = true ∧ 3 ≤ length p ∧
           ¬ (length p = 3 ∧ head p = last p).
Proof.
  apply (stitcher_keeps_valid_paths Rect.domain 10
           [[[Rect.pt 5 10; Rect.pt 0 5]]] false).
  vm_compute. reflexivity.
Defined.

(** C1 (as stated) fails: the ring returned for the corner cut has only
    three distinct coordinates, and the finished path behind it has three
    coordinates in all. *)
Lemma corner_cut_triangle_counterexample :
  ∃ r, _attach_lines_to_boundary Rect.domain 10
         [[[Rect.pt 5 10; Rect.pt 0 5]]] false = Ok [r] ∧
       ¬ (4 ≤ length (remove_dups r)).
Proof.
  exists [Rect.pt 5 10; Rect.pt 0 5; Rect.pt 0 10; Rect.pt 5 10].
  split; [vm_compute; reflexivity|].
  vm_compute. lia.
Qed.

End Corner_cut.

(** ** The ring projector: closeness and self-closed fragments *)

Section Ring_projector.

Context `{Shapely}.
Variable self : Projection.

Lemma rtol_term_nonneg (x : Qc) : (0 ≤ rtol * Qcabs x)%Qc.
Proof. apply Qcmult_nonneg_nonneg; [done | apply Qcabs_nonneg]. Qed.

Lemma within_tolerance_allclose tol a b :
  within_tolerance tol a b → allclose tol a b = true.
Proof.
  intros [H1 H2]. unfold allclose.
  rewrite andb_true_iff, !bool_decide_eq_true. split.
  - etrans; [exact H1|]. rewrite <-(Qcplus_0_r tol) at 1.
    apply Qcplus_le_mono_l, rtol_term_nonneg.
  - etrans; [exact H2|]. rewrite <-(Qcplus_0_r tol) at 1.
    apply Qcplus_le_mono_l, rtol_term_nonneg.
Qed.

Lemma detect_rings_spec (pool : list line_string) :
  detect_rings self pool =
    (map (λ l, LinearRing (removelast l))
         (filter (λ l, closes_itself self l = true) pool),
     filter (λ l, closes_itself self l = false) pool).
Proof.
  induction pool as [|line pool IH]; [done|]. simpl. rewrite IH.
  destruct (closes_itself self line) eqn:E.
  - rewrite filter_cons_True by done. rewrite filter_cons_False by by rewrite E.
    done.
  - rewrite filter_cons_False by by rewrite E.
    rewrite filter_cons_True by done. done.
Qed.

Lemma filter_nil_all_false (pool : list line_string) :
  filter (λ l, closes_itself self l = true) pool = [] →
  filter (λ l, closes_itself self l = false) pool = pool.
Proof.
  induction pool as [|line pool IH]; [done|].
  destruct (closes_itself self line) eqn:E.
  - rewrite filter_cons_True by done. done.
  - rewrite filter_cons_False by by rewrite E.
    rewrite filter_cons_True by done. intros Hn. by rewrite IH.
Qed.

(** What [_project_linear_ring] returns is the partition of the fused pool. *)
Lemma project_linear_ring_unfold fuel ring src_crs :
  _project_linear_ring self fuel ring src_crs =
    pool ← fuse_fragments self fuel (project_linear self ring src_crs);
    Ok (detect_rings self pool).
Proof.
  unfold _project_linear_ring.
  destruct (fuse_fragments self fuel (project_linear self ring src_crs))
    as [pool| |]; simpl; [|done|done].
  rewrite detect_rings_spec.
  destruct (filter (λ l, closes_itself self l = true) pool) as [|l ls] eqn:E;
    simpl; [|done].
  by rewrite (filter_nil_all_false pool E).
Qed.

Lemma closes_itself_within_tolerance line a b :
  3 < length line → head line = Some a → last line = Some b →
  within_tolerance (threshold self) a b → closes_itself self line = true.
Proof.
  intros Hlen Ha Hb Htol. unfold closes_itself. rewrite Ha, Hb.
  rewrite andb_true_iff, bool_decide_eq_true. split; [done|].
  by apply within_tolerance_allclose.
Qed.

(** When every ring leaves no open fragment, the loop over the rings
    collects no multi-line-string. *)
Lemma project_rings_all_closed fuel src_rings src_crs :
  (∀ ring, ring ∈ src_rings →
     ∃ rings, _project_linear_ring self fuel ring src_crs = Ok (rings, [])) →
  ∃ rings, project_rings self fuel src_rings src_crs = Ok (rings, []).
Proof.
  induction src_rings as [|ring rest IH]; intros Hall; [by eexists|].
  destruct (Hall ring) as [rs Hrs]; [by left|].
  destruct IH as [rs' Hrs']; [intros r Hr; apply Hall; by right|].
  exists (rs ++ rs'). simpl. rewrite Hrs. simpl. rewrite Hrs'. done.
Qed.

End Ring_projector.

(** C3.  In the result [(rings, open)] of the ring projector, [rings] are
    the fragments of the fused pool that close on themselves, each as
    [LinearRing(coords[:-1])], and [open] are the other fragments; in
    particular a fragment with more than 3 coordinates whose first and last
    coordinates are within the tolerance is among the rings and not among
    the open fragments.  And when every ring of a polygon leaves no open
    fragment, [_project_polygon] returns what the polygon assembler makes
    of the promoted rings, whatever the method that attaches lines to the
    boundary would do: it is not called. *)
Theorem self_closed_fragments_are_promoted `{Shapely} (self : Projection) :
  (∀ fuel ring src_crs rings open,
     _project_linear_ring self fuel ring src_crs = Ok (rings, open) →
     ∃ pool,
       fuse_fragments self fuel (project_linear self ring src_crs) = Ok pool ∧
       rings = map (λ l, LinearRing (removelast l))
                   (filter (λ l, closes_itself self l = true) pool) ∧
       open = filter (λ l, closes_itself self l = false) pool ∧
       ∀ line a b,
         line ∈ pool → 3 < length line →
         head line = Some a → last line = Some b →
         within_tolerance (threshold self) a b →
         LinearRing (removelast line) ∈ rings ∧ line ∉ open) ∧
  (∀ fuel polygon src_crs,
     (∀ ring, ring ∈ exterior polygon :: interiors polygon →
        ∃ rings, _project_linear_ring self fuel ring src_crs = Ok (rings, [])) →
     ∃ rings,
       project_rings self fuel (exterior polygon :: interiors polygon) src_crs
         = Ok (rings, []) ∧
       ∀ attach,
         project_polygon_with self attach fuel polygon src_crs =
         _rings_to_multi_polygon self rings
           (if is_geodetic src_crs then true else is_ccw (exterior polygon))).
Proof.
  split.
  - intros fuel ring src_crs rings open. rewrite project_linear_ring_unfold.
    destruct (fuse_fragments self fuel (project_linear self ring src_crs))
      as [pool| |]; simpl; [|done|done].
    rewrite detect_rings_spec. intros [= <- <-]. exists pool.
    split; [done|]. split; [done|]. split; [done|].
    intros line a b Hin Hlen Ha Hb Htol.
    assert (closes_itself self line = true) as Hc
      by by eapply closes_itself_within_tolerance.
    split.
    + apply (list_elem_of_fmap_2 (λ l, LinearRing (removelast l))).
      by apply list_elem_of_filter.
    + rewrite list_elem_of_filter. intros [Hf _]. congruence.
  - intros fuel polygon src_crs Hall.
    destruct (project_rings_all_closed self fuel _ src_crs Hall) as [rings Hrings].
    exists rings. split; [done|]. intros attach.
    unfold project_polygon_with. rewrite Hrings. done.
Qed.

(** ** The ring projector: fusing fragments *)

Section Fusion.

Context `{Shapely}.
Variable self : Projection.

Lemma joins_spec ls i j :
  Forall (λ l : line_string, l ≠ []) ls → i < length ls → j < length ls →
  ∃ b, joins self ls i j = Ok b ∧ (b = true ↔ fusable self ls i j).
Proof.
  intros Hne Hi Hj. unfold joins. case_decide as E.
  - exists false. split; [done|]. split; [done|]. intros [Hij _]. done.
  - destruct (lookup_lt_is_Some_2 ls i Hi) as [li Hli].
    destruct (lookup_lt_is_Some_2 ls j Hj) as [lj Hlj].
    rewrite Hli, Hlj. simpl.
    assert (li ≠ []) as Hli' by exact (proj1 (Forall_lookup _ ls) Hne i li Hli).
    assert (lj ≠ []) as Hlj' by exact (proj1 (Forall_lookup _ ls) Hne j lj Hlj).
    unfold coords_first, coords_last.
    destruct (head li) as [a|] eqn:Ea; [|by apply head_None in Ea].
    destruct (last lj) as [b|] eqn:Eb; [|by apply last_None in Eb].
    simpl. eexists. split; [done|]. split.
    + intros Hc. split; [done|]. exists li, lj, a, b. auto.
    + intros [_ (li' & lj' & a' & b' & ? & ? & ? & ? & ?)]. by simplify_eq.
Qed.

Lemma fusable_lt ls i j : fusable self ls i j → i < length ls ∧ j < length ls.
Proof.
  intros [_ (li & lj & a & b & Hi & Hj & _)].
  split; by eapply lookup_lt_Some.
Qed.

Lemma scan_j_spec ls i n : ∀ j,
  Forall (λ l : line_string, l ≠ []) ls → i < length ls → j + n = length ls →
  ∃ r, scan_j self ls i j n = Ok r ∧
       match r with
       | Some j' =>
           fusable self ls i j' ∧ ∀ j0, j ≤ j0 → j0 < j' → ¬ fusable self ls i j0
       | None => ∀ j', j ≤ j' → ¬ fusable self ls i j'
       end.
Proof.
  induction n as [|n IH]; intros j Hne Hi Hlen; simpl.
  - exists None. split; [done|]. intros j' Hj' Hf%fusable_lt. lia.
  - destruct (joins_spec ls i j Hne Hi) as (b & -> & Hb); [lia|]. simpl.
    destruct b.
    + exists (Some j). split; [done|]. split; [by apply Hb|]. intros j0 ??. lia.
    + destruct (IH (S j) Hne Hi) as (r & -> & Hr); [lia|].
      exists r. split; [done|].
      assert (¬ fusable self ls i j) as Hj by (intros Hf; by apply Hb in Hf).
      destruct r as [j'|].
      * destruct Hr as [Hf Hmin]. split; [done|]. intros j0 Hj0 Hj0'.
        destruct (decide (j0 = j)) as [->|]; [done|]. apply Hmin; lia.
      * intros j' Hj' Hf. destruct (decide (j' = j)) as [->|]; [done|].
        apply (Hr j'); [lia | done].
Qed.

Lemma fuse_pair_unfold ls i j li lj :
  ls !! i = Some li → ls !! j = Some lj →
  fuse_pair ls i j =
    delete (i `min` j) (delete (i `max` j) ls) ++ [lj ++ tail li].
Proof.
  intros Hi Hj. unfold fuse_pair. rewrite Hi, Hj. simpl.
  case_decide.
  - by rewrite Nat.min_r, Nat.max_l by lia.
  - by rewrite Nat.min_l, Nat.max_r by lia.
Qed.

(** One round of the outer loop at a row that has a partner: the first
    partner in scan order is taken and the pair replaced. *)
Lemma fuse_loop_round ls i m fuel :
  Forall (λ l : line_string, l ≠ []) ls → i < length ls →
  (∃ j, fusable self ls i j) →
  ∃ j li lj,
    fusable self ls i j ∧ (∀ j0, j0 < j → ¬ fusable self ls i j0) ∧
    ls !! i = Some li ∧ ls !! j = Some lj ∧
    fuse_loop self (S fuel) i ls m =
      fuse_loop self fuel (i `min` j)
        (delete (i `min` j) (delete (i `max` j) ls) ++ [lj ++ tail li]) true.
Proof.
  intros Hne Hi [j0 Hj0]. cbn [fuse_loop]. rewrite decide_True by done.
  destruct (scan_j_spec ls i (length ls) 0 Hne Hi) as (r & -> & Hr); [lia|].
  destruct r as [j|]; [|exfalso; apply (Hr j0); [lia | done]].
  destruct Hr as [Hf Hmin].
  pose proof Hf as [_ (li & lj & a & b & Hli & Hlj & _)].
  exists j, li, lj. split_and!; try done.
  - intros j1 Hj1. apply Hmin; lia.
  - simpl. rewrite (fuse_pair_unfold ls i j li lj Hli Hlj).
    by replace (if decide (j < i) then j else i) with (i `min` j)
      by (case_decide; lia).
Qed.

(** The pool after a fusion, position by position. *)
Lemma lookup_after_fusion (ls : list line_string) a b c n x :
  a < b → b < length ls →
  (delete a (delete b ls) ++ [c]) !! n = Some x →
  x = c ∨ ∃ n0, ls !! n0 = Some x ∧ n0 ≠ a ∧ n0 ≠ b ∧
                (n < a → n0 = n) ∧ (a ≤ n → n < n0).
Proof.
  intros Hab Hb. rewrite lookup_app_Some. intros [Hn | [_ Hn]].
  - right. destruct (decide (n < a)) as [Hlt | Hge].
    + rewrite list_lookup_delete_lt in Hn by done.
      rewrite list_lookup_delete_lt in Hn by lia.
      exists n. split_and!; (done || lia).
    + rewrite list_lookup_delete_ge in Hn by lia.
      destruct (decide (S n < b)) as [Hlt' | Hge'].
      * rewrite list_lookup_delete_lt in Hn by done.
        exists (S n). split_and!; (done || lia).
      * rewrite list_lookup_delete_ge in Hn by lia.
        exists (S (S n)). split_and!; (done || lia).
  - left. apply list_lookup_singleton_Some in Hn as [_ Hn]. done.
Qed.

Lemma lookup_after_fusion_lt (ls : list line_string) a b c n :
  a < b → b < length ls → n < a →
  (delete a (delete b ls) ++ [c]) !! n = ls !! n.
Proof.
  intros Hab Hb Hn.
  rewrite lookup_app_l by (rewrite !length_delete; try lia;
    (apply lookup_lt_is_Some_2; rewrite ?length_delete; try lia;
     apply lookup_lt_is_Some_2; lia)).
  rewrite list_lookup_delete_lt by done.
  by rewrite list_lookup_delete_lt by lia.
Qed.

Lemma last_joined (lj li : line_string) b :
  last (lj ++ tail li) = Some b → last lj = Some b ∨ last li = Some b.
Proof.
  rewrite last_app_Some. intros [Ht | [_ Hl]]; [|by left].
  right. destruct li as [|x [|y t]]; [done | done |].
  by rewrite last_cons_cons.
Qed.

Lemma length_after_fusion (ls : list line_string) a b c :
  a < b → b < length ls →
  S (length (delete a (delete b ls) ++ [c])) = length ls.
Proof.
  intros Hab Hb. rewrite length_app. simpl.
  assert (is_Some (ls !! b)) as Hsb by (apply lookup_lt_is_Some_2; lia).
  pose proof (length_delete ls b Hsb) as E1.
  assert (is_Some (delete b ls !! a)) as Hsa by (apply lookup_lt_is_Some_2; lia).
  pose proof (length_delete (delete b ls) a Hsa) as E2.
  lia.
Qed.

Lemma fusion_facts ls i j :
  Forall (λ l : line_string, l ≠ []) ls → fusable self ls i j → rows_done self i ls →
  let ls' := fuse_pair ls i j in
  fuse_step self ls ls' ∧ Forall (λ l : line_string, l ≠ []) ls' ∧ S (length ls') = length ls ∧
  S (i `min` j) < length ls ∧ rows_done self (i `min` j) ls'.
Proof.
  intros Hne Hf Hdone ls'.
  pose proof Hf as [Hij (li & lj & a & b & Hi & Hj & Ha & Hb & Hc)].
  pose proof (fusable_lt _ _ _ Hf) as [Hil Hjl].
  assert (ls' = delete (i `min` j) (delete (i `max` j) ls) ++ [lj ++ tail li])
    as -> by by apply fuse_pair_unfold.
  assert (i `min` j < i `max` j) as Hmm by lia.
  assert (i `max` j < length ls) as Hml by lia.
  assert (lj ≠ []) as Hlj' by exact (proj1 (Forall_lookup _ ls) Hne j lj Hj).
  split; [by econstructor|]. split.
  { apply Forall_lookup_2. intros n x Hn.
    apply lookup_after_fusion in Hn as [-> | (n0 & Hn0 & _)]; [| |done|done].
    - by destruct lj.
    - exact (proj1 (Forall_lookup _ ls) Hne n0 x Hn0). }
  split; [by apply length_after_fusion|]. split; [lia|].
  intros k j' Hk [Hkj (lk & lj' & a' & b' & Hk' & Hj' & Ha' & Hb' & Hc')].
  rewrite lookup_after_fusion_lt in Hk' by done.
  apply lookup_after_fusion in Hj' as [-> | (n0 & Hn0 & Hna & Hnb & Hlt & Hge)];
    [| |done|done].
  - apply last_joined in Hb' as [Hb' | Hb'].
    + apply (Hdone k j); [lia|]. split; [lia|]. by exists lk, lj, a', b'.
    + apply (Hdone k i); [lia|]. split; [lia|]. by exists lk, li, a', b'.
  - apply (Hdone k n0); [lia|]. split; [|by exists lk, lj', a', b'].
    destruct (decide (j' < i `min` j)); [rewrite Hlt by done; lia|].
    assert (j' < n0) by (apply Hge; lia). lia.
Qed.

Lemma fuse_loop_spec fuel : ∀ i ls m,
  Forall (λ l : line_string, l ≠ []) ls → rows_done self i ls → i ≤ length ls → fuse_fuel i ls ≤ fuel →
  ∃ out m',
    fuse_loop self fuel i ls m = Ok (out, m') ∧
    rtc (fuse_step self) ls out ∧
    rows_done self (length out) out ∧
    (m = true → m' = true) ∧
    (m' = false → out = ls).
Proof.
  unfold fuse_fuel.
  induction fuel as [|fuel IH]; intros i ls m Hne Hdone Hi Hfuel; [lia|].
  simpl. case_decide as Hlt.
  - destruct (scan_j_spec ls i (length ls) 0 Hne Hlt) as (r & -> & Hr); [lia|].
    simpl. destruct r as [j|].
    + destruct Hr as [Hr _].
      destruct (fusion_facts ls i j Hne Hr Hdone) as (Hstep & Hne' & Hlen & Hmin & Hdone').
      assert ((if decide (j < i) then j else i) = i `min` j) as ->
        by (case_decide; lia).
      destruct (IH (i `min` j) (fuse_pair ls i j) true Hne' Hdone')
        as (out & m' & -> & Hrtc & Hout & Hmono & Hm); [lia | nia |].
      exists out, m'. split; [done|]. split; [by eapply rtc_l|]. split; [done|].
      rewrite (Hmono eq_refl). done.
    + destruct (IH (S i) ls m Hne) as (out & m' & -> & Hrtc & Hout & Hmono & Hm);
        [| lia | lia |].
      { intros k j Hk. destruct (decide (k = i)) as [->|].
        - apply Hr. lia.
        - apply Hdone. lia. }
      by exists out, m'.
  - exists ls, m. split; [done|]. split; [done|].
    assert (i = length ls) as -> by lia. done.
Qed.

Lemma rows_done_all ls : rows_done self (length ls) ls → ∀ i j, ¬ fusable self ls i j.
Proof.
  intros Hdone i j Hf. pose proof (fusable_lt _ _ _ Hf) as [Hi _].
  by apply (Hdone i j).
Qed.

Lemma fuse_fragments_spec fuel (mls : list line_string) :
  Forall (λ l : line_string, l ≠ []) mls →
  S (length mls + length mls * length mls) ≤ fuel →
  ∃ out,
    fuse_fragments self fuel mls = Ok out ∧
    rtc (fuse_step self) mls out ∧
    ∀ i j, ¬ fusable self out i j.
Proof.
  intros Hne Hfuel. unfold fuse_fragments. case_decide as Hlen.
  - destruct (fuse_loop_spec fuel 0 mls false Hne)
      as (out & m' & -> & Hrtc & Hdone & _ & Hm).
    + intros k j Hk. lia.
    + lia.
    + unfold fuse_fuel. lia.
    + simpl. destruct m'.
      * exists out. split; [done|]. split; [done|]. by apply rows_done_all.
      * rewrite (Hm eq_refl) in *. exists mls. split; [done|]. split; [done|].
        by apply rows_done_all.
  - exists mls. split; [done|]. split; [done|].
    intros i j Hf. pose proof Hf as [Hij _].
    apply fusable_lt in Hf. lia.
Qed.

End Fusion.

(** C2.  Run on a clipper result of non-empty fragments, the fusion step
    returns a pool that is reached from the input by replacements of a pair
    of distinct fragments [i], [j], the first coordinate of [i] close to the
    last of [j], by the single fragment made of [j]'s coordinates followed
    by [i]'s without the joint point; and in the returned pool no ordered
    pair of distinct fragments has the first coordinate of one within the
    tolerance of the last coordinate of the other.  In each round of the
    loop, when the fragment at the current row has a partner, the pair it
    forms with its first partner in scan order is the one replaced. *)
Theorem fusion_leaves_no_fusable_pair `{Shapely} (self : Projection)
    (multi_line_string : list line_string) (fuel : nat) :
  Forall (λ ls, ls ≠ []) multi_line_string →
  S (length multi_line_string
     + length multi_line_string * length multi_line_string) ≤ fuel →
  ∃ out,
    fuse_fragments self fuel multi_line_string = Ok out ∧
    rtc (fuse_step self) multi_line_string out ∧
    (∀ i j, ¬ fusable self out i j) ∧
    (∀ i j li lj a b,
       i ≠ j → out !! i = Some li → out !! j = Some lj →
       head li = Some a → last lj = Some b →
       ¬ within_tolerance (threshold self) a b) ∧
    (∀ ls i m fuel',
       Forall (λ l, l ≠ []) ls → i < length ls → (∃ j, fusable self ls i j) →
       ∃ j li lj,
         fusable self ls i j ∧ (∀ j0, j0 < j → ¬ fusable self ls i j0) ∧
         ls !! i = Some li ∧ ls !! j = Some lj ∧
         fuse_loop self (S fuel') i ls m =
           fuse_loop self fuel' (i `min` j)
             (delete (i `min` j) (delete (i `max` j) ls) ++ [lj ++ tail li]) true).
Proof.
  intros Hne Hfuel.
  destruct (fuse_fragments_spec self fuel multi_line_string Hne Hfuel)
    as (out & Hout & Hrtc & Hnone).
  exists out. split; [done|]. split; [done|]. split; [done|]. split.
  - intros i j li lj a b Hij Hi Hj Ha Hb Htol.
    apply (Hnone i j). split; [done|]. exists li, lj, a, b.
    split_and!; try done. by apply within_tolerance_allclose.
  - intros ls i m fuel'. apply fuse_loop_round.
Qed.

Section Ring_inside.

#[local] Existing Instance Rect.shapely.

(** A polygon inside the square domain: its ring comes back from the
    clipper whole, closes on itself, and the polygon is projected although
    the attaching method handed in raises whenever it is called. *)
Example polygon_inside_needs_no_stitching :
  emitted_rings
    (project_polygon_with Rect.domain (λ _ _, Raise RuntimeError) 1
       (Rect.Poly (Rect.ccw_rect (Rect.qc 2, Rect.qc 2, Rect.qc 4, Rect.qc 4)) [])
       true)
    = [(Rect.ccw_rect (Rect.qc 2, Rect.qc 2, Rect.qc 4, Rect.qc 4), [])].
Proof. vm_compute. reflexivity. Qed.

End Ring_inside.

Section Three_fragments.

#[local] Existing Instance Rect.shapely.

Example chain_is_fused :
  fuse_fragments Rect.domain 13 Rect.chain =
    Ok [[Rect.pt 5 5; Rect.pt 1 1; Rect.pt 2 2; Rect.pt 3 3]].
Proof. vm_compute. reflexivity. Qed.

Lemma fusion_leaves_no_fusable_pair_witness :
  ∃ out,
    fuse_fragments Rect.domain 13 Rect.chain = Ok out ∧
    rtc (fuse_step Rect.domain) Rect.chain out ∧
    (∀ i j, ¬ fusable Rect.domain out i j) ∧
    (∀ i j li lj a b,
       i ≠ j → out !! i = Some li → out !! j = Some lj →
       head li = Some a → last lj = Some b →
       ¬ within_tolerance (threshold Rect.domain) a b) ∧
    (∀ ls i m fuel',
       Forall (λ l, l ≠ []) ls → i < length ls →
       (∃ j, fusable Rect.domain ls i j) →
       ∃ j li lj,
         fusable Rect.domain ls i j ∧
         (∀ j0, j0 < j → ¬ fusable Rect.domain ls i j0) ∧
         ls !! i = Some li ∧ ls !! j = Some lj ∧
         fuse_loop Rect.domain (S fuel') i ls m =
           fuse_loop Rect.domain fuel' (i `min` j)
             (delete (i `min` j) (delete (i `max` j) ls) ++ [lj ++ tail li]) true).
Proof.
  apply (fusion_leaves_no_fusable_pair Rect.domain Rect.chain 13).
  - repeat constructor; done.
  - simpl. lia.
Defined.

End Three_fragments.

(** ** The polygon assembler *)

Section Assembler.

Context `{Shapely}.
Variable self : Projection.

Lemma classify_rings_spec (rings : list linear_ring) (ccw : bool) :
  classify_rings rings ccw =
    (filter (λ r, is_ccw r = ccw) rings, filter (λ r, is_ccw r ≠ ccw) rings).
Proof.
  induction rings as [|ring rings IH]; [done|]. simpl. rewrite IH.
  case_decide as E.
  - rewrite filter_cons_False by done. by rewrite filter_cons_True by done.
  - rewrite filter_cons_True by done. rewrite filter_cons_False by auto. done.
Qed.

Lemma list_remove_middle {A} `{EqDecision A} (kept todo : list A) (x : A) :
  x ∉ kept → list_remove x (kept ++ x :: todo) = Some (kept ++ todo).
Proof.
  induction kept as [|y kept IH]; simpl; intros Hx.
  - by rewrite decide_True.
  - rewrite not_elem_of_cons in Hx. destruct Hx as [Hxy Hx].
    rewrite decide_False by done. by rewrite IH.
Qed.

(** The inner loop of the hole assignment: the rings the exterior claims
    become its holes, the others stay, both in their order. *)
Lemma slurp_holes_spec (e : linear_ring) (todo : list linear_ring) :
  ∀ holes kept,
    Forall (λ r, claims e r = false) kept →
    slurp_holes (Polygon e) todo holes (kept ++ todo) =
      Ok (holes ++ filter (λ r, claims e r = true) todo,
          kept ++ filter (λ r, claims e r = false) todo).
Proof.
  induction todo as [|r todo IH]; intros holes kept Hkept; simpl.
  - by rewrite !app_nil_r.
  - assert (claims e r = true → r ∉ kept) as Hfresh.
    { intros Hc Hin. rewrite Forall_forall in Hkept.
      specialize (Hkept r Hin). congruence. }
    destruct (claims e r) eqn:Hc.
    + rewrite filter_cons_True by done. rewrite filter_cons_False by by rewrite Hc.
      assert (list_remove r (kept ++ r :: todo) = Some (kept ++ todo)) as Hrm
        by (apply list_remove_middle; auto).
      unfold claims in Hc.
      destruct (contains (Polygon e) r) eqn:Hcon.
      * rewrite Hrm. simpl. rewrite (IH (holes ++ [r]) kept Hkept).
        by rewrite <-app_assoc.
      * simpl in Hc. rewrite Hc, Hrm. simpl.
        rewrite (IH (holes ++ [r]) kept Hkept). by rewrite <-app_assoc.
    + rewrite filter_cons_False by by rewrite Hc. rewrite filter_cons_True by done.
      unfold claims in Hc. apply orb_false_iff in Hc as [Hc1 Hc2].
      rewrite Hc1, Hc2.
      replace (kept ++ r :: todo) with ((kept ++ [r]) ++ todo)
        by by rewrite <-app_assoc.
      rewrite IH.
      * by rewrite <-app_assoc.
      * apply Forall_app. split; [done|]. constructor; [|done].
        unfold claims. apply orb_false_iff. done.
Qed.

Lemma filter_bool_split {A} (f : A → bool) (l : list A) :
  filter (λ x, f x = true) l ++ filter (λ x, f x = false) l ≡ₚ l.
Proof.
  induction l as [|x l IH]; [done|]. destruct (f x) eqn:E.
  - rewrite filter_cons_True by done. rewrite filter_cons_False by by rewrite E.
    simpl. by rewrite IH.
  - rewrite filter_cons_False by by rewrite E. rewrite filter_cons_True by done.
    rewrite <-Permutation_middle. by rewrite IH.
Qed.

(** The loop over the exterior rings. *)
Lemma assign_holes_spec (exterior_rings : list linear_ring) :
  ∀ interior_rings bits0,
  ∃ bits leftover,
    assign_holes exterior_rings interior_rings bits0 = Ok (bits0 ++ bits, leftover) ∧
    length bits = length exterior_rings ∧
    (∀ k e, exterior_rings !! k = Some e →
       ∃ holes, bits !! k = Some (ShellHoles e holes) ∧
         ∀ h, h ∈ holes ↔
              h ∈ interior_rings ∧ claims e h = true ∧
              ∀ k' e', k' < k → exterior_rings !! k' = Some e' → claims e' h = false) ∧
    (∀ h, h ∈ leftover ↔
          h ∈ interior_rings ∧ ∀ e, e ∈ exterior_rings → claims e h = false) ∧
    concat (assigned_holes <$> bits) ++ leftover ≡ₚ interior_rings.
Proof.
  induction exterior_rings as [|e rest IH]; intros interior_rings bits0.
  - exists [], interior_rings. simpl. rewrite app_nil_r.
    split_and!; try done.
    intros h. split; [intros Hh; split; [done|]; by intros e He%elem_of_nil | by intros [? _]].
  - simpl.
    pose proof (slurp_holes_spec e interior_rings [] [] (Forall_nil_2 _)) as Hslurp.
    simpl in Hslurp. rewrite Hslurp. simpl.
    set (holes := filter (λ r, claims e r = true) interior_rings).
    set (rest_rings := filter (λ r, claims e r = false) interior_rings).
    destruct (IH rest_rings (bits0 ++ [ShellHoles e holes]))
      as (bits & leftover & -> & Hlen & Hbits & Hleft & Hperm).
    exists (ShellHoles e holes :: bits), leftover.
    split; [by rewrite <-app_assoc|]. split; [simpl; lia|]. split_and!.
    + intros [|k] e0 Hk; simpl in Hk.
      * injection Hk as <-. exists holes. split; [done|]. intros h.
        unfold holes. rewrite list_elem_of_filter. split.
        -- intros [Hc Hin]. split_and!; try done. intros k' e' Hk'. lia.
        -- intros (Hin & Hc & _). done.
      * destruct (Hbits k e0 Hk) as (hs & Hhs & Hspec). exists hs.
        split; [done|]. intros h. rewrite Hspec. unfold rest_rings.
        rewrite list_elem_of_filter. split.
        -- intros ([Hce Hin] & Hc & Hprev). split_and!; try done.
           intros [|k'] e' Hk' He'; simpl in He'.
           ++ by injection He' as <-.
           ++ apply (Hprev k' e'); [lia | done].
        -- intros (Hin & Hc & Hprev). split_and!; try done.
           ++ apply (Hprev 0 e); [lia | done].
           ++ intros k' e' Hk' He'. apply (Hprev (S k') e'); [lia | done].
    + intros h. rewrite Hleft. unfold rest_rings. rewrite list_elem_of_filter.
      split.
      * intros [[Hce Hin] Hall]. split; [done|].
        intros e' [->|He']%elem_of_cons; [done | by apply Hall].
      * intros [Hin Hall]. split; [split; [|done]|].
        -- apply Hall. by left.
        -- intros e' He'. apply Hall. by right.
    + simpl. rewrite <-app_assoc, Hperm. apply filter_bool_split.
Qed.

End Assembler.

(** The hole assignment run from no polygon bits, and what the assembler
    makes of its result. *)
Lemma hole_assignment_run `{Shapely} (self : Projection)
    (exterior_rings interior_rings : list linear_ring) :
  ∃ bits leftover,
    assign_holes exterior_rings interior_rings [] = Ok (bits, leftover) ∧
    length bits = length exterior_rings ∧
    (∀ k e, exterior_rings !! k = Some e →
       ∃ holes, bits !! k = Some (ShellHoles e holes) ∧
         ∀ h, h ∈ holes ↔
              h ∈ interior_rings ∧ claims e h = true ∧
              ∀ k' e', k' < k → exterior_rings !! k' = Some e' → claims e' h = false) ∧
    (∀ h, h ∈ leftover ↔
          h ∈ interior_rings ∧ ∀ e, e ∈ exterior_rings → claims e h = false) ∧
    concat (assigned_holes <$> bits) ++ leftover ≡ₚ interior_rings ∧
    (∀ rings ccw,
       classify_rings rings ccw = (exterior_rings, interior_rings) →
       _rings_to_multi_polygon self rings ccw =
         Ok (ProjMultiPolygon (bits ++ invert_leftovers self leftover))).
Proof.
  destruct (assign_holes_spec exterior_rings interior_rings [])
    as (bits & leftover & Hrun & Hlen & Hbits & Hleft & Hperm).
  exists bits, leftover. split_and!; try done.
  intros rings ccw Hclass. unfold _rings_to_multi_polygon.
  rewrite Hclass, Hrun. simpl.
  by destruct (bits ++ invert_leftovers self leftover).
Qed.

(** C7.  The hole assignment gives one polygon bit per exterior ring, in
    order.  A hole candidate becomes a hole of an exterior exactly when that
    exterior claims it (its polygon contains the ring or, failing that,
    crosses it) and no earlier exterior does; it is left over exactly when
    no exterior claims it.  The assigned holes together with the leftovers
    are a rearrangement of the candidates, so no candidate is assigned
    twice, and only the leftovers reach the inversion step. *)
Theorem holes_go_to_first_claiming_exterior `{Shapely} (self : Projection)
    (exterior_rings interior_rings : list linear_ring) :
  ∃ bits leftover,
    assign_holes exterior_rings interior_rings [] = Ok (bits, leftover) ∧
    length bits = length exterior_rings ∧
    (∀ k e, exterior_rings !! k = Some e →
       ∃ holes, bits !! k = Some (ShellHoles e holes) ∧
         ∀ h, h ∈ holes ↔
              h ∈ interior_rings ∧ claims e h = true ∧
              ∀ k' e', k' < k → exterior_rings !! k' = Some e' → claims e' h = false) ∧
    (∀ h, h ∈ leftover ↔
          h ∈ interior_rings ∧ ∀ e, e ∈ exterior_rings → claims e h = false) ∧
    concat (assigned_holes <$> bits) ++ leftover ≡ₚ interior_rings ∧
    (∀ rings ccw,
       classify_rings rings ccw = (exterior_rings, interior_rings) →
       _rings_to_multi_polygon self rings ccw =
         Ok (ProjMultiPolygon (bits ++ invert_leftovers self leftover))).
Proof. exact (hole_assignment_run self exterior_rings interior_rings). Qed.

Section Assembler_orientation.

Context `{Shapely}.
Variable self : Projection.

Lemma invert_leftovers_overlay (leftover : list linear_ring) (b : polygon_bit) :
  b ∈ invert_leftovers self leftover →
  ∃ p ring, b = Overlay p ∧ ring ∈ leftover.
Proof.
  unfold invert_leftovers. destruct leftover as [|r0 leftover]; [by intros ?%elem_of_nil|].
  destruct (bounds (Polygon (boundary self))) as [[[x3 y3] x4] y4].
  rewrite list_elem_of_omap. intros (ring & Hring & Hb).
  destruct (invert_ring _ _ _ _ _ ring) as [p|]; [|done].
  injection Hb as <-. by exists p, ring.
Qed.

End Assembler_orientation.

(** C6 (as amended).  A ring is an exterior candidate exactly when its
    orientation equals the flag, a hole candidate exactly when it is the
    opposite.  Every polygon part that the assembler builds from an exterior
    candidate has that candidate, oriented like the flag, as its exterior
    and hole candidates, oriented opposite, as its holes; every exterior
    candidate gives such a part.  The remaining parts are the inversions of
    left-over hole candidates, passed on as shapely returns them. *)
Theorem assembler_orients_candidate_parts `{Shapely} (self : Projection)
    (rings : list linear_ring) (ccw : bool) :
  (∀ r, r ∈ (classify_rings rings ccw).1 ↔ r ∈ rings ∧ is_ccw r = ccw) ∧
  (∀ r, r ∈ (classify_rings rings ccw).2 ↔ r ∈ rings ∧ is_ccw r = negb ccw) ∧
  ∃ parts,
    _rings_to_multi_polygon self rings ccw = Ok (ProjMultiPolygon parts) ∧
    (∀ shell holes, ShellHoles shell holes ∈ parts →
       shell ∈ rings ∧ is_ccw shell = ccw ∧
       ∀ h, h ∈ holes → h ∈ rings ∧ is_ccw h = negb ccw) ∧
    (∀ r, r ∈ rings → is_ccw r = ccw → ∃ holes, ShellHoles r holes ∈ parts) ∧
    (∀ p, Overlay p ∈ parts → ∃ ring, ring ∈ rings ∧ is_ccw ring = negb ccw).
Proof.
  rewrite classify_rings_spec. simpl.
  assert (∀ r, is_ccw r ≠ ccw ↔ is_ccw r = negb ccw) as Hneg.
  { intros r. destruct (is_ccw r), ccw; simpl; split; congruence. }
  assert (∀ r, r ∈ filter (λ r, is_ccw r = ccw) rings ↔ r ∈ rings ∧ is_ccw r = ccw)
    as Hext by (intros r; rewrite list_elem_of_filter; tauto).
  assert (∀ r, r ∈ filter (λ r, is_ccw r ≠ ccw) rings ↔ r ∈ rings ∧ is_ccw r = negb ccw)
    as Hint by (intros r; rewrite list_elem_of_filter, Hneg; tauto).
  split; [done|]. split; [done|].
  destruct (hole_assignment_run self
              (filter (λ r, is_ccw r = ccw) rings)
              (filter (λ r, is_ccw r ≠ ccw) rings))
    as (bits & leftover & _ & Hlen & Hbits & Hleft & _ & Hrun).
  exists (bits ++ invert_leftovers self leftover).
  split; [apply Hrun, classify_rings_spec|].
  assert (∀ shell holes, ShellHoles shell holes ∈ bits →
            shell ∈ filter (λ r, is_ccw r = ccw) rings ∧
            ∀ h, h ∈ holes → h ∈ filter (λ r, is_ccw r ≠ ccw) rings) as Hshell.
  { intros shell holes (k & Hk)%list_elem_of_lookup_1.
    assert (k < length (filter (λ r, is_ccw r = ccw) rings)) as Hlt
      by (rewrite <-Hlen; by eapply lookup_lt_Some).
    destruct (lookup_lt_is_Some_2 _ _ Hlt) as [e He].
    destruct (Hbits k e He) as (hs & Hhs & Hspec).
    rewrite Hk in Hhs. injection Hhs as -> ->.
    split; [by eapply list_elem_of_lookup_2|].
    intros h Hh. by apply Hspec in Hh as [Hh _]. }
  split_and!.
  - intros shell holes [Hin | Hin]%elem_of_app.
    + destruct (Hshell shell holes Hin) as [Hs Hh].
      apply Hext in Hs as [Hs1 Hs2]. split_and!; try done.
      intros h Hh'. by apply Hint, Hh.
    + by apply invert_leftovers_overlay in Hin as (p & ring & ? & _).
  - intros r Hr Hccw.
    assert (r ∈ filter (λ r, is_ccw r = ccw) rings) as Hin by by apply Hext.
    apply list_elem_of_lookup_1 in Hin as [k Hk].
    destruct (Hbits k r Hk) as (hs & Hhs & _).
    exists hs. apply elem_of_app. left. by eapply list_elem_of_lookup_2.
  - intros p [Hin | Hin]%elem_of_app.
    + apply list_elem_of_lookup_1 in Hin as [k Hk].
      assert (k < length (filter (λ r, is_ccw r = ccw) rings)) as Hlt
        by (rewrite <-Hlen; by eapply lookup_lt_Some).
      destruct (lookup_lt_is_Some_2 _ _ Hlt) as [e He].
      destruct (Hbits k e He) as (hs & Hhs & _). congruence.
    + apply invert_leftovers_overlay in Hin as (p' & ring & _ & Hring).
      apply Hleft in Hring as [Hring _]. exists ring. by apply Hint.
Qed.

Section Orphan_hole.

#[local] Existing Instance Rect.shapely.

(** C6 (as stated) fails on the inverted part.  In the square domain, with
    the flag set (a geodetic source), a lone clockwise ring around
    [2,4] x [2,4] is a hole candidate that no exterior claims.  Its
    inversion is the domain with that hole; the exterior of this part is
    clockwise, not the orientation of the flag, and its hole is
    counter-clockwise, not the opposite of the flag. *)
Lemma inverted_orphan_is_clockwise_counterexample :
  emitted_rings
    (_rings_to_multi_polygon Rect.domain
       [Rect.cw_rect (Rect.qc 2, Rect.qc 2, Rect.qc 4, Rect.qc 4)] true)
    = [(Rect.cw_rect (Rect.qc 0, Rect.qc 0, Rect.qc 10, Rect.qc 10),
        [Rect.ccw_rect (Rect.qc 2, Rect.qc 2, Rect.qc 4, Rect.qc 4)])] ∧
  is_ccw (Rect.cw_rect (Rect.qc 0, Rect.qc 0, Rect.qc 10, Rect.qc 10)) ≠ true ∧
  is_ccw (Rect.ccw_rect (Rect.qc 2, Rect.qc 2, Rect.qc 4, Rect.qc 4)) ≠ negb true.
Proof.
  split; [vm_compute; reflexivity|].
  split; vm_compute; discriminate.
Qed.

End Orphan_hole.

(** ** The dispatcher *)

Section Dispatcher.

Context `{Shapely}.
Variable self : Projection.

Lemma method_map_unsupported (k : string) :
  k ∉ supported_kinds → _method_map !! k = None.
Proof.
  intros Hk. unfold _method_map. apply not_elem_of_list_to_map_1.
  exact Hk.
Qed.

Lemma method_map_supported (k : string) :
  k ∈ supported_kinds → ∃ m, _method_map !! k = Some m ∧ m ≠ "".
Proof.
  unfold supported_kinds. rewrite !elem_of_cons, elem_of_nil.
  intros [->|[->|[->|[->|[->|[->|[->|[]]]]]]]];
    (eexists; split; [vm_compute; reflexivity | discriminate]).
Qed.

Lemma project_geometry_non_crs fuel g :
  project_geometry self fuel g SrcOther = Raise TypeError.
Proof. reflexivity. Qed.

Lemma project_geometry_default_source fuel g :
  project_geometry self fuel g SrcNone =
  project_geometry self fuel g (SrcCRS (as_geodetic self)).
Proof. reflexivity. Qed.

Lemma project_geometry_unsupported fuel g c :
  geom_type g ∉ supported_kinds →
  project_geometry self fuel g (SrcCRS c) = Raise ValueError.
Proof.
  intros Hk. unfold project_geometry. simpl.
  by rewrite (method_map_unsupported _ Hk).
Qed.

(** The loop of [_project_multiline] keeps nothing when every member
    projects to nothing. *)
Lemma project_lines_all_empty geoms src_crs :
  (∀ geom, geom ∈ geoms → project_linear self geom src_crs = []) →
  project_lines self geoms src_crs = [].
Proof.
  induction geoms as [|geom geoms IH]; intros Hall; [done|]. simpl.
  unfold _project_line_string. rewrite (Hall geom) by by left.
  apply IH. intros g Hg. apply Hall. by right.
Qed.

End Dispatcher.

(** C9 (as amended).  With [src_crs] omitted the call is the call with the
    geodetic counterpart of the target as source.  With a [src_crs] that is
    neither [None] nor a CRS instance the call raises [TypeError], whatever
    the geometry and before anything is projected.  With an acceptable
    [src_crs] and a geometry whose kind is not one of the seven supported
    kinds the call raises [ValueError]. *)
Theorem project_geometry_argument_checks `{Shapely} (self : Projection)
    (fuel : nat) (g : geometry) :
  project_geometry self fuel g SrcNone =
    project_geometry self fuel g (SrcCRS (as_geodetic self)) ∧
  project_geometry self fuel g SrcOther = Raise TypeError ∧
  (∀ src_crs,
     src_crs ≠ SrcOther → geom_type g ∉ supported_kinds →
     project_geometry self fuel g src_crs = Raise ValueError).
Proof.
  split; [apply project_geometry_default_source|].
  split; [apply project_geometry_non_crs|].
  intros [|c|] Hsrc Hk; [| |done].
  - rewrite project_geometry_default_source. by apply project_geometry_unsupported.
  - by apply project_geometry_unsupported.
Qed.

(** C9 (as stated) fails: a geometry of an unsupported kind handed over
    with a [src_crs] that is not a CRS raises [TypeError], not [ValueError]. *)
Lemma unsupported_kind_with_bad_source_counterexample :
  (geom_type (H := Rect.shapely) GeometryCollection ∉ supported_kinds) ∧
  project_geometry Rect.domain 0 GeometryCollection SrcOther ≠ Raise ValueError.
Proof.
  split.
  - simpl. unfold supported_kinds. intros Hk.
    repeat (apply elem_of_cons in Hk as [Hk | Hk]; [discriminate Hk|]).
    by apply elem_of_nil in Hk.
  - rewrite project_geometry_non_crs. discriminate.
Qed.

(** C8.  A multi-line-string whose members all project to nothing is
    answered with the plain empty list, not with an empty
    [MultiLineString]; the call goes through [project_geometry] without an
    error.  (The multi-point and multi-polygon handlers return an empty
    multi-geometry of their kind.) *)
Theorem empty_multiline_is_a_plain_list `{Shapely} (self : Projection)
    (fuel : nat) (geoms : list line_string) (src_crs : crs) :
  (∀ geom, geom ∈ geoms → project_linear self geom src_crs = []) →
  _project_multiline self geoms src_crs = ProjEmptyList ∧
  project_geometry self fuel (MultiLineString geoms) (SrcCRS src_crs)
    = Ok ProjEmptyList ∧
  Ok ProjEmptyList ≠ Ok (ProjMultiLineString []) ∧
  _project_multipoint self [] src_crs = ProjMultiPoint [] ∧
  _project_multipolygon self fuel [] src_crs = Ok (ProjMultiPolygon []).
Proof.
  intros Hall.
  assert (_project_multiline self geoms src_crs = ProjEmptyList) as Hml.
  { unfold _project_multiline. by rewrite project_lines_all_empty. }
  split; [done|]. split; [|split; [discriminate | done]].
  unfold project_geometry. simpl.
  destruct (method_map_supported "MultiLineString") as (m & Hm & _).
  { unfold supported_kinds. rewrite !elem_of_cons. tauto. }
  assert (m = "_project_multiline") as -> by (vm_compute in Hm; congruence).
  rewrite Hm. simpl. unfold call_method. simpl. by rewrite Hml.
Qed.

Section Clipped_away.

#[local] Existing Instance Rect.shapely.

(** A line outside the square domain is clipped away entirely. *)
Lemma empty_multiline_is_a_plain_list_witness :
  _project_multiline Rect.far_domain [[Rect.pt 20 20; Rect.pt 30 30]] true
    = ProjEmptyList ∧
  project_geometry Rect.far_domain 1
    (MultiLineString [[Rect.pt 20 20; Rect.pt 30 30]]) (SrcCRS true)
    = Ok ProjEmptyList ∧
  Ok ProjEmptyList ≠ Ok (ProjMultiLineString []) ∧
  _project_multipoint Rect.far_domain [] true = ProjMultiPoint [] ∧
  _project_multipolygon Rect.far_domain 1 [] true = Ok (ProjMultiPolygon []).
Proof.
  apply (empty_multiline_is_a_plain_list Rect.far_domain 1
           [[Rect.pt 20 20; Rect.pt 30 30]] true).
  intros geom _. reflexivity.
Defined.

End Clipped_away.

(** ** The traversal: re-added lines *)

Section Readding.

Context `{Shapely}.
Variables (bdry : linear_ring) (line_strings : list line_string) (i : nat).

Lemma walk_pass_raises_runtime (w : walk) :
  walk_pass bdry line_strings i w = Raised RuntimeError ↔
  ∃ j, next_line bdry line_strings i w = Some j ∧ j ∈ added_linestring w.
Proof.
  unfold walk_pass, next_line.
  destruct (coords_last (current_ls w)) as [c|]; simpl; [|split; [done | by intros (? & ? & _)]].
  destruct (_find_first_ge (edge_things w) (boundary_distance bdry c)) as [t|];
    simpl; [|split; [done | by intros (? & ? & _)]].
  destruct (list_remove t (edge_things w)) as [things'|];
    simpl; [|split; [done | by intros (? & ? & _)]].
  destruct (data t) as [p|j tag xy]; [split; [done | by intros (? & ? & _)]|].
  case_decide as Hj; [split; [done | by intros (? & ? & _)]|].
  destruct (line_strings !! j) as [l|]; simpl; [|split; [done | by intros (? & ? & _)]].
  case_decide as Hadd.
  - split; [|done]. intros _. by exists j.
  - split; [done|]. intros (j' & [= <-] & Hin). done.
Qed.

Lemma walk_pass_added_line (w w' : walk) (j : nat) :
  walk_pass bdry line_strings i w = AddedLine j w' →
  next_line bdry line_strings i w = Some j ∧
  (j ∉ added_linestring w) ∧
  added_linestring w' = {[j]} ∪ added_linestring w.
Proof.
  unfold walk_pass, next_line.
  destruct (coords_last (current_ls w)) as [c|]; simpl; [|done].
  destruct (_find_first_ge (edge_things w) (boundary_distance bdry c)) as [t|];
    simpl; [|done].
  destruct (list_remove t (edge_things w)) as [things'|]; simpl; [|done].
  destruct (data t) as [p|j' tag xy]; [done|].
  case_decide as Hj; [done|].
  destruct (line_strings !! j') as [l|]; simpl; [|done].
  case_decide as Hadd; [done|].
  intros [= <- <-]. done.
Qed.

Lemma walk_pass_added_point (w w' : walk) :
  walk_pass bdry line_strings i w = AddedBoundaryPoint w' →
  added_linestring w' = added_linestring w.
Proof.
  unfold walk_pass.
  destruct (coords_last (current_ls w)) as [c|]; simpl; [|done].
  destruct (_find_first_ge (edge_things w) (boundary_distance bdry c)) as [t|];
    simpl; [|done].
  destruct (list_remove t (edge_things w)) as [things'|]; simpl; [|done].
  destruct (data t) as [p|j' tag xy].
  - by intros [= <-].
  - case_decide; [done|]. destruct (line_strings !! j'); [|done].
    by case_decide.
Qed.

(** [added_linestring] is the set of the lines appended so far, and none
    was appended twice. *)
Lemma passes_added (n : nat) : ∀ w0 js w,
  passes n bdry line_strings i w0 = Some (js, w) →
  (∀ j, j ∈ added_linestring w ↔ j ∈ js ∨ j ∈ added_linestring w0) ∧
  NoDup js ∧ ∀ j, j ∈ js → j ∉ added_linestring w0.
Proof.
  induction n as [|n IH]; intros w0 js w; simpl.
  - intros [= <- <-]. split_and!.
    + intros j. rewrite elem_of_nil. tauto.
    + constructor.
    + by intros j Hj%elem_of_nil.
  - destruct (walk_pass bdry line_strings i w0) as [w'|j w'| |] eqn:Hpass; [| |done|done].
    + intros Hrun. apply walk_pass_added_point in Hpass.
      destruct (IH _ _ _ Hrun) as (Hadd & Hnd & Hfresh).
      rewrite Hpass in Hadd, Hfresh. done.
    + destruct (passes n bdry line_strings i w') as [[js' w'']|] eqn:Hrun; [|done].
      simpl. intros [= <- <-].
      apply walk_pass_added_line in Hpass as (_ & Hj & Hw').
      destruct (IH _ _ _ Hrun) as (Hadd & Hnd & Hfresh).
      assert (∀ k, k ∈ added_linestring w' ↔ k = j ∨ k ∈ added_linestring w0) as Hw''.
      { intros k. by rewrite Hw', elem_of_union, elem_of_singleton. }
      split_and!.
      * intros k. rewrite Hadd, Hw'', elem_of_cons. tauto.
      * constructor; [|done]. intros Hin. apply (Hfresh j Hin), Hw''. by left.
      * intros k [->|Hin]%elem_of_cons; [done|].
        intros Hk. apply (Hfresh k Hin), Hw''. by right.
Qed.

End Readding.

(** C5.  Take a path as the traversal starts it (nothing appended yet) and
    follow it for any number of passes that neither close it nor raise,
    appending the lines [js].  Then the next pass raises [RuntimeError]
    exactly when the line it appends is one of [js], a line appended
    earlier in this path; and no line occurs twice in [js]. *)
Theorem runtime_error_iff_line_readded `{Shapely} (bdry : linear_ring)
    (line_strings : list line_string) (i : nat)
    (things : list _BoundaryPoint) (remaining : list (nat * line_string))
    (ls : line_string) (n : nat) (js : list nat) (w : walk) :
  passes n bdry line_strings i (Walk things remaining ls ∅) = Some (js, w) →
  (walk_pass bdry line_strings i w = Raised RuntimeError ↔
   ∃ j, next_line bdry line_strings i w = Some j ∧ j ∈ js) ∧
  NoDup js.
Proof.
  intros Hrun. apply passes_added in Hrun as (Hadd & Hnd & _). simpl in Hadd.
  split; [|done]. rewrite walk_pass_raises_runtime.
  split; intros (j & Hnext & Hj); exists j; (split; [done|]).
  - apply Hadd in Hj as [Hj | Hj]; [done | by apply elem_of_empty in Hj].
  - apply Hadd. by left.
Qed.

Section Doubled_event.

#[local] Existing Instance Rect.shapely.

(** With the first end of line 1 twice among the events, the walk from
    line 0 appends line 1 and raises when it meets the second copy. *)
Example second_copy_raises :
  walk_pass Rect.square Rect.two_lines 0 Rect.after_first_pass
    = Raised RuntimeError.
Proof. vm_compute. reflexivity. Qed.

Lemma runtime_error_iff_line_readded_witness :
  (walk_pass Rect.square Rect.two_lines 0 Rect.after_first_pass
     = Raised RuntimeError ↔
   ∃ j, next_line Rect.square Rect.two_lines 0 Rect.after_first_pass = Some j ∧
        j ∈ [1]) ∧
  NoDup [1].
Proof.
  apply (runtime_error_iff_line_readded Rect.square Rect.two_lines 0
           Rect.doubled_events [] [Rect.pt 0 1; Rect.pt 0 2] 1 [1]
           Rect.after_first_pass).
  vm_compute. reflexivity.
Defined.

End Doubled_event.

(** ** The traversal: termination *)

Section Traversal.

Context `{Shapely}.
Variables (bdry : linear_ring) (line_strings : list line_string).

Lemma find_first_ge_in (a : list _BoundaryPoint) (x : Qc) :
  a ≠ [] → ∃ t, _find_first_ge a x = Some t ∧ t ∈ a.
Proof.
  intros Ha. unfold _find_first_ge.
  destruct (list_find (λ v, (x ≤ distance v)%Qc) a) as [[k v]|] eqn:E.
  - apply list_find_Some in E as (Hk & _). exists v. split; [done|].
    by eapply list_elem_of_lookup_2.
  - destruct a as [|v a]; [done|]. exists v. split; [done | by left].
Qed.

Lemma list_remove_elem {A} `{EqDecision A} (x : A) (l : list A) :
  x ∈ l → ∃ l', list_remove x l = Some l' ∧ l ≡ₚ x :: l'.
Proof.
  induction l as [|y l IH]; [by intros ?%elem_of_nil|]. simpl.
  intros Hx. case_decide as E.
  - subst. by exists l.
  - apply elem_of_cons in Hx as [Hx|Hx]; [done|].
    destruct (IH Hx) as (l' & -> & Hperm). exists (y :: l'). split; [done|].
    rewrite Hperm. apply Permutation_swap.
Qed.

(** The object that [_find_first_ge] returns is the first item equal to it:
    [remove] deletes the very position the search stopped at. *)
Lemma list_remove_found (a : list _BoundaryPoint) (x : Qc) (t : _BoundaryPoint) :
  _find_first_ge a x = Some t →
  ∃ k, a !! k = Some t ∧ list_remove t a = Some (delete k a) ∧
       ∀ k', k' < k → a !! k' ≠ Some t.
Proof.
  unfold _find_first_ge.
  destruct (list_find (λ v, (x ≤ distance v)%Qc) a) as [[k v]|] eqn:E.
  - intros [= <-]. apply list_find_Some in E as (Hk & Hv & Hbefore).
    exists k. split; [done|]. split.
    + revert k Hk Hbefore. induction a as [|y a IH]; intros k Hk Hbefore; [done|].
      simpl. destruct k as [|k]; simpl in Hk.
      * injection Hk as ->. by rewrite decide_True.
      * rewrite decide_False.
        -- rewrite (IH k); [done | done |].
           intros j z Hj Hjk. apply (Hbefore (S j) z); [done | lia].
        -- intros <-. apply (Hbefore 0 v); [done | lia | done].
    + intros k' Hk' Hk''. by apply (Hbefore k' v).
  - destruct a as [|v a]; [done|]. intros [= <-]. exists 0.
    split; [done|]. split; [simpl; by rewrite decide_True | intros k'; lia].
Qed.

Lemma line_ends_perm (a b : list _BoundaryPoint) :
  a ≡ₚ b → line_ends a ≡ₚ line_ends b.
Proof. intros Hab. unfold line_ends. by rewrite Hab. Qed.

Variable i : nat.

(** What one pass does to the state, case by case. *)
Lemma walk_pass_shape (w : walk) :
  match walk_pass bdry line_strings i w with
  | AddedBoundaryPoint w' =>
      ∃ t p, data t = BoundaryVertex p ∧
        edge_things w ≡ₚ t :: edge_things w' ∧
        remaining_ls w' = remaining_ls w ∧
        current_ls w' = current_ls w ++ [p] ∧
        added_linestring w' = added_linestring w
  | AddedLine j w' =>
      ∃ t tag xy l, data t = LineEnd j tag xy ∧ j ≠ i ∧
        line_strings !! j = Some l ∧ (j ∉ added_linestring w) ∧
        edge_things w ≡ₚ t :: edge_things w' ∧
        remaining_ls w' = pop_if_present j (remaining_ls w) ∧
        current_ls w' = current_ls w ++ l ∧
        added_linestring w' = {[j]} ∪ added_linestring w
  | ClosedLoop w' =>
      ∃ t tag xy, data t = LineEnd i tag xy ∧
        edge_things w ≡ₚ t :: edge_things w' ∧
        remaining_ls w' = remaining_ls w ∧
        current_ls w' = current_ls w
  | Raised e =>
      current_ls w = [] ∨ edge_things w = [] ∨
      ∃ t tag xy j, t ∈ edge_things w ∧ data t = LineEnd j tag xy ∧ j ≠ i ∧
        (line_strings !! j = None ∨ j ∈ added_linestring w)
  end.
Proof.
  unfold walk_pass, coords_last.
  destruct (last (current_ls w)) as [c|] eqn:Ec;
    [|left; by apply last_None].
  destruct (decide (edge_things w = [])) as [Hnil | Hne].
  { rewrite Hnil. simpl. auto. }
  destruct (find_first_ge_in (edge_things w) (boundary_distance bdry c) Hne)
    as (t & -> & Ht).
  destruct (list_remove_elem t (edge_things w) Ht) as (things' & -> & Hperm).
  destruct (data t) as [p|j tag xy] eqn:Hdata.
  - exists t, p. simpl. done.
  - case_decide as Hj.
    + subst j. exists t, tag, xy. simpl. done.
    + destruct (line_strings !! j) as [l|] eqn:Hl.
      * case_decide as Hadd.
        -- right. right. exists t, tag, xy, j. auto.
        -- exists t, tag, xy, l. simpl. done.
      * right. right. exists t, tag, xy, j. auto.
Qed.

(** Each pass that does not raise takes exactly one event from the list. *)
Lemma walk_pass_removes_one (w : walk) :
  match walk_pass bdry line_strings i w with
  | AddedBoundaryPoint w' | AddedLine _ w' | ClosedLoop w' =>
      S (length (edge_things w')) = length (edge_things w)
  | Raised _ => True
  end.
Proof.
  pose proof (walk_pass_shape w) as Hs.
  destruct (walk_pass bdry line_strings i w) as [w'|j w'|w'|e]; [| | |done].
  - destruct Hs as (t & p & _ & Hperm & _). by rewrite Hperm.
  - destruct Hs as (t & tag & xy & l & _ & _ & _ & _ & Hperm & _). by rewrite Hperm.
  - destruct Hs as (t & tag & xy & _ & Hperm & _). by rewrite Hperm.
Qed.

(** The end of the origin line stays among the events while the path goes on. *)
Lemma walk_pass_keeps_origin (w : walk) :
  i ∈ line_ends (edge_things w) →
  match walk_pass bdry line_strings i w with
  | AddedBoundaryPoint w' | AddedLine _ w' => i ∈ line_ends (edge_things w')
  | ClosedLoop _ | Raised _ => True
  end.
Proof.
  intros Hi. pose proof (walk_pass_shape w) as Hs.
  destruct (walk_pass bdry line_strings i w) as [w'|j w'|w'|e]; [| |done|done].
  - destruct Hs as (t & p & Hdata & Hperm & _).
    rewrite (line_ends_perm _ _ Hperm) in Hi. unfold line_ends in Hi. simpl in Hi.
    unfold line_of in Hi at 1. by rewrite Hdata in Hi.
  - destruct Hs as (t & tag & xy & l & Hdata & Hj & _ & _ & Hperm & _).
    rewrite (line_ends_perm _ _ Hperm) in Hi. unfold line_ends in Hi. simpl in Hi.
    unfold line_of in Hi at 1. rewrite Hdata in Hi.
    apply elem_of_cons in Hi as [->|Hi]; done.
Qed.

End Traversal.

Section Traversal_invariant.

Context `{Shapely}.
Variables (bdry : linear_ring) (line_strings : list line_string).
Hypothesis lines_nonempty : Forall (λ ls, ls ≠ []) line_strings.

Lemma line_ends_cons_vertex t p things :
  data t = BoundaryVertex p → line_ends (t :: things) = line_ends things.
Proof. intros Hd. unfold line_ends. simpl. unfold line_of at 1. by rewrite Hd. Qed.

Lemma line_ends_cons_end t j tag xy things :
  data t = LineEnd j tag xy → line_ends (t :: things) = j :: line_ends things.
Proof. intros Hd. unfold line_ends. simpl. unfold line_of at 1. by rewrite Hd. Qed.

Lemma pop_if_present_keys j (d : list (nat * line_string)) :
  NoDup d.*1 → NoDup (pop_if_present j d).*1.
Proof.
  intros Hnd. eapply sublist_NoDup; [exact Hnd|].
  apply fmap_sublist. unfold pop_if_present. apply sublist_filter.
Qed.

Lemma pop_if_present_elem j k l (d : list (nat * line_string)) :
  (k, l) ∈ pop_if_present j d ↔ k ≠ j ∧ (k, l) ∈ d.
Proof. unfold pop_if_present. by rewrite list_elem_of_filter. Qed.

(** One pass keeps the state of the path in order and never raises. *)
Lemma walk_pass_ok (i : nat) (w : walk) :
  walk_ok line_strings i w →
  match walk_pass bdry line_strings i w with
  | AddedBoundaryPoint w' | AddedLine _ w' =>
      walk_ok line_strings i w' ∧
      length (remaining_ls w') ≤ length (remaining_ls w)
  | ClosedLoop w' =>
      registry_ok line_strings (edge_things w') (remaining_ls w') ∧
      length (remaining_ls w') ≤ length (remaining_ls w)
  | Raised _ => False
  end.
Proof.
  intros ((Hnd & Hbound & Hkeys & Hreg) & Hi & Hgone & Hcur & Hfresh).
  pose proof (walk_pass_shape bdry line_strings i w) as Hs.
  destruct (walk_pass bdry line_strings i w) as [w'|j w'|w'|e].
  - destruct Hs as (t & p & Hd & Hperm & Hrem & Hc & Hadd).
    assert (line_ends (edge_things w) ≡ₚ line_ends (edge_things w')) as Hle.
    { rewrite (line_ends_perm _ _ Hperm). by rewrite (line_ends_cons_vertex t p). }
    rewrite Hrem. split; [|done]. unfold walk_ok, registry_ok.
    rewrite Hrem, Hc, Hadd. setoid_rewrite <-Hle. split_and!; try done.
    by destruct (current_ls w).
  - destruct Hs as (t & tag & xy & l & Hd & Hj & Hl & Hnew & Hperm & Hrem & Hc & Hadd).
    assert (line_ends (edge_things w) ≡ₚ j :: line_ends (edge_things w')) as Hle.
    { rewrite (line_ends_perm _ _ Hperm). by rewrite (line_ends_cons_end t j tag xy). }
    rewrite Hle in Hnd. apply NoDup_cons in Hnd as [Hjfresh Hnd'].
    assert (∀ k, k ∈ line_ends (edge_things w') → k ∈ line_ends (edge_things w))
      as Hsub by (intros k Hk; rewrite Hle; by right).
    assert (∀ k, k ≠ j → k ∈ line_ends (edge_things w) → k ∈ line_ends (edge_things w'))
      as Hother.
    { intros k Hk. rewrite Hle. intros [->|?]%elem_of_cons; done. }
    split.
    + unfold walk_ok, registry_ok. rewrite Hrem, Hc, Hadd. split_and!.
      * done.
      * intros k Hk. by apply Hbound, Hsub.
      * by apply pop_if_present_keys.
      * intros k l' [Hk Hin]%pop_if_present_elem.
        destruct (Hreg k l' Hin) as [Hl' Hk']. split; [done|]. by apply Hother.
      * by apply Hother.
      * intros Hin. apply Hgone.
        apply list_elem_of_fmap in Hin as ([k l'] & -> & Hin).
        apply pop_if_present_elem in Hin as [_ Hin].
        apply list_elem_of_fmap. by exists (k, l').
      * by destruct (current_ls w).
      * intros j' [->%elem_of_singleton | Hin]%elem_of_union; [done|].
        intros Hj'. by apply (Hfresh j' Hin), Hsub.
    + rewrite Hrem. unfold pop_if_present. apply length_filter.
  - destruct Hs as (t & tag & xy & Hd & Hperm & Hrem & Hc).
    assert (line_ends (edge_things w) ≡ₚ i :: line_ends (edge_things w')) as Hle.
    { rewrite (line_ends_perm _ _ Hperm). by rewrite (line_ends_cons_end t i tag xy). }
    rewrite Hle in Hnd. apply NoDup_cons in Hnd as [Hifresh Hnd'].
    rewrite Hrem. split; [|done]. unfold registry_ok. split_and!.
    + done.
    + intros k Hk. apply Hbound. rewrite Hle. by right.
    + done.
    + intros k l Hin. destruct (Hreg k l Hin) as [Hl Hk]. split; [done|].
      rewrite Hle in Hk. apply elem_of_cons in Hk as [->|Hk]; [|done].
      exfalso. apply Hgone. apply list_elem_of_fmap. by exists (i, l).
  - destruct Hs as [Hnil | [Hnil | (t & tag & xy & j & Ht & Hd & Hj & Hbad)]].
    + done.
    + rewrite Hnil in Hi. by apply elem_of_nil in Hi.
    + assert (j ∈ line_ends (edge_things w)) as Hin.
      { unfold line_ends. apply list_elem_of_omap. exists t. split; [done|].
        unfold line_of. by rewrite Hd. }
      destruct Hbad as [Hnone | Hadd].
      * apply lookup_ge_None in Hnone. specialize (Hbound j Hin). lia.
      * by apply (Hfresh j Hadd).
Qed.

(** The [while True] loop closes the path before the events run out. *)
Lemma walk_boundary_ok (fuel : nat) : ∀ (i : nat) (w : walk),
  walk_ok line_strings i w →
  length (edge_things w) < fuel →
  ∃ w', walk_boundary fuel bdry line_strings i w = Ok w' ∧
        registry_ok line_strings (edge_things w') (remaining_ls w') ∧
        length (remaining_ls w') ≤ length (remaining_ls w).
Proof.
  induction fuel as [|fuel IH]; intros i w Hok Hlen; [lia|]. simpl.
  pose proof (walk_pass_ok i w Hok) as Hpass.
  pose proof (walk_pass_removes_one bdry line_strings i w) as Hone.
  destruct (walk_pass bdry line_strings i w) as [w'|j w'|w'|e]; [| | |done].
  - destruct Hpass as [Hok' Hrem].
    destruct (IH i w' Hok') as (w'' & -> & Hreg & Hrem'); [lia|].
    exists w''. split_and!; [done | done | lia].
  - destruct Hpass as [Hok' Hrem].
    destruct (IH i w' Hok') as (w'' & -> & Hreg & Hrem'); [lia|].
    exists w''. split_and!; [done | done | lia].
  - destruct Hpass as [Hreg Hrem]. by exists w'.
Qed.

Lemma popitem_Some (d d' : list (nat * line_string)) kv :
  popitem d = Some (kv, d') → d = d' ++ [kv].
Proof.
  unfold popitem. destruct (last d) as [kv'|] eqn:E; [|done].
  intros [= <- <-]. apply last_Some in E as [d'' ->].
  by rewrite removelast_last.
Qed.

Lemma popitem_None (d : list (nat * line_string)) : popitem d = None → d = [].
Proof.
  unfold popitem. destruct (last d) eqn:E; [done|]. intros _. by apply last_None.
Qed.

(** The [while remaining_ls] loop: every round takes a line from the
    registry and closes a path. *)
Lemma process_lines_ok (fuel : nat) : ∀ things remaining processed,
  registry_ok line_strings things remaining →
  length remaining < fuel →
  ∃ paths,
    process_lines fuel bdry line_strings things remaining processed
      = Ok (processed ++ paths) ∧
    length paths ≤ length remaining ∧
    (remaining ≠ [] → paths ≠ []).
Proof.
  induction fuel as [|fuel IH]; intros things remaining processed Hreg Hlen; [lia|].
  cbn [process_lines].
  destruct (popitem remaining) as [[[i ls] remaining']|] eqn:Hpop.
  - apply popitem_Some in Hpop. subst remaining.
    destruct Hreg as (Hnd & Hbound & Hkeys & Hreg).
    rewrite fmap_app in Hkeys. simpl in Hkeys.
    apply NoDup_app in Hkeys as (Hkeys' & Hdisj & _).
    destruct (Hreg i ls) as [Hl Hi]; [apply elem_of_app; right; by left|].
    assert (walk_ok line_strings i (Walk things remaining' ls ∅)) as Hok.
    { unfold walk_ok, registry_ok. simpl. split_and!; try done.
      - intros k l Hin. apply Hreg. apply elem_of_app. by left.
      - intros Hin. apply (Hdisj i Hin). by left.
      - exact (proj1 (Forall_lookup _ line_strings) lines_nonempty i ls Hl). }
    destruct (walk_boundary_ok (S (length things)) i _ Hok)
      as (w' & -> & Hreg' & Hrem'); [simpl; lia|]. simpl in Hrem'. simpl.
    rewrite length_app in Hlen. simpl in Hlen.
    destruct (IH (edge_things w') (remaining_ls w') (processed ++ [current_ls w']) Hreg')
      as (paths & -> & Hpaths & _); [lia|].
    exists (current_ls w' :: paths). split; [by rewrite <-app_assoc|].
    split; [rewrite length_app; simpl; lia | done].
  - apply popitem_None in Hpop. subst remaining. exists [].
    by rewrite app_nil_r.
Qed.

End Traversal_invariant.

Section Event_list.

Context `{Shapely}.
Variable bdry : linear_ring.

Lemma record_segment_ends_ok (line_strings : list line_string) : ∀ i,
  Forall (λ ls, ls ≠ []) line_strings →
  ∃ ends, record_segment_ends bdry i line_strings = Ok ends ∧
          first_ends ends = seq i (length line_strings).
Proof.
  induction line_strings as [|ls rest IH]; intros i Hne.
  - by exists [].
  - apply Forall_cons in Hne as [Hls Hrest]. simpl.
    unfold coords_first, coords_last.
    destruct (head ls) as [c0|] eqn:E0; [|by apply head_None in E0].
    destruct (last ls) as [c1|] eqn:E1; [|by apply last_None in E1].
    simpl. destruct (IH (S i) Hrest) as (ends & -> & Hends). simpl.
    eexists. split; [done|]. unfold first_ends in *. simpl.
    f_equal. exact Hends.
Qed.

Lemma first_ends_vertices : first_ends (record_boundary_vertices bdry) = [].
Proof.
  unfold record_boundary_vertices, first_ends.
  induction (removelast bdry) as [|xy l IH]; [done|]. simpl. exact IH.
Qed.

Lemma line_ends_cons t things :
  line_ends (t :: things) =
    match line_of t with Some j => j :: line_ends things | None => line_ends things end.
Proof. done. Qed.

Lemma first_ends_cons t things :
  first_ends (t :: things) =
    match first_end_of t with Some j => j :: first_ends things | None => first_ends things end.
Proof. done. Qed.

Lemma first_end_of_vertex d p : first_end_of (BoundaryPoint d (BoundaryVertex p)) = None.
Proof. done. Qed.

Lemma first_ends_insert_artificial (things : list _BoundaryPoint) : ∀ prev,
  first_ends (insert_artificial bdry prev things) = first_ends things.
Proof.
  induction things as [|t things IH]; intros prev; [done|].
  rewrite (first_ends_cons t things). cbn [insert_artificial].
  destruct prev as [prev|]; [|by rewrite first_ends_cons, IH].
  destruct (data t) as [p|j tag xy] eqn:Hd; [by rewrite first_ends_cons, IH|].
  destruct (data prev) as [p'|j' tag' xy'] eqn:Hd'; [by rewrite first_ends_cons, IH|].
  case_decide.
  - by rewrite first_ends_cons, first_end_of_vertex, first_ends_cons, IH.
  - by rewrite first_ends_cons, IH.
Qed.

Lemma line_ends_filter_last (things : list _BoundaryPoint) :
  line_ends (filter (λ t, filter_last t = true) things) = first_ends things.
Proof.
  induction things as [|t things IH]; [done|].
  rewrite first_ends_cons. unfold first_end_of.
  destruct (data t) as [p|j [|] xy] eqn:Hd.
  - rewrite filter_cons_True by (unfold filter_last; by rewrite Hd).
    rewrite line_ends_cons. unfold line_of. by rewrite Hd.
  - rewrite filter_cons_True by (unfold filter_last; by rewrite Hd).
    rewrite line_ends_cons. unfold line_of. by rewrite Hd, IH.
  - rewrite filter_cons_False by (unfold filter_last; by rewrite Hd).
    done.
Qed.

Lemma enumerate_from (line_strings : list line_string) : ∀ n,
  (imap (λ i ls, (n + i, ls)) line_strings).*1 = seq n (length line_strings).
Proof.
  induction line_strings as [|ls rest IH]; intros n; [done|]. simpl.
  rewrite Nat.add_0_r. f_equal. rewrite <-(IH (S n)). f_equal.
  apply imap_ext. intros i x _. simpl. f_equal. lia.
Qed.

Lemma enumerate_dict_keys (line_strings : list line_string) :
  (enumerate_dict line_strings).*1 = seq 0 (length line_strings).
Proof. apply (enumerate_from line_strings 0). Qed.

Lemma enumerate_dict_elem (line_strings : list line_string) k l :
  (k, l) ∈ enumerate_dict line_strings → line_strings !! k = Some l.
Proof.
  intros [n Hn]%list_elem_of_lookup_1. unfold enumerate_dict in Hn.
  rewrite list_lookup_imap in Hn.
  destruct (line_strings !! n) as [l'|] eqn:E; [|done].
  simpl in Hn. by injection Hn as <- <-.
Qed.

(** The events the traversal starts from fit the full registry. *)
Lemma initial_registry_ok (line_strings : list line_string) :
  Forall (λ ls, ls ≠ []) line_strings →
  ∃ ends,
    record_segment_ends bdry 0 line_strings = Ok ends ∧
    registry_ok line_strings
      (filter (λ t, filter_last t = true)
         (insert_artificial bdry None
            (sort_edge_things (ends ++ record_boundary_vertices bdry))))
      (enumerate_dict line_strings).
Proof.
  intros Hne. destruct (record_segment_ends_ok line_strings 0 Hne) as (ends & Hends & Hfirst).
  exists ends. split; [done|].
  set (things := filter _ _).
  assert (line_ends things ≡ₚ seq 0 (length line_strings)) as Hle.
  { unfold things. rewrite line_ends_filter_last, first_ends_insert_artificial.
    unfold first_ends. rewrite sort_edge_things_perm, omap_app.
    fold (first_ends ends). fold (first_ends (record_boundary_vertices bdry)).
    by rewrite Hfirst, first_ends_vertices, app_nil_r. }
  unfold registry_ok. rewrite enumerate_dict_keys. setoid_rewrite Hle.
  split_and!.
  - apply NoDup_seq.
  - intros j Hj%elem_of_seq. lia.
  - apply NoDup_seq.
  - intros k l Hin%enumerate_dict_elem. split; [done|].
    apply elem_of_seq. apply lookup_lt_Some in Hin. lia.
Qed.

End Event_list.

(** C10.  For a pool of fragments that have coordinates and enough fuel
    (more than the number of fragments), the traversal finishes: it returns
    its closed paths, at most one per fragment and at least one when there
    is a fragment, and raises neither [IndexError] (the event list is never
    empty when it is searched) nor [RuntimeError].  On the way: the search
    finds an event in every non-empty list; a pass that does not raise
    removes exactly one event; the end of the origin line stays among the
    events as long as the path goes on; and [popitem] takes one fragment out
    of the registry for every path. *)
Theorem traversal_terminates `{Shapely} (self : Projection)
    (multi_line_strings : list (list line_string)) (ccw : bool) (fuel : nat) :
  Forall (λ ls, ls ≠ []) (concat multi_line_strings) →
  length (concat multi_line_strings) < fuel →
  (∃ paths,
     stitched_paths self fuel multi_line_strings ccw = Ok paths ∧
     length paths ≤ length (concat multi_line_strings) ∧
     (concat multi_line_strings ≠ [] → paths ≠ [])) ∧
  (∀ (a : list _BoundaryPoint) x,
     a ≠ [] → ∃ t, _find_first_ge a x = Some t ∧ t ∈ a) ∧
  (∀ bdry line_strings i w,
     match walk_pass bdry line_strings i w with
     | AddedBoundaryPoint w' | AddedLine _ w' | ClosedLoop w' =>
         S (length (edge_things w')) = length (edge_things w)
     | Raised _ => True
     end) ∧
  (∀ bdry line_strings i w,
     i ∈ line_ends (edge_things w) →
     match walk_pass bdry line_strings i w with
     | AddedBoundaryPoint w' | AddedLine _ w' => i ∈ line_ends (edge_things w')
     | ClosedLoop _ | Raised _ => True
     end) ∧
  (∀ (d d' : list (nat * line_string)) kv,
     popitem d = Some (kv, d') → length d = S (length d')).
Proof.
  intros Hne Hfuel. split_and!.
  - unfold stitched_paths.
    destruct (initial_registry_ok (oriented_boundary self ccw)
                (concat multi_line_strings) Hne) as (ends & -> & Hreg).
    simpl.
    destruct (process_lines_ok (oriented_boundary self ccw)
                (concat multi_line_strings) Hne fuel _ _ [] Hreg)
      as (paths & Hrun & Hlen & Hsome).
    { unfold enumerate_dict. by rewrite length_imap. }
    exists paths. rewrite Hrun. split; [done|].
    unfold enumerate_dict in Hlen, Hsome. rewrite length_imap in Hlen.
    split; [done|]. intros Hpool. apply Hsome.
    destruct (concat multi_line_strings); done.
  - apply find_first_ge_in.
  - apply walk_pass_removes_one.
  - intros bdry line_strings i w. apply walk_pass_keeps_origin.
  - intros d d' kv ->%popitem_Some. rewrite length_app. simpl. lia.
Qed.

Section Across_the_square.

#[local] Existing Instance Rect.shapely.

(** Two fragments across the square domain: the path that starts from the
    second one takes up the first and closes. *)
Example across_is_one_ring :
  _attach_lines_to_boundary Rect.domain 3 [Rect.across] false =
    Ok [[Rect.pt 10 5; Rect.pt 5 4; Rect.pt 0 5;
         Rect.pt 0 5; Rect.pt 5 5; Rect.pt 10 5]].
Proof. vm_compute. reflexivity. Qed.

Lemma traversal_terminates_witness :
  (∃ paths,
     stitched_paths Rect.domain 3 [Rect.across] false = Ok paths ∧
     length paths ≤ length (concat [Rect.across]) ∧
     (concat [Rect.across] ≠ [] → paths ≠ [])) ∧
  (∀ (a : list _BoundaryPoint) x,
     a ≠ [] → ∃ t, _find_first_ge a x = Some t ∧ t ∈ a) ∧
  (∀ bdry line_strings i w,
     match walk_pass bdry line_strings i w with
     | AddedBoundaryPoint w' | AddedLine _ w' | ClosedLoop w' =>
         S (length (edge_things w')) = length (edge_things w)
     | Raised _ => True
     end) ∧
  (∀ bdry line_strings i w,
     i ∈ line_ends (edge_things w) →
     match walk_pass bdry line_strings i w with
     | AddedBoundaryPoint w' | AddedLine _ w' => i ∈ line_ends (edge_things w')
     | ClosedLoop _ | Raised _ => True
     end) ∧
  (∀ (d d' : list (nat * line_string)) kv,
     popitem d = Some (kv, d') → length d = S (length d')).
Proof.
  apply (traversal_terminates Rect.domain [Rect.across] false 3).
  - repeat constructor; done.
  - simpl. lia.
Defined.

End Across_the_square.

(** * Properties of the projection classes *)

(** ** Arithmetic on canonical rationals

    Order and equality on [Qc] are those of the underlying fractions, so
    linear goals are decided there. *)

Lemma Qc_le_Q (x y : Qc) : (x ≤ y)%Qc ↔ (this x <= this y)%Q.
Proof. reflexivity. Qed.

Lemma Qc_lt_Q (x y : Qc) : (x < y)%Qc ↔ (this x < this y)%Q.
Proof. reflexivity. Qed.

Lemma Qc_eq_Q (x y : Qc) : x = y ↔ (this x == this y)%Q.
Proof. split; [by intros -> | apply Qc_is_canon]. Qed.

Lemma this_plus (x y : Qc) : (this (x + y)%Qc == this x + this y)%Q.
Proof. unfold Qcplus, Q2Qc. simpl. apply Qred_correct. Qed.

Lemma this_mult (x y : Qc) : (this (x * y)%Qc == this x * this y)%Q.
Proof. unfold Qcmult, Q2Qc. simpl. apply Qred_correct. Qed.

Lemma this_opp (x : Qc) : (this (- x)%Qc == - this x)%Q.
Proof. unfold Qcopp, Q2Qc. simpl. apply Qred_correct. Qed.

Lemma this_minus (x y : Qc) : (this (x - y)%Qc == this x - this y)%Q.
Proof. unfold Qcminus. rewrite this_plus, this_opp. reflexivity. Qed.

Lemma this_Q2Qc (q : Q) : (this (Q2Qc q) == q)%Q.
Proof. simpl. apply Qred_correct. Qed.

Lemma this_inv (x : Qc) : (this (/ x)%Qc == / this x)%Q.
Proof. unfold Qcinv, Q2Qc. simpl. apply Qred_correct. Qed.

Lemma this_div (x y : Qc) : (this (x / y)%Qc == this x / this y)%Q.
Proof. unfold Qcdiv. rewrite this_mult, this_inv. reflexivity. Qed.

Ltac qc_to_q :=
  unfold int, epsilon, decimal in *;
  repeat match goal with
  | |- context [Pos.of_nat ?n] =>
      let v := eval vm_compute in (Pos.of_nat n) in change (Pos.of_nat n) with v
  | H : context [Pos.of_nat ?n] |- _ =>
      let v := eval vm_compute in (Pos.of_nat n) in change (Pos.of_nat n) with v in H
  end;
  repeat match goal with
  | H : (_ ≤ _)%Qc |- _ => rewrite Qc_le_Q in H
  | H : (_ < _)%Qc |- _ => rewrite Qc_lt_Q in H
  | H : ¬ (_ ≤ _)%Qc |- _ => rewrite Qc_le_Q in H
  | H : ¬ (_ < _)%Qc |- _ => rewrite Qc_lt_Q in H
  | H : @eq Qc _ _ |- _ => rewrite Qc_eq_Q in H
  | H : ¬ @eq Qc _ _ |- _ => rewrite Qc_eq_Q in H
  | |- (_ ≤ _)%Qc => rewrite Qc_le_Q
  | |- (_ < _)%Qc => rewrite Qc_lt_Q
  | |- ¬ (_ ≤ _)%Qc => rewrite Qc_le_Q
  | |- ¬ (_ < _)%Qc => rewrite Qc_lt_Q
  | |- @eq Qc _ _ => rewrite Qc_eq_Q
  | |- ¬ @eq Qc _ _ => rewrite Qc_eq_Q
  end;
  repeat first
    [ rewrite this_plus in * | rewrite this_minus in * | rewrite this_mult in *
    | rewrite this_opp in * | rewrite this_div in * | rewrite this_Q2Qc in * ];
  unfold inject_Z in *.

Ltac qc_lra := qc_to_q; lra.

(** ** [_determine_longitude_bounds] *)

(** X1. The longitude bounds of a central longitude [cl] lie in
    [[cl - 180, cl + 180]] and have [cl] strictly between them; they span
    the full 360 degrees exactly when [cl = 0], and 360 - 1e-10 otherwise:
    the end on the side of the sign of [cl] is pulled in by epsilon. *)
Theorem longitude_bounds_span (central_longitude : Qc) :
  let minlon := (_determine_longitude_bounds central_longitude).1 in
  let maxlon := (_determine_longitude_bounds central_longitude).2 in
  (central_longitude - int 180 ≤ minlon)%Qc ∧ (minlon < central_longitude)%Qc ∧
  (central_longitude < maxlon)%Qc ∧ (maxlon ≤ central_longitude + int 180)%Qc ∧
  (central_longitude = 0%Qc → (maxlon - minlon)%Qc = int 360) ∧
  (central_longitude ≠ 0%Qc → (maxlon - minlon)%Qc = (int 360 - epsilon)%Qc) ∧
  ((0 < central_longitude)%Qc → minlon = (central_longitude - int 180)%Qc) ∧
  ((central_longitude < 0)%Qc → maxlon = (central_longitude + int 180)%Qc).
Proof.
  unfold _determine_longitude_bounds.
  destruct (decide (0 < central_longitude)%Qc) as [Hpos|Hpos];
    [|destruct (decide (central_longitude < 0)%Qc) as [Hneg|Hneg]];
    cbn [fst snd]; split_and!;
    repeat lazymatch goal with |- _ → _ => intros ? end; qc_lra.
Qed.

(** ** Columns of an array *)

Lemma Qc_min_le_iff (l x y : Qc) : (l ≤ Qc_min x y)%Qc ↔ (l ≤ x)%Qc ∧ (l ≤ y)%Qc.
Proof. unfold Qc_min. destruct (decide (x ≤ y)%Qc); split; intros; destruct_and?; split_and?; qc_lra. Qed.

Lemma Qc_max_le_iff (u x y : Qc) : (Qc_max x y ≤ u)%Qc ↔ (x ≤ u)%Qc ∧ (y ≤ u)%Qc.
Proof. unfold Qc_max. destruct (decide (x ≤ y)%Qc); split; intros; destruct_and?; split_and?; qc_lra. Qed.

Lemma foldl_Qc_min_le_iff (l x : Qc) (a : list Qc) :
  (l ≤ foldl Qc_min x a)%Qc ↔ Forall (λ y, l ≤ y)%Qc (x :: a).
Proof.
  revert x. induction a as [|y a IH]; intros x; cbn [foldl].
  - rewrite Forall_singleton. done.
  - rewrite IH, !Forall_cons, Qc_min_le_iff. tauto.
Qed.

Lemma foldl_Qc_max_le_iff (u x : Qc) (a : list Qc) :
  (foldl Qc_max x a ≤ u)%Qc ↔ Forall (λ y, y ≤ u)%Qc (x :: a).
Proof.
  revert x. induction a as [|y a IH]; intros x; cbn [foldl].
  - rewrite Forall_singleton. done.
  - rewrite IH, !Forall_cons, Qc_max_le_iff. tauto.
Qed.

Lemma foldl_Qc_min_elem (x : Qc) (a : list Qc) : foldl Qc_min x a ∈ x :: a.
Proof.
  revert x. induction a as [|y a IH]; intros x; cbn [foldl]; [set_solver|].
  specialize (IH (Qc_min x y)). unfold Qc_min in *.
  destruct (decide (x ≤ y)%Qc); rewrite !elem_of_cons in *; tauto.
Qed.

Lemma foldl_Qc_max_elem (x : Qc) (a : list Qc) : foldl Qc_max x a ∈ x :: a.
Proof.
  revert x. induction a as [|y a IH]; intros x; cbn [foldl]; [set_solver|].
  specialize (IH (Qc_max x y)). unfold Qc_max in *.
  destruct (decide (x ≤ y)%Qc); rewrite !elem_of_cons in *; tauto.
Qed.

Lemma array_min_Ok (a : list Qc) : a ≠ [] → ∃ m, array_min a = Ok m ∧ m ∈ a ∧
  ∀ l, (l ≤ m)%Qc ↔ Forall (λ y, l ≤ y)%Qc a.
Proof.
  destruct a as [|x a]; [done|]. intros _. eexists. split; [done|].
  split; [apply foldl_Qc_min_elem|]. intros l. apply foldl_Qc_min_le_iff.
Qed.

Lemma array_max_Ok (a : list Qc) : a ≠ [] → ∃ m, array_max a = Ok m ∧ m ∈ a ∧
  ∀ u, (m ≤ u)%Qc ↔ Forall (λ y, y ≤ u)%Qc a.
Proof.
  destruct a as [|x a]; [done|]. intros _. eexists. split; [done|].
  split; [apply foldl_Qc_max_elem|]. intros u. apply foldl_Qc_max_le_iff.
Qed.

Lemma fmap_not_nil {A B} (f : A → B) (l : list A) : l ≠ [] → f <$> l ≠ [].
Proof. by destruct l. Qed.

(** ** [Projection.quick_vertices_transform] *)

(** X2. The quick transform of the base class never changes a vertex: for a
    source CRS other than the target it returns [None]; for the same CRS it
    returns the array it was given when every vertex lies inside the limits
    widened by 1e-10, [None] when some vertex lies outside, and raises
    [ValueError] (from [min] of an empty column) when the array is empty. *)
Theorem quick_vertices_transform_same_crs `{ProjectionMembers T} (self : T)
    (vertices : list coord) (self_eq_src : bool) :
  (self_eq_src = false → quick_vertices_transform self vertices self_eq_src = Ok None) ∧
  (self_eq_src = true → vertices = [] →
     quick_vertices_transform self vertices self_eq_src = Raise ValueError) ∧
  (self_eq_src = true → vertices ≠ [] → Forall (inside_widened_limits self) vertices →
     quick_vertices_transform self vertices self_eq_src = Ok (Some vertices)) ∧
  (self_eq_src = true → vertices ≠ [] → ¬ Forall (inside_widened_limits self) vertices →
     quick_vertices_transform self vertices self_eq_src = Ok None).
Proof.
  split_and!. all: intros ->. 1: done. 1: by intros ->. all: intros Hne Hin;
    unfold quick_vertices_transform, inside_widened_limits in *;
    destruct (array_min_Ok (vertices.*1)) as (xmin & -> & _ & Hxmin); [by apply fmap_not_nil|];
    destruct (array_max_Ok (vertices.*1)) as (xmax & -> & _ & Hxmax); [by apply fmap_not_nil|];
    destruct (array_min_Ok (vertices.*2)) as (ymin & -> & _ & Hymin); [by apply fmap_not_nil|];
    destruct (array_max_Ok (vertices.*2)) as (ymax & -> & _ & Hymax); [by apply fmap_not_nil|];
    cbn [mbind outcome_bind fst snd];
    repeat case_bool_decide; cbn [negb]; try done; exfalso;
    repeat match goal with
    | H : context [(_ ≤ xmin)%Qc] |- _ => rewrite Hxmin, Forall_fmap in H
    | H : context [(xmax ≤ _)%Qc] |- _ => rewrite Hxmax, Forall_fmap in H
    | H : context [(_ ≤ ymin)%Qc] |- _ => rewrite Hymin, Forall_fmap in H
    | H : context [(ymax ≤ _)%Qc] |- _ => rewrite Hymax, Forall_fmap in H
    end.
  all: try rewrite !Forall_and in Hin; unfold compose in *; cbv beta in *; try tauto.
  all: apply Hin; rewrite !Forall_and; tauto.
Qed.

(** ** Rectangular projections *)

Lemma LinearRing_of_closed (cs : list coord) : last cs = head cs → LinearRing cs = cs.
Proof.
  destruct cs as [|c0 cs]; [done|]. intros E. unfold LinearRing.
  by rewrite decide_True.
Qed.

Lemma LinearRing_idempotent (cs : list coord) : LinearRing (LinearRing cs) = LinearRing cs.
Proof. apply LinearRing_of_closed. symmetry. apply LinearRing_closed. Qed.

Section Rectangular.

Context `{Shapely}.
Variable self : _RectangularProjection.t.

Lemma rectangular_boundary_unfold :
  _RectangularProjection.boundary self =
    let w := _RectangularProjection._half_width self in
    let h := _RectangularProjection._half_height self in
    [((- w)%Qc, (- h)%Qc); ((- w)%Qc, h); (w, h); (w, (- h)%Qc); ((- w)%Qc, (- h)%Qc)].
Proof. unfold _RectangularProjection.boundary. cbn zeta. by apply LinearRing_of_closed. Qed.

(** X3. The boundary of a rectangular projection with half-width [w >= 0]
    and half-height [h >= 0] is a closed ring of five coordinates that
    starts at the lower left corner; every coordinate lies inside
    [x_limits] x [y_limits], so the projection's own quick transform
    returns the boundary's coordinates unchanged.  In the pipeline
    [cw_boundary] is that ring and [ccw_boundary] its reverse. *)
Theorem rectangular_boundary_within_limits
    (geodetic : crs) (transform : Qc → Qc → crs → coord)
    (clip : list coord → crs → list line_string) :
  (0 ≤ _RectangularProjection._half_width self)%Qc →
  (0 ≤ _RectangularProjection._half_height self)%Qc →
  let ring := _RectangularProjection.boundary self in
  let x_lim := _RectangularProjection.x_limits self in
  let y_lim := _RectangularProjection.y_limits self in
  let crs := _RectangularProjection.projection self geodetic transform clip in
  length ring = 5 ∧ head ring = Some (x_lim.1, y_lim.1) ∧ last ring = head ring ∧
  ring !! 2 = Some (x_lim.2, y_lim.2) ∧
  Forall (λ v, (x_lim.1 ≤ v.1)%Qc ∧ (v.1 ≤ x_lim.2)%Qc ∧
               (y_lim.1 ≤ v.2)%Qc ∧ (v.2 ≤ y_lim.2)%Qc) ring ∧
  quick_vertices_transform self ring true = Ok (Some ring) ∧
  cw_boundary crs = ring ∧ ccw_boundary crs = rev ring.
Proof.
  intros Hw Hh ring x_lim y_lim crs0.
  assert (Hin : Forall (λ v, (x_lim.1 ≤ v.1)%Qc ∧ (v.1 ≤ x_lim.2)%Qc ∧
               (y_lim.1 ≤ v.2)%Qc ∧ (v.2 ≤ y_lim.2)%Qc) ring).
  { subst ring x_lim y_lim. rewrite rectangular_boundary_unfold.
    unfold _RectangularProjection.x_limits, _RectangularProjection.y_limits.
    cbn zeta. repeat constructor; cbn [fst snd]; qc_lra. }
  split_and!.
  - subst ring. by rewrite rectangular_boundary_unfold.
  - subst ring. by rewrite rectangular_boundary_unfold.
  - subst ring. by rewrite rectangular_boundary_unfold.
  - subst ring. by rewrite rectangular_boundary_unfold.
  - done.
  - apply quick_vertices_transform_same_crs; [done|..].
    + subst ring. by rewrite rectangular_boundary_unfold.
    + eapply Forall_impl; [exact Hin|]. intros v (?&?&?&?).
      unfold inside_widened_limits. cbn [get_x_limits get_y_limits _RectangularProjection.members].
      fold x_lim y_lim. split_and!; qc_lra.
  - unfold cw_boundary. cbn [boundary _RectangularProjection.projection].
    apply LinearRing_idempotent.
  - subst crs0. unfold ccw_boundary. cbn [boundary _RectangularProjection.projection].
    subst ring. rewrite rectangular_boundary_unfold. cbn zeta. cbn [rev app].
    by apply LinearRing_of_closed.
Qed.

End Rectangular.

Lemma rectangular_boundary_within_limits_witness :
  let self := _RectangularProjection.new (int 180) (int 90) in
  let ring := _RectangularProjection.boundary self in
  let x_lim := _RectangularProjection.x_limits self in
  let y_lim := _RectangularProjection.y_limits self in
  let crs := _RectangularProjection.projection (H := Rect.shapely) self true
               (λ x y _, (x, y)) (λ cs _, [cs]) in
  length ring = 5 ∧ head ring = Some (x_lim.1, y_lim.1) ∧ last ring = head ring ∧
  ring !! 2 = Some (x_lim.2, y_lim.2) ∧
  Forall (λ v, (x_lim.1 ≤ v.1)%Qc ∧ (v.1 ≤ x_lim.2)%Qc ∧
               (y_lim.1 ≤ v.2)%Qc ∧ (v.2 ≤ y_lim.2)%Qc) ring ∧
  quick_vertices_transform self ring true = Ok (Some ring) ∧
  cw_boundary crs = ring ∧ ccw_boundary crs = rev ring.
Proof.
  apply (rectangular_boundary_within_limits (H := Rect.shapely)
           (_RectangularProjection.new (int 180) (int 90)) true
           (λ x y _, (x, y)) (λ cs _, [cs])); by vm_compute.
Defined.

(** X4. For a rectangular projection with half-width [w >= 0] and
    half-height [h >= 0] the tolerance with which [_project_linear_ring]
    fuses fragments is [max(w, h) * 1e-5]. *)
Theorem rectangular_fusion_threshold `{Shapely} (self : _RectangularProjection.t)
    (geodetic : crs) (transform : Qc → Qc → crs → coord)
    (clip : list coord → crs → list line_string) :
  (0 ≤ _RectangularProjection._half_width self)%Qc →
  (0 ≤ _RectangularProjection._half_height self)%Qc →
  threshold (_RectangularProjection.projection self geodetic transform clip) =
    (Qc_max (_RectangularProjection._half_width self)
            (_RectangularProjection._half_height self) * Q2Qc (1 # 100000))%Qc.
Proof.
  intros Hw Hh. unfold threshold.
  cbn [x_limits y_limits _RectangularProjection.projection
       _RectangularProjection.x_limits _RectangularProjection.y_limits fst snd].
  rewrite !Qcabs_opp, !Qcabs_pos by done.
  f_equal. unfold Qc_max. repeat case_decide; try done; qc_lra.
Qed.

Lemma rectangular_fusion_threshold_witness :
  threshold (_RectangularProjection.projection (H := Rect.shapely)
               (_RectangularProjection.new (int 180) (int 90)) true
               (λ x y _, (x, y)) (λ cs _, [cs])) =
    (Qc_max (int 180) (int 90) * Q2Qc (1 # 100000))%Qc.
Proof.
  apply (rectangular_fusion_threshold (H := Rect.shapely)
           (_RectangularProjection.new (int 180) (int 90)) true
           (λ x y _, (x, y)) (λ cs _, [cs])); by vm_compute.
Defined.

(** ** [PlateCarree] *)

Lemma sorted2_spec (a b : Qc) :
  ((PlateCarree.sorted2 a b).1 ≤ (PlateCarree.sorted2 a b).2)%Qc ∧
  ((PlateCarree.sorted2 a b = (a, b)) ∨ (PlateCarree.sorted2 a b = (b, a))).
Proof.
  unfold PlateCarree.sorted2. case_decide; cbn [fst snd]; split; auto; qc_lra.
Qed.

Lemma bbox_and_offset_shape (self other : PlateCarree.t) :
  ∃ a b,
    PlateCarree._bbox_and_offset self other =
      ([(a, b); (b, (a + diff (PlateCarree.x_limits self))%Qc)],
       (PlateCarree.lon_0 other - PlateCarree.lon_0 self)%Qc) ∧
    (a ≤ b)%Qc ∧
    let lower := ((PlateCarree.x_limits other).1 +
                  (PlateCarree.lon_0 other - PlateCarree.lon_0 self))%Qc in
    let wrapped := if decide (lower < (PlateCarree.x_limits self).1)%Qc
                   then (lower + diff (PlateCarree.x_limits self))%Qc else lower in
    ((a, b) = ((PlateCarree.x_limits self).1, wrapped) ∨
     (a, b) = (wrapped, (PlateCarree.x_limits self).1)).
Proof.
  unfold PlateCarree._bbox_and_offset. cbn zeta.
  set (lower := ((PlateCarree.x_limits other).1 +
                 (PlateCarree.lon_0 other - PlateCarree.lon_0 self))%Qc).
  set (wrapped := if decide (lower < (PlateCarree.x_limits self).1)%Qc
                  then (lower + diff (PlateCarree.x_limits self))%Qc else lower).
  destruct (sorted2_spec (PlateCarree.x_limits self).1 wrapped) as [Hle [E|E]];
    rewrite E in Hle |- *; cbn [fst snd] in Hle; eauto 10.
Qed.

Lemma bbox_and_offset_same_width (self other : PlateCarree.t) :
  let w := _RectangularProjection._half_width (PlateCarree.rectangular self) in
  let offset := (PlateCarree.lon_0 other - PlateCarree.lon_0 self)%Qc in
  let seam := if decide (offset < 0)%Qc then (w + offset)%Qc else (- w + offset)%Qc in
  _RectangularProjection._half_width (PlateCarree.rectangular other) = w →
  (0 ≤ w)%Qc → (- (w + w) ≤ offset)%Qc → (offset ≤ w + w)%Qc →
  PlateCarree._bbox_and_offset self other = ([((- w)%Qc, seam); (seam, w)], offset) ∧
  (- w ≤ seam)%Qc ∧ (seam ≤ w)%Qc.
Proof.
  intros w offset seam Hother Hw Hlo Hhi.
  destruct (bbox_and_offset_shape self other) as (a & b & -> & Hab & Hcases).
  cbn zeta in Hcases. fold offset in Hcases |- *.
  unfold PlateCarree.x_limits, _RectangularProjection.x_limits, diff in *.
  cbn [fst snd] in *. rewrite Hother in Hcases. fold w in Hcases, Hab |- *.
  assert (Hseam : (- w ≤ seam)%Qc ∧ (seam ≤ w)%Qc).
  { subst seam. clear Hcases. destruct (decide (offset < 0)%Qc); split; qc_lra. }
  split; [|done]. destruct Hseam as [Hs1 Hs2].
  assert (Hw2 : (- w + (w - - w))%Qc = w) by qc_lra.
  subst seam. destruct (decide (offset < 0)%Qc) as [Hneg|Hneg].
  - destruct (decide (- w + offset < - w)%Qc) as [_|Hn]; [|exfalso; apply Hn; qc_lra].
    assert ((- w + offset + (w - - w))%Qc = (w + offset)%Qc) as Hwrap by qc_lra.
    rewrite Hwrap in Hcases.
    destruct Hcases as [E|E]; injection E as -> ->.
    + by rewrite Hw2.
    + assert (w + offset = - w)%Qc as Heq by (apply Qcle_antisym; [|done]; qc_lra).
      rewrite Heq, Hw2. assert ((- w + (w - - w))%Qc = w) as Hw3 by qc_lra.
      by rewrite ?Hw3.
  - destruct (decide (- w + offset < - w)%Qc) as [Hn|_]; [exfalso; qc_lra|].
    destruct Hcases as [E|E]; injection E as -> ->.
    + by rewrite Hw2.
    + assert ((- w + offset)%Qc = (- w)%Qc) as Heq by (apply Qcle_antisym; [done|qc_lra]).
      rewrite Heq. by rewrite Hw2.
Qed.

(** X5. Between two [PlateCarree] systems of the same half-width [w >= 0]
    whose central longitudes differ by at most a full turn [2 w],
    [_bbox_and_offset] returns the offset of the central longitudes and two
    intervals [[-w, seam]] and [[seam, w]] that meet at the seam and cover
    the target's range exactly once; the seam is [-w + offset] for a
    non-negative offset and [w + offset] for a negative one. *)
Theorem bbox_and_offset_partitions_the_range (self other : PlateCarree.t) :
  let w := _RectangularProjection._half_width (PlateCarree.rectangular self) in
  let offset := (PlateCarree.lon_0 other - PlateCarree.lon_0 self)%Qc in
  let seam := if decide (offset < 0)%Qc then (w + offset)%Qc else (- w + offset)%Qc in
  _RectangularProjection._half_width (PlateCarree.rectangular other) = w →
  (0 ≤ w)%Qc → (- (w + w) ≤ offset)%Qc → (offset ≤ w + w)%Qc →
  PlateCarree._bbox_and_offset self other = ([((- w)%Qc, seam); (seam, w)], offset) ∧
  (- w ≤ seam)%Qc ∧ (seam ≤ w)%Qc.
Proof. apply bbox_and_offset_same_width. Qed.


(** The docstring's example: a source centred on longitude 10. *)
Lemma bbox_and_offset_partitions_the_range_witness :
  let self := PlateCarree.__init__ (int 0) (int 1) ∅ in
  let other := PlateCarree.__init__ (int 10) (int 1) ∅ in
  PlateCarree._bbox_and_offset self other =
    ([(int (-180), int (-170)); (int (-170), int 180)], int 10).
Proof.
  pose proof (bbox_and_offset_partitions_the_range
                (PlateCarree.__init__ (int 0) (int 1) ∅)
                (PlateCarree.__init__ (int 10) (int 1) ∅)) as Hthm.
  cbn zeta in Hthm. destruct Hthm as [Hthm _]; [by vm_compute..|].
  etrans; [exact Hthm|]. by vm_compute.
Defined.

Lemma Ok_inj {A} (x y : A) : Ok x = Ok y → x = y.
Proof. congruence. Qed.

(** A window [(poly, i)] fits the column range [x_lim]. *)
Lemma try_moduli_Some (vertices : list coord) (poly x_lim : Qc * Qc) (mod_ proj_offset : Qc)
    (moduli : list Z) (out : list coord) :
  PlateCarree.try_moduli vertices poly x_lim mod_ proj_offset moduli = Some out →
  ∃ i, i ∈ moduli ∧
    (poly.1 + (mod_ * int i - proj_offset) ≤ x_lim.1)%Qc ∧
    (x_lim.2 ≤ poly.2 + (mod_ * int i - proj_offset))%Qc ∧
    out = PlateCarree.shifted vertices (mod_ * int i - proj_offset)%Qc.
Proof.
  induction moduli as [|i moduli IH]; [done|]. cbn [PlateCarree.try_moduli]. cbn zeta.
  destruct (bool_decide _ && bool_decide _) eqn:E.
  - intros [= <-]. apply andb_true_iff in E as [E1 E2].
    apply bool_decide_eq_true in E1, E2. exists i. split; [left|done].
  - intros (j & Hj & Hrest)%IH. exists j. split; [by right|done].
Qed.

Lemma try_moduli_None (vertices : list coord) (poly x_lim : Qc * Qc) (mod_ proj_offset : Qc)
    (moduli : list Z) :
  PlateCarree.try_moduli vertices poly x_lim mod_ proj_offset moduli = None ↔
  ∀ i, i ∈ moduli →
    ¬ ((poly.1 + (mod_ * int i - proj_offset) ≤ x_lim.1)%Qc ∧
       (x_lim.2 ≤ poly.2 + (mod_ * int i - proj_offset))%Qc).
Proof.
  induction moduli as [|i moduli IH]; cbn [PlateCarree.try_moduli]; cbn zeta.
  - split; [|done]. intros _ i Hi. by apply elem_of_nil in Hi.
  - destruct (bool_decide _ && bool_decide _) eqn:E.
    + split; [done|]. intros Hall. exfalso. apply (Hall i); [left|].
      apply andb_true_iff in E as [E1 E2]. by apply bool_decide_eq_true in E1, E2.
    + rewrite IH. split.
      * intros Hall j [->|Hj]%elem_of_cons; [|by apply Hall].
        intros [H1 H2]. apply andb_false_iff in E as [E|E];
          apply bool_decide_eq_false in E; by apply E.
      * intros Hall j Hj. apply Hall. by right.
Qed.

Lemma try_bboxes_Some (vertices : list coord) (bboxes : list (Qc * Qc)) (x_lim : Qc * Qc)
    (mod_ proj_offset : Qc) (out : list coord) :
  PlateCarree.try_bboxes vertices bboxes x_lim mod_ proj_offset = Some out →
  ∃ poly i, poly ∈ bboxes ∧ i ∈ [-1; 0; 1; 2]%Z ∧
    (poly.1 + (mod_ * int i - proj_offset) ≤ x_lim.1)%Qc ∧
    (x_lim.2 ≤ poly.2 + (mod_ * int i - proj_offset))%Qc ∧
    out = PlateCarree.shifted vertices (mod_ * int i - proj_offset)%Qc.
Proof.
  induction bboxes as [|poly bboxes IH]; [done|]. cbn [PlateCarree.try_bboxes].
  destruct (PlateCarree.try_moduli _ _ _ _ _ _) as [found|] eqn:E.
  - intros [= <-]. apply try_moduli_Some in E as (i & Hi & ?). exists poly, i.
    split; [left|done].
  - intros (p & i & Hp & Hrest)%IH. exists p, i. split; [by right|done].
Qed.

Lemma try_bboxes_None (vertices : list coord) (bboxes : list (Qc * Qc)) (x_lim : Qc * Qc)
    (mod_ proj_offset : Qc) :
  PlateCarree.try_bboxes vertices bboxes x_lim mod_ proj_offset = None ↔
  ∀ poly i, poly ∈ bboxes → i ∈ [-1; 0; 1; 2]%Z →
    ¬ ((poly.1 + (mod_ * int i - proj_offset) ≤ x_lim.1)%Qc ∧
       (x_lim.2 ≤ poly.2 + (mod_ * int i - proj_offset))%Qc).
Proof.
  induction bboxes as [|poly bboxes IH]; cbn [PlateCarree.try_bboxes].
  - split; [|done]. intros _ p i Hp. by apply elem_of_nil in Hp.
  - destruct (PlateCarree.try_moduli _ _ _ _ _ _) as [found|] eqn:E.
    + split; [done|]. intros Hall. exfalso.
      apply try_moduli_Some in E as (i & Hi & H1 & H2 & _).
      apply (Hall poly i); [left|done|done].
    + rewrite IH. rewrite try_moduli_None in E. split.
      * intros Hall p i [->|Hp]%elem_of_cons Hi; [by apply E|by apply Hall].
      * intros Hall p i Hp Hi. apply Hall; [by right|done].
Qed.

Lemma potential_true (self src_crs : PlateCarree.t) (ys : list Qc) :
  PlateCarree.potential self src_crs ys = Ok true →
  PlateCarree.other_params self = PlateCarree.other_params src_crs ∧ ys ≠ [] ∧
  Forall (λ y, ((PlateCarree.y_limits self).1 ≤ y)%Qc ∧ (y ≤ (PlateCarree.y_limits self).2)%Qc) ys.
Proof.
  unfold PlateCarree.potential. case_bool_decide as Hparams; cbn [negb]; [|done].
  destruct ys as [|y ys]; [done|].
  destruct (array_min_Ok (y :: ys)) as (ymin & -> & _ & Hymin); [done|].
  destruct (array_max_Ok (y :: ys)) as (ymax & -> & _ & Hymax); [done|].
  cbn [mbind outcome_bind]. case_bool_decide as Hlo; cbn [negb]; [|done].
  intros [= Hhi]. apply bool_decide_eq_true in Hhi.
  rewrite Hymin in Hlo. rewrite Hymax in Hhi.
  split; [done|]. split; [done|]. by apply Forall_and.
Qed.

(** What a successful call returns: the input, or a shift of it. *)
Lemma quick_transform_cases (self : PlateCarree.t) (vertices : list coord)
    (src : PlateCarree.source) (self_eq_src : bool) (out : list coord) :
  PlateCarree.quick_vertices_transform self vertices src self_eq_src = Ok (Some out) →
  (self_eq_src = true ∧ out = vertices ∧ Forall (inside_widened_limits self) vertices) ∨
  (∃ src_crs poly i,
     src = PlateCarree.IsPlateCarree src_crs ∧
     PlateCarree.other_params self = PlateCarree.other_params src_crs ∧
     poly ∈ (PlateCarree._bbox_and_offset self src_crs).1 ∧
     i ∈ [-1; 0; 1; 2]%Z ∧
     out = (λ v : coord,
              ((v.1 + (PlateCarree.lon_0 src_crs - PlateCarree.lon_0 self)
                - diff (PlateCarree.x_limits src_crs) * int i)%Qc, v.2)) <$> vertices ∧
     Forall (λ v, (poly.1 ≤ v.1)%Qc ∧ (v.1 ≤ poly.2)%Qc ∧
                  ((PlateCarree.y_limits self).1 ≤ v.2)%Qc ∧
                  (v.2 ≤ (PlateCarree.y_limits self).2)%Qc) out).
Proof.
  unfold PlateCarree.quick_vertices_transform, PlateCarree.super_quick_vertices_transform.
  pose proof (quick_vertices_transform_same_crs self vertices self_eq_src)
    as (Hdiff & Hempty & Hin & Hout).
  destruct (quick_vertices_transform self vertices self_eq_src) as [[kept|]|e|] eqn:Ebase;
    cbn [mbind outcome_bind]; try done.
  - (* the base class returned the array *)
    intros Hret. left.
    assert (Ok (Some kept) = Ok (Some out)) as [= ->] by (by destruct src).
    destruct self_eq_src; [|by specialize (Hdiff eq_refl)].
    destruct (decide (vertices = [])) as [->|Hne]; [by specialize (Hempty eq_refl eq_refl)|].
    destruct (decide (Forall (inside_widened_limits self) vertices)) as [Hall|Hall].
    + specialize (Hin eq_refl Hne Hall). by injection Hin as ->.
    + by specialize (Hout eq_refl Hne Hall).
  - destruct src as [src_crs|]; [|done]. clear Hdiff Hempty Hin Hout Ebase.
    destruct (PlateCarree.potential self src_crs vertices.*2) as [[|]|e|] eqn:Epot;
      cbn [mbind outcome_bind]; try done.
    apply potential_true in Epot as (Hparams & Hne & Hys).
    destruct (bbox_and_offset_shape self src_crs) as (a & b & Ebox & _).
    rewrite Ebox. cbn [fst snd].
    assert (vertices ≠ []) as Hv by (intros ->; done).
    destruct (array_min_Ok (vertices.*1)) as (xmin & -> & _ & Hxmin); [by apply fmap_not_nil|].
    destruct (array_max_Ok (vertices.*1)) as (xmax & -> & _ & Hxmax); [by apply fmap_not_nil|].
    cbn [mbind outcome_bind]. intros Hfound%Ok_inj. right.
    apply try_bboxes_Some in Hfound as (poly & i & Hpoly & Hi & Hlo & Hhi & ->).
    cbn [fst snd] in Hlo, Hhi.
    exists src_crs, poly, i. split_and!; try done.
    + by rewrite Ebox.
    + unfold PlateCarree.shifted. apply list_fmap_ext. intros _ v _.
      f_equal; qc_lra.
    + unfold PlateCarree.shifted. rewrite Forall_fmap.
      pose proof (proj1 (Hxmin _) (Qcle_refl xmin)) as Hmin.
      pose proof (proj1 (Hxmax _) (Qcle_refl xmax)) as Hmax.
      rewrite Forall_fmap in Hmin, Hmax, Hys.
      rewrite Forall_forall in Hmin, Hmax, Hys |- *. intros v Hv'.
      specialize (Hmin v Hv'). specialize (Hmax v Hv'). specialize (Hys v Hv').
      unfold compose in *. cbn [fst snd] in *. destruct Hys as [Hy1 Hy2].
      split_and!; qc_lra.
Qed.

(** X6. Whatever [PlateCarree.quick_vertices_transform] returns is the
    array it was given (from the base class, when the systems are equal) or,
    for a [PlateCarree] source with the same parameters apart from [lon_0],
    a translation of it: every [y] is kept, every [x] becomes
    [x + (src lon_0 - self lon_0) - i * period] for one [i] among -1, 0, 1, 2
    and the source's period, and all translated vertices lie in one of the
    two intervals of [_bbox_and_offset] and inside the target's [y_limits]. *)
Theorem plate_carree_quick_transform_is_a_shift (self : PlateCarree.t)
    (vertices : list coord) (src : PlateCarree.source) (self_eq_src : bool)
    (out : list coord) :
  PlateCarree.quick_vertices_transform self vertices src self_eq_src = Ok (Some out) →
  (self_eq_src = true ∧ out = vertices ∧ Forall (inside_widened_limits self) vertices) ∨
  (∃ src_crs poly i,
     src = PlateCarree.IsPlateCarree src_crs ∧
     PlateCarree.other_params self = PlateCarree.other_params src_crs ∧
     poly ∈ (PlateCarree._bbox_and_offset self src_crs).1 ∧
     i ∈ [-1; 0; 1; 2]%Z ∧
     out = (λ v : coord,
              ((v.1 + (PlateCarree.lon_0 src_crs - PlateCarree.lon_0 self)
                - diff (PlateCarree.x_limits src_crs) * int i)%Qc, v.2)) <$> vertices ∧
     Forall (λ v, (poly.1 ≤ v.1)%Qc ∧ (v.1 ≤ poly.2)%Qc ∧
                  ((PlateCarree.y_limits self).1 ≤ v.2)%Qc ∧
                  (v.2 ≤ (PlateCarree.y_limits self).2)%Qc) out).
Proof. apply quick_transform_cases. Qed.

Lemma plate_carree_quick_transform_is_a_shift_witness :
  let self := PlateCarree.__init__ (int 0) (int 1) ∅ in
  let src_crs := PlateCarree.__init__ (int 10) (int 1) ∅ in
  let vertices := [(int 175, int 10); (int 178, int 20)] in
  let out := [(int (-175), int 10); (int (-172), int 20)] in
  PlateCarree.quick_vertices_transform self vertices (PlateCarree.IsPlateCarree src_crs) false
    = Ok (Some out) ∧
  ((false = true ∧ out = vertices ∧ Forall (inside_widened_limits self) vertices) ∨
   (∃ src_crs' poly i,
     PlateCarree.IsPlateCarree src_crs = PlateCarree.IsPlateCarree src_crs' ∧
     PlateCarree.other_params self = PlateCarree.other_params src_crs' ∧
     poly ∈ (PlateCarree._bbox_and_offset self src_crs').1 ∧
     i ∈ [-1; 0; 1; 2]%Z ∧
     out = (λ v : coord,
              ((v.1 + (PlateCarree.lon_0 src_crs' - PlateCarree.lon_0 self)
                - diff (PlateCarree.x_limits src_crs') * int i)%Qc, v.2)) <$> vertices ∧
     Forall (λ v, (poly.1 ≤ v.1)%Qc ∧ (v.1 ≤ poly.2)%Qc ∧
                  ((PlateCarree.y_limits self).1 ≤ v.2)%Qc ∧
                  (v.2 ≤ (PlateCarree.y_limits self).2)%Qc) out)).
Proof.
  cbn zeta. split; [by vm_compute|].
  apply (plate_carree_quick_transform_is_a_shift
           (PlateCarree.__init__ (int 0) (int 1) ∅)
           [(int 175, int 10); (int 178, int 20)]
           (PlateCarree.IsPlateCarree (PlateCarree.__init__ (int 10) (int 1) ∅)) false
           [(int (-175), int 10); (int (-172), int 20)]).
  by vm_compute.
Defined.

(** X7. Between two [PlateCarree] systems of the same half-width [w >= 0]
    whose central longitudes differ by at most [2 w], every array the quick
    transform returns has as many vertices as the input, the same [y]
    column, and all its vertices inside the target's limits (widened by
    1e-10): the quick path never produces a vertex outside the domain. *)
Theorem plate_carree_quick_transform_within_limits (self src_crs : PlateCarree.t)
    (vertices : list coord) (self_eq_src : bool) (out : list coord) :
  let w := _RectangularProjection._half_width (PlateCarree.rectangular self) in
  let offset := (PlateCarree.lon_0 src_crs - PlateCarree.lon_0 self)%Qc in
  _RectangularProjection._half_width (PlateCarree.rectangular src_crs) = w →
  (0 ≤ w)%Qc → (- (w + w) ≤ offset)%Qc → (offset ≤ w + w)%Qc →
  PlateCarree.quick_vertices_transform self vertices (PlateCarree.IsPlateCarree src_crs)
    self_eq_src = Ok (Some out) →
  length out = length vertices ∧ out.*2 = vertices.*2 ∧
  Forall (inside_widened_limits self) out.
Proof.
  intros w offset Hsame Hw Hlo Hhi Hret.
  destruct (bbox_and_offset_same_width self src_crs Hsame Hw Hlo Hhi) as (Hbox & Hs1 & Hs2).
  apply quick_transform_cases in Hret
    as [(_ & -> & Hin)|(src' & poly & i & [= <-] & _ & Hpoly & _ & -> & Hall)]; [done|].
  split; [by rewrite length_fmap|]. split.
  { rewrite <- !list_fmap_compose. by apply list_fmap_ext. }
  fold offset w in Hbox, Hs1, Hs2. rewrite Hbox in Hpoly. cbn [fst] in Hpoly.
  eapply Forall_impl; [exact Hall|]. intros v (Hx1 & Hx2 & Hy1 & Hy2).
  unfold inside_widened_limits.
  cbn [get_x_limits get_y_limits PlateCarree.members].
  unfold PlateCarree.x_limits, _RectangularProjection.x_limits. cbn [fst snd]. fold w.
  set (seam := if decide (offset < 0)%Qc then (w + offset)%Qc else (- w + offset)%Qc) in *.
  clearbody seam.
  apply elem_of_cons in Hpoly as [->|Hpoly]; [|apply list_elem_of_singleton in Hpoly as ->];
    cbn [fst snd] in *; split_and!; qc_lra.
Qed.

Lemma plate_carree_quick_transform_within_limits_witness :
  let self := PlateCarree.__init__ (int 0) (int 1) ∅ in
  let vertices := [(int 175, int 10); (int 178, int 20)] in
  let out := [(int (-175), int 10); (int (-172), int 20)] in
  length out = length vertices ∧ out.*2 = vertices.*2 ∧
  Forall (inside_widened_limits self) out.
Proof.
  apply (plate_carree_quick_transform_within_limits
           (PlateCarree.__init__ (int 0) (int 1) ∅)
           (PlateCarree.__init__ (int 10) (int 1) ∅)
           [(int 175, int 10); (int 178, int 20)] false
           [(int (-175), int 10); (int (-172), int 20)]); by vm_compute.
Defined.

Lemma potential_nonempty (self src_crs : PlateCarree.t) (ys : list Qc) :
  ys ≠ [] →
  PlateCarree.potential self src_crs ys =
    Ok (bool_decide (PlateCarree.other_params self = PlateCarree.other_params src_crs ∧
          Forall (λ y, ((PlateCarree.y_limits self).1 ≤ y)%Qc ∧
                       (y ≤ (PlateCarree.y_limits self).2)%Qc) ys)).
Proof.
  intros Hne. unfold PlateCarree.potential.
  destruct (array_min_Ok ys Hne) as (ymin & -> & _ & Hymin).
  destruct (array_max_Ok ys Hne) as (ymax & -> & _ & Hymax).
  cbn [mbind outcome_bind].
  repeat case_bool_decide; cbn [negb]; try done; exfalso;
    repeat match goal with
    | H : context [(_ ≤ ymin)%Qc] |- _ => rewrite Hymin in H
    | H : context [(ymax ≤ _)%Qc] |- _ => rewrite Hymax in H
    end;
    repeat match goal with
    | H : context [Forall (λ _, _ ∧ _) _] |- _ => rewrite Forall_and in H
    end; tauto.
Qed.

Lemma potential_empty (self src_crs : PlateCarree.t) :
  PlateCarree.potential self src_crs [] =
    if decide (PlateCarree.other_params self = PlateCarree.other_params src_crs)
    then Raise ValueError else Ok false.
Proof.
  unfold PlateCarree.potential. case_bool_decide; by case_decide.
Qed.

(** X8. [PlateCarree.quick_vertices_transform] returns for every non-empty
    array.  For an empty array it raises [ValueError] (the [min] of an
    empty column) when the two systems are equal, or when the source is a
    [PlateCarree] with the same parameters apart from [lon_0]; for any other
    source it returns [None]. *)
Theorem plate_carree_quick_transform_raises_on_empty (self : PlateCarree.t)
    (vertices : list coord) (src : PlateCarree.source) (self_eq_src : bool) :
  (vertices ≠ [] →
     ∃ r, PlateCarree.quick_vertices_transform self vertices src self_eq_src = Ok r) ∧
  (vertices = [] →
     PlateCarree.quick_vertices_transform self vertices src self_eq_src =
       if self_eq_src then Raise ValueError
       else match src with
            | PlateCarree.IsPlateCarree src_crs =>
                if decide (PlateCarree.other_params self = PlateCarree.other_params src_crs)
                then Raise ValueError else Ok None
            | PlateCarree.OtherCRS => Ok None
            end).
Proof.
  pose proof (quick_vertices_transform_same_crs self vertices self_eq_src)
    as (Hdiff & Hempty & Hin & Hout).
  unfold PlateCarree.quick_vertices_transform, PlateCarree.super_quick_vertices_transform.
  split.
  - intros Hne.
    assert (∃ r, quick_vertices_transform self vertices self_eq_src = Ok r) as [r ->].
    { destruct self_eq_src; [|by rewrite Hdiff; eauto].
      destruct (decide (Forall (inside_widened_limits self) vertices)).
      - rewrite Hin by done. eauto.
      - rewrite Hout by done. eauto. }
    cbn [mbind outcome_bind]. destruct r as [kept|]; [by destruct src; eauto|].
    destruct src as [src_crs|]; [|by eauto].
    rewrite potential_nonempty by (by apply fmap_not_nil). cbn [mbind outcome_bind].
    case_bool_decide; [|by eauto].
    destruct (PlateCarree._bbox_and_offset self src_crs) as [bboxes proj_offset].
    destruct (array_min_Ok (vertices.*1)) as (xmin & -> & _); [by apply fmap_not_nil|].
    destruct (array_max_Ok (vertices.*1)) as (xmax & -> & _); [by apply fmap_not_nil|].
    cbn [mbind outcome_bind]. eauto.
  - intros ->. destruct self_eq_src.
    + by rewrite Hempty.
    + rewrite Hdiff by done. cbn [mbind outcome_bind fmap list_fmap].
      destruct src as [src_crs|]; [|done].
      rewrite potential_empty. by case_decide.
Qed.

(** When the quick path of a shifted source is taken. *)
Lemma quick_transform_of_shifted_source (self src_crs : PlateCarree.t)
    (vertices : list coord) :
  let w := _RectangularProjection._half_width (PlateCarree.rectangular self) in
  let offset := (PlateCarree.lon_0 src_crs - PlateCarree.lon_0 self)%Qc in
  let edge := if decide (offset < 0)%Qc then (- w - offset)%Qc else (w - offset)%Qc in
  _RectangularProjection._half_width (PlateCarree.rectangular src_crs) = w →
  (0 ≤ w)%Qc → (- (w + w) ≤ offset)%Qc → (offset ≤ w + w)%Qc →
  PlateCarree.other_params self = PlateCarree.other_params src_crs →
  vertices ≠ [] →
  Forall (λ v, (- w ≤ v.1)%Qc ∧ (v.1 ≤ w)%Qc ∧
               ((PlateCarree.y_limits self).1 ≤ v.2)%Qc ∧
               (v.2 ≤ (PlateCarree.y_limits self).2)%Qc) vertices →
  ∃ r, PlateCarree.quick_vertices_transform self vertices
         (PlateCarree.IsPlateCarree src_crs) false = Ok r ∧
       (is_Some r ↔ Forall (λ v, (v.1 ≤ edge)%Qc) vertices ∨
                    Forall (λ v, (edge ≤ v.1)%Qc) vertices).
Proof.
  intros w offset edge Hsame Hw Hlo Hhi Hparams Hne Hin.
  destruct (bbox_and_offset_same_width self src_crs Hsame Hw Hlo Hhi) as (Hbox & Hs1 & Hs2).
  fold offset w in Hbox, Hs1, Hs2.
  unfold PlateCarree.quick_vertices_transform, PlateCarree.super_quick_vertices_transform.
  destruct (quick_vertices_transform_same_crs self vertices false) as (Hdiff & _).
  rewrite Hdiff by done. clear Hdiff.
  cbn [mbind outcome_bind].
  rewrite potential_nonempty by (by apply fmap_not_nil).
  rewrite !Forall_and in Hin. destruct Hin as (Hx1 & Hx2 & Hy1 & Hy2).
  rewrite bool_decide_eq_true_2; last first.
  { split; [done|]. rewrite Forall_and, !Forall_fmap. done. }
  cbn [mbind outcome_bind]. rewrite Hbox.
  destruct (array_min_Ok (vertices.*1)) as (xmin & -> & Hmin_in & Hxmin); [by apply fmap_not_nil|].
  destruct (array_max_Ok (vertices.*1)) as (xmax & -> & Hmax_in & Hxmax); [by apply fmap_not_nil|].
  cbn [mbind outcome_bind]. eexists. split; [done|].
  assert (Hedge : (Forall (λ v : coord, (v.1 ≤ edge)%Qc) vertices ∨
                   Forall (λ v : coord, (edge ≤ v.1)%Qc) vertices) ↔
                  ((xmax ≤ edge)%Qc ∨ (edge ≤ xmin)%Qc)).
  { rewrite Hxmax, Hxmin, !Forall_fmap. done. }
  rewrite Hedge. clear Hedge.
  assert (Hlow : (- w ≤ xmin)%Qc) by (rewrite Hxmin, Forall_fmap; done).
  assert (Hupp : (xmax ≤ w)%Qc) by (rewrite Hxmax, Forall_fmap; done).
  assert (Hmm : (xmin ≤ xmax)%Qc).
  { pose proof (proj1 (Hxmax xmax) (Qcle_refl _)) as Hall.
    rewrite Forall_forall in Hall. by apply Hall. }
  assert (Hmod : diff (PlateCarree.x_limits src_crs) = (w + w)%Qc).
  { unfold diff, PlateCarree.x_limits, _RectangularProjection.x_limits. cbn [fst snd].
    rewrite Hsame. qc_lra. }
  rewrite Hmod. clear Hmod Hbox Hxmin Hxmax Hmin_in Hmax_in Hx1 Hx2 Hy1 Hy2.
  set (seam := if decide (offset < 0)%Qc then (w + offset)%Qc else (- w + offset)%Qc) in *.
  destruct (PlateCarree.try_bboxes _ _ _ _ _) as [out|] eqn:Etry.
  - split; [intros _|by eauto].
    apply try_bboxes_Some in Etry as (poly & i & Hpoly & Hi & Hfit1 & Hfit2 & _).
    cbn [fst snd] in Hfit1, Hfit2.
    destruct (decide (xmax ≤ edge)%Qc) as [|Hnot]; [by left|right].
    subst seam edge. destruct (decide (offset < 0)%Qc);
      apply elem_of_cons in Hpoly as [->|Hpoly];
      [|apply list_elem_of_singleton in Hpoly as ->|
       |apply list_elem_of_singleton in Hpoly as ->];
      cbn [fst snd] in *;
      repeat (apply elem_of_cons in Hi as [->|Hi]); try (by apply elem_of_nil in Hi);
      qc_lra.
  - split; [by intros []|]. intros Hcond. exfalso.
    rewrite try_bboxes_None in Etry. cbn [fst snd] in Etry.
    subst seam edge. destruct (decide (offset < 0)%Qc), Hcond as [Hc|Hc].
    + apply (Etry (w + offset, w)%Qc (-1)%Z); [set_solver|set_solver|].
      cbn [fst snd]. split; qc_lra.
    + apply (Etry ((- w)%Qc, (w + offset)%Qc) 0%Z); [set_solver|set_solver|].
      cbn [fst snd]. split; qc_lra.
    + apply (Etry ((- w + offset)%Qc, w) 0%Z); [set_solver|set_solver|].
      cbn [fst snd]. split; qc_lra.
    + apply (Etry ((- w)%Qc, (- w + offset)%Qc) 1%Z); [set_solver|set_solver|].
      cbn [fst snd]. split; qc_lra.
Qed.

(** X9. Between two different [PlateCarree] systems with the same
    parameters apart from [lon_0], the same half-width [w >= 0] and central
    longitudes at most [2 w] apart, a non-empty array inside the source's
    limits is transformed quickly exactly when it does not straddle the
    target's edge: either every [x] is at most the edge or every [x] is at
    least the edge, where in source coordinates the edge is [w - offset]
    for a non-negative offset of the central longitudes and [- w - offset]
    for a negative one.  Otherwise the call returns [None]. *)
Theorem plate_carree_quick_transform_iff_no_wrap (self src_crs : PlateCarree.t)
    (vertices : list coord) :
  let w := _RectangularProjection._half_width (PlateCarree.rectangular self) in
  let offset := (PlateCarree.lon_0 src_crs - PlateCarree.lon_0 self)%Qc in
  let edge := if decide (offset < 0)%Qc then (- w - offset)%Qc else (w - offset)%Qc in
  _RectangularProjection._half_width (PlateCarree.rectangular src_crs) = w →
  (0 ≤ w)%Qc → (- (w + w) ≤ offset)%Qc → (offset ≤ w + w)%Qc →
  PlateCarree.other_params self = PlateCarree.other_params src_crs →
  vertices ≠ [] →
  Forall (λ v, (- w ≤ v.1)%Qc ∧ (v.1 ≤ w)%Qc ∧
               ((PlateCarree.y_limits self).1 ≤ v.2)%Qc ∧
               (v.2 ≤ (PlateCarree.y_limits self).2)%Qc) vertices →
  ∃ r, PlateCarree.quick_vertices_transform self vertices
         (PlateCarree.IsPlateCarree src_crs) false = Ok r ∧
       (is_Some r ↔ Forall (λ v, (v.1 ≤ edge)%Qc) vertices ∨
                    Forall (λ v, (edge ≤ v.1)%Qc) vertices).
Proof. apply quick_transform_of_shifted_source. Qed.

(** An array across the edge at [x = 170] of a source centred on
    longitude 10 is left to the slow path. *)
Lemma plate_carree_quick_transform_iff_no_wrap_witness :
  let self := PlateCarree.__init__ (int 0) (int 1) ∅ in
  let src_crs := PlateCarree.__init__ (int 10) (int 1) ∅ in
  let vertices := [(int 165, int 10); (int 175, int 20)] in
  ∃ r, PlateCarree.quick_vertices_transform self vertices
         (PlateCarree.IsPlateCarree src_crs) false = Ok r ∧
       (is_Some r ↔ Forall (λ v : coord, (v.1 ≤ int 170)%Qc) vertices ∨
                    Forall (λ v : coord, (int 170 ≤ v.1)%Qc) vertices).
Proof.
  pose proof (plate_carree_quick_transform_iff_no_wrap
                (PlateCarree.__init__ (int 0) (int 1) ∅)
                (PlateCarree.__init__ (int 10) (int 1) ∅)
                [(int 165, int 10); (int 175, int 20)]) as Hthm.
  cbn zeta in Hthm. cbn zeta.
  destruct Hthm as (r & Hr & Hiff); [by vm_compute..| |].
  - repeat constructor; by vm_compute.
  - exists r. split; [exact Hr|]. etrans; [exact Hiff|].
    assert ((if decide (PlateCarree.lon_0 (PlateCarree.__init__ (int 10) (int 1) ∅) -
                       PlateCarree.lon_0 (PlateCarree.__init__ (int 0) (int 1) ∅) < 0)%Qc
             then (- _RectangularProjection._half_width
                       (PlateCarree.rectangular (PlateCarree.__init__ (int 0) (int 1) ∅)) -
                   (PlateCarree.lon_0 (PlateCarree.__init__ (int 10) (int 1) ∅) -
                    PlateCarree.lon_0 (PlateCarree.__init__ (int 0) (int 1) ∅)))%Qc
             else (_RectangularProjection._half_width
                       (PlateCarree.rectangular (PlateCarree.__init__ (int 0) (int 1) ∅)) -
                   (PlateCarree.lon_0 (PlateCarree.__init__ (int 10) (int 1) ∅) -
                    PlateCarree.lon_0 (PlateCarree.__init__ (int 0) (int 1) ∅)))%Qc)
            = int 170) as -> by (by vm_compute).
    done.
Defined.

(** ** Classes with constant limits *)

Lemma limits_ring_unfold (x_limits y_limits : Qc * Qc) :
  limits_ring x_limits y_limits =
    [(x_limits.1, y_limits.1); (x_limits.1, y_limits.2); (x_limits.2, y_limits.2);
     (x_limits.2, y_limits.1); (x_limits.1, y_limits.1)].
Proof.
  destruct x_limits as [x0 x1], y_limits as [y0 y1]. unfold limits_ring.
  by apply LinearRing_of_closed.
Qed.

Lemma origin_ring_unfold (x_limits y_limits : Qc * Qc) :
  origin_ring x_limits y_limits =
    [(int 0, int 0); (int 0, (y_limits.2 - y_limits.1)%Qc);
     ((x_limits.2 - x_limits.1)%Qc, (y_limits.2 - y_limits.1)%Qc);
     ((x_limits.2 - x_limits.1)%Qc, int 0); (int 0, int 0)].
Proof. unfold origin_ring. cbn zeta. by apply LinearRing_of_closed. Qed.

(** X10. Of the classes with constant limits, [TransverseMercator], [UTM],
    [EuroPP] and [OSGB] have a boundary whose coordinates all lie inside
    [x_limits] x [y_limits], and their quick transform returns the
    boundary's own coordinates unchanged.  [OSNI] does not: its boundary has
    the size of its limits but starts at the origin, outside the limits, and
    its quick transform rejects the boundary's coordinates.  In general the
    ring [(0, 0), (0, h), (w, h), (w, 0)] that [OSGB] and [OSNI] build from
    the differences of the limits lies inside the limits exactly when both
    lower limits are zero. *)
Theorem fixed_limits_boundary_inside_iff (self : fixed_limits.t) :
  (Forall (inside_limits self) (fixed_limits.boundary self) ↔ self ≠ fixed_limits.OSNI) ∧
  quick_vertices_transform self (fixed_limits.boundary self) true =
    Ok (if decide (self = fixed_limits.OSNI) then None
        else Some (fixed_limits.boundary self)) ∧
  length (fixed_limits.boundary self) = 5 ∧
  head (fixed_limits.boundary self) = last (fixed_limits.boundary self) ∧
  (∀ x_limits y_limits : Qc * Qc,
     (x_limits.1 ≤ x_limits.2)%Qc → (y_limits.1 ≤ y_limits.2)%Qc →
     Forall (λ v, (x_limits.1 ≤ v.1)%Qc ∧ (v.1 ≤ x_limits.2)%Qc ∧
                  (y_limits.1 ≤ v.2)%Qc ∧ (v.2 ≤ y_limits.2)%Qc)
            (origin_ring x_limits y_limits) ↔
     x_limits.1 = int 0 ∧ y_limits.1 = int 0).
Proof.
  split_and!.
  - destruct self; (split; [intros Hall|intros Hne]); try done.
    all: try (apply (bool_decide_unpack _); by vm_compute).
    exfalso. revert Hall. apply (bool_decide_eq_false_1 _). by vm_compute.
  - destruct self; by vm_compute.
  - destruct self; by vm_compute.
  - destruct self; by vm_compute.
  - intros [x0 x1] [y0 y1] Hx Hy. rewrite origin_ring_unfold. cbn [fst snd] in *.
    rewrite !Forall_cons, Forall_nil. cbn [fst snd]. split.
    + intros ((?&?&?&?)&_&(?&?&?&?)&_). split; qc_lra.
    + intros [-> ->]. split_and!; try done; qc_lra.
Qed.

(** ** Sampled boundaries *)

Lemma elem_of_LinearRing (cs : list coord) (v : coord) : v ∈ LinearRing cs ↔ v ∈ cs.
Proof.
  destruct cs as [|c0 cs]; [done|]. unfold LinearRing. case_decide; [done|].
  rewrite elem_of_app, list_elem_of_singleton. split; [|by left].
  intros [?| ->]; [done|left].
Qed.

(** The extreme values of the columns bound every point and are attained. *)
Lemma column_extremes (points : list coord) :
  points ≠ [] →
  ∃ x_min y_min x_max y_max,
    array_min points.*1 = Ok x_min ∧ array_min points.*2 = Ok y_min ∧
    array_max points.*1 = Ok x_max ∧ array_max points.*2 = Ok y_max ∧
    x_min ∈ points.*1 ∧ x_max ∈ points.*1 ∧ y_min ∈ points.*2 ∧ y_max ∈ points.*2 ∧
    Forall (λ v, (x_min ≤ v.1)%Qc ∧ (v.1 ≤ x_max)%Qc ∧
                 (y_min ≤ v.2)%Qc ∧ (v.2 ≤ y_max)%Qc) points.
Proof.
  intros Hne.
  destruct (array_min_Ok (points.*1)) as (xmin & Exmin & Hxmin_in & Hxmin); [by apply fmap_not_nil|].
  destruct (array_max_Ok (points.*1)) as (xmax & Exmax & Hxmax_in & Hxmax); [by apply fmap_not_nil|].
  destruct (array_min_Ok (points.*2)) as (ymin & Eymin & Hymin_in & Hymin); [by apply fmap_not_nil|].
  destruct (array_max_Ok (points.*2)) as (ymax & Eymax & Hymax_in & Hymax); [by apply fmap_not_nil|].
  exists xmin, ymin, xmax, ymax. split_and!; try done.
  pose proof (proj1 (Hxmin _) (Qcle_refl _)) as H1.
  pose proof (proj1 (Hxmax _) (Qcle_refl _)) as H2.
  pose proof (proj1 (Hymin _) (Qcle_refl _)) as H3.
  pose proof (proj1 (Hymax _) (Qcle_refl _)) as H4.
  rewrite Forall_fmap in H1, H2, H3, H4. rewrite !Forall_and. done.
Qed.

(** X11. [_Satellite._set_boundary] on an array of more than three points
    stores the closed ring through the points, and limits that are the
    bounding box of that ring: every coordinate of the boundary lies inside
    the limits, each of the four limits is attained by a coordinate of the
    boundary, and the threshold is 2% of the width of [x_limits], which is
    not negative. *)
Theorem set_boundary_limits_are_the_bounding_box (coords : list coord) :
  3 < length coords →
  ∃ self, _Satellite._set_boundary coords = Ok self ∧
    _Satellite._boundary self = LinearRing coords ∧
    head (_Satellite._boundary self) = last (_Satellite._boundary self) ∧
    Forall (inside_limits self) (_Satellite._boundary self) ∧
    (_Satellite._x_limits self).1 ∈ (_Satellite._boundary self).*1 ∧
    (_Satellite._x_limits self).2 ∈ (_Satellite._boundary self).*1 ∧
    (_Satellite._y_limits self).1 ∈ (_Satellite._boundary self).*2 ∧
    (_Satellite._y_limits self).2 ∈ (_Satellite._boundary self).*2 ∧
    _Satellite.threshold self =
      (((_Satellite._x_limits self).2 - (_Satellite._x_limits self).1) * decimal 2 2)%Qc ∧
    (0 ≤ _Satellite.threshold self)%Qc.
Proof.
  intros Hlen. assert (coords ≠ []) as Hne by (intros ->; cbn in Hlen; lia).
  destruct (column_extremes coords Hne)
    as (xmin & ymin & xmax & ymax & E1 & E2 & E3 & E4 & I1 & I2 & I3 & I4 & Hall).
  unfold _Satellite._set_boundary. rewrite E1, E2, E3, E4. cbn [mbind outcome_bind].
  eexists. split; [done|]. cbn [_Satellite._boundary _Satellite._x_limits
    _Satellite._y_limits _Satellite.threshold fst snd].
  assert (Hsub : ∀ (f : coord → Qc) q, q ∈ f <$> coords → q ∈ f <$> LinearRing coords).
  { intros f q (v & -> & Hv)%list_elem_of_fmap. apply list_elem_of_fmap.
    exists v. by rewrite elem_of_LinearRing. }
  split_and!; try done; try (by apply Hsub).
  - apply LinearRing_closed.
  - rewrite Forall_forall in Hall |- *. intros v Hv.
    apply (proj1 (elem_of_LinearRing _ _)) in Hv.
    unfold inside_limits. cbn. by apply Hall.
  - assert (xmin ≤ xmax)%Qc as Hle.
    { apply list_elem_of_fmap in I1 as (v & -> & Hv).
      rewrite Forall_forall in Hall. destruct (Hall v Hv) as (?&?&_). qc_lra. }
    unfold diff, decimal. cbn [fst snd]. qc_lra.
Qed.

Lemma set_boundary_limits_are_the_bounding_box_witness :
  ∃ self, _Satellite._set_boundary [(int 0, int 1); (int 2, int 0); (int 3, int 2); (int 1, int 3)]
            = Ok self ∧
    _Satellite._x_limits self = (int 0, int 3) ∧ _Satellite._y_limits self = (int 0, int 3) ∧
    length (_Satellite._boundary self) = 5.
Proof.
  destruct (set_boundary_limits_are_the_bounding_box
              [(int 0, int 1); (int 2, int 0); (int 3, int 2); (int 1, int 3)])
    as (self & Hself & Hring & _); [cbn; lia|].
  exists self. split; [exact Hself|].
  injection Hself as <-. by vm_compute.
Defined.

(** ** [Mercator] *)

(** X12. [Mercator.__init__] raises [ValueError] exactly when both
    [latitude_true_scale] and [scale_factor] are given.  Otherwise it
    returns an object whose parameters are the five base entries followed
    by [lat_ts] when [latitude_true_scale] is given, or by [k_0] when
    [scale_factor] is given; whose limits are the images of the corners
    [(minlon, min_latitude)] and [(maxlon, max_latitude)], with the bounds of
    [_determine_longitude_bounds]; whose boundary is the closed ring through
    those two corners; and whose threshold is the smaller of a 720th of the
    width and a 360th of the height. *)
Theorem mercator_init_scale_arguments
    (transform : list (string * pval) → Qc → Qc → coord)
    (central_longitude min_latitude max_latitude : Qc)
    (latitude_true_scale : option Qc) (false_easting false_northing : Qc)
    (scale_factor : option Qc) :
  let result := Mercator.__init__ transform central_longitude min_latitude max_latitude
                  latitude_true_scale false_easting false_northing scale_factor in
  let base := [("proj", PStr "merc"); ("lon_0", PNum central_longitude);
               ("x_0", PNum false_easting); ("y_0", PNum false_northing);
               ("units", PStr "m")] in
  (result = Raise ValueError ↔ is_Some latitude_true_scale ∧ is_Some scale_factor) ∧
  (¬ (is_Some latitude_true_scale ∧ is_Some scale_factor) →
   ∃ self, result = Ok self ∧
     Mercator.proj4_params self =
       base ++ match latitude_true_scale, scale_factor with
               | Some lat_ts, _ => [("lat_ts", PNum lat_ts)]
               | None, Some k_0 => [("k_0", PNum k_0)]
               | None, None => []
               end ∧
     let bounds := _determine_longitude_bounds central_longitude in
     let lower := transform (Mercator.proj4_params self) bounds.1 min_latitude in
     let upper := transform (Mercator.proj4_params self) bounds.2 max_latitude in
     Mercator.x_limits self = (lower.1, upper.1) ∧
     Mercator.y_limits self = (lower.2, upper.2) ∧
     Mercator.boundary self =
       [lower; (lower.1, upper.2); upper; (upper.1, lower.2); lower] ∧
     ((Mercator.threshold self = (upper.1 - lower.1) / int 720)%Qc ∨
      (Mercator.threshold self = (upper.2 - lower.2) / int 360)%Qc) ∧
     (Mercator.threshold self ≤ (upper.1 - lower.1) / int 720)%Qc ∧
     (Mercator.threshold self ≤ (upper.2 - lower.2) / int 360)%Qc).
Proof.
  intros result base. subst result. unfold Mercator.__init__.
  destruct (_determine_longitude_bounds central_longitude) as [minlon maxlon] eqn:Ebounds.
  split.
  - destruct latitude_true_scale as [lat_ts|], scale_factor as [k_0|];
      cbn [mbind outcome_bind]; split; try done; try (by intros [[? [=]] _]);
      try (by intros [_ [? [=]]]).
  - intros Hn.
    destruct latitude_true_scale as [lat_ts|], scale_factor as [k_0|];
      [exfalso; apply Hn; split; eauto|..];
      cbn [mbind outcome_bind]; eexists; (split; [reflexivity|]);
      cbn [Mercator.proj4_params Mercator.x_limits Mercator.y_limits Mercator._x_limits
           Mercator._y_limits Mercator.threshold fst snd];
      rewrite ?app_nil_r; (split; [reflexivity|]);
      unfold Mercator.boundary;
      cbn [Mercator.x_limits Mercator.y_limits Mercator._x_limits Mercator._y_limits];
      rewrite limits_ring_unfold; cbn [fst snd];
      destruct (transform _ minlon min_latitude) as [lx ly];
      destruct (transform _ maxlon max_latitude) as [ux uy]; cbn [fst snd];
      (split_and!; [reflexivity|reflexivity|reflexivity|..]);
      unfold Mercator.py_min, diff; cbn [fst snd]; case_decide; auto;
      try apply Qcle_refl; try (by apply Qclt_le_weak); by apply Qcnot_lt_le.
Qed.

(** ** Sampling constructors *)

Lemma warped_boundary_arrays_closed (u1 u2 : nat → Qc) (minlon maxlon : Qc) :
  _WarpedRectangularProjection.boundary_arrays u1 u2 minlon maxlon =
    Ok (replicate 91 minlon ++ replicate 91 maxlon ++ [minlon],
        linspace (int (-90)) (int 90) 91 ++ linspace (int 90) (int (-90)) 91 ++ [int (-90)]).
Proof. vm_compute. reflexivity. Qed.

Lemma linspace_head (start stop : Qc) (n : nat) :
  head (linspace start stop (S n)) = Some start.
Proof.
  unfold linspace. cbn [seq fmap list_fmap head]. f_equal.
  change (int (Z.of_nat 0)) with 0%Qc. ring.
Qed.

Lemma store_boundary_spec (params : list (string * pval)) (points : list coord) :
  points ≠ [] →
  ∃ self, store_boundary params points = Ok self ∧
    proj4_params self = params ∧
    _boundary self = LinearRing points ∧
    Forall (inside_limits self) (_boundary self) ∧
    (_x_limits self).1 ∈ (_boundary self).*1 ∧ (_x_limits self).2 ∈ (_boundary self).*1 ∧
    (_y_limits self).1 ∈ (_boundary self).*2 ∧ (_y_limits self).2 ∈ (_boundary self).*2.
Proof.
  intros Hne.
  destruct (column_extremes points Hne)
    as (xmin & ymin & xmax & ymax & E1 & E2 & E3 & E4 & I1 & I2 & I3 & I4 & Hall).
  unfold store_boundary. rewrite E1, E2, E3, E4. cbn [mbind outcome_bind].
  eexists. split; [done|]. cbn [proj4_params _boundary _x_limits _y_limits fst snd].
  assert (Hsub : ∀ (f : coord → Qc) q, q ∈ f <$> points → q ∈ f <$> LinearRing points).
  { intros f q (v & -> & Hv)%list_elem_of_fmap. apply list_elem_of_fmap.
    exists v. by rewrite elem_of_LinearRing. }
  split_and!; try done; try (by apply Hsub).
  rewrite Forall_forall in Hall |- *. intros v Hv.
  apply (proj1 (elem_of_LinearRing _ _)) in Hv.
  unfold inside_limits. cbn. by apply Hall.
Qed.

Lemma latitudes_in_range_up :
  Forall (λ lat, (int (-90) ≤ lat)%Qc ∧ (lat ≤ int 90)%Qc) (linspace (int (-90)) (int 90) 91).
Proof. apply (bool_decide_unpack _). by vm_compute. Qed.

Lemma latitudes_in_range_down :
  Forall (λ lat, (int (-90) ≤ lat)%Qc ∧ (lat ≤ int 90)%Qc) (linspace (int 90) (int (-90)) 91).
Proof. apply (bool_decide_unpack _). by vm_compute. Qed.

(** Longitudes the bounds of a central longitude admit. *)
Lemma longitude_bounds_facts (central_longitude : Qc) :
  let minlon := (_determine_longitude_bounds central_longitude).1 in
  let maxlon := (_determine_longitude_bounds central_longitude).2 in
  (central_longitude - int 180 ≤ minlon)%Qc ∧
  (minlon ≤ central_longitude - int 180 + epsilon)%Qc ∧
  (central_longitude + int 180 - epsilon ≤ maxlon)%Qc ∧
  (maxlon ≤ central_longitude + int 180)%Qc.
Proof.
  unfold _determine_longitude_bounds.
  destruct (decide (0 < central_longitude)%Qc) as [Hpos|Hpos];
    [|destruct (decide (central_longitude < 0)%Qc) as [Hneg|Hneg]];
    cbn [fst snd]; split_and!; qc_lra.
Qed.

(** X13. [_WarpedRectangularProjection.__init__] always returns.  Its
    boundary is the image, point by point, of the geodetic outline that goes
    up the meridian [minlon] in 91 steps from latitude -90 to 90, down the
    meridian [maxlon] from 90 to -90, and back to [(minlon, -90)]: 183
    coordinates, the last equal to the first, none of them taken from the
    uninitialised arrays.  Every sample of the outline has its longitude
    within 180 degrees of the central longitude and its latitude in
    [[-90, 90]]; the limits are the bounding box of the boundary; the
    parameters are those given, followed by [x_0] and [y_0] when a false
    easting or northing is given. *)
Theorem warped_boundary_is_the_image_of_the_outline
    (transform : list (string * pval) → Qc → Qc → coord)
    (uninitialised_lon uninitialised_lat : nat → Qc)
    (given_params : list (string * pval)) (central_longitude : Qc)
    (false_easting false_northing : option Qc) :
  let params :=
    given_params ++ match false_easting with Some x_0 => [("x_0", PNum x_0)] | None => [] end
                 ++ match false_northing with Some y_0 => [("y_0", PNum y_0)] | None => [] end in
  let minlon := (_determine_longitude_bounds central_longitude).1 in
  let maxlon := (_determine_longitude_bounds central_longitude).2 in
  let lon := replicate 91 minlon ++ replicate 91 maxlon ++ [minlon] in
  let lat := linspace (int (-90)) (int 90) 91 ++ linspace (int 90) (int (-90)) 91
             ++ [int (-90)] in
  ∃ self,
    _WarpedRectangularProjection.__init__ transform uninitialised_lon uninitialised_lat
      given_params central_longitude false_easting false_northing = Ok self ∧
    proj4_params self = params ∧
    _boundary self = zip_with (transform params) lon lat ∧
    length (_boundary self) = 183 ∧
    head (_boundary self) = last (_boundary self) ∧
    Forall (λ x, (central_longitude - int 180 ≤ x)%Qc ∧
                 (x ≤ central_longitude + int 180)%Qc) lon ∧
    Forall (λ y, (int (-90) ≤ y)%Qc ∧ (y ≤ int 90)%Qc) lat ∧
    Forall (inside_limits self) (_boundary self) ∧
    (_x_limits self).1 ∈ (_boundary self).*1 ∧ (_x_limits self).2 ∈ (_boundary self).*1 ∧
    (_y_limits self).1 ∈ (_boundary self).*2 ∧ (_y_limits self).2 ∈ (_boundary self).*2.
Proof.
  intros params minlon maxlon lon lat.
  pose proof (longitude_bounds_facts central_longitude) as (Hb1 & Hb2 & Hb3 & Hb4).
  fold minlon maxlon in Hb1, Hb2, Hb3, Hb4.
  unfold _WarpedRectangularProjection.__init__.
  assert ((match false_northing with
           | Some y_0 =>
               match false_easting with
               | Some x_0 => given_params ++ [("x_0", PNum x_0)]
               | None => given_params
               end ++ [("y_0", PNum y_0)]
           | None =>
               match false_easting with
               | Some x_0 => given_params ++ [("x_0", PNum x_0)]
               | None => given_params
               end
           end) = params) as ->.
  { subst params. destruct false_easting, false_northing;
      by rewrite <- ?app_assoc, ?app_nil_r. }
  destruct (_determine_longitude_bounds central_longitude) as [lo hi] eqn:Ebounds.
  cbn [fst snd] in minlon, maxlon. subst minlon maxlon.
  rewrite warped_boundary_arrays_closed. cbn [mbind outcome_bind]. fold lon lat.
  unfold transform_points. rewrite decide_True by (by vm_compute).
  cbn [mbind outcome_bind].
  set (points := zip_with (transform params) lon lat).
  assert (Hhead : head points = Some (transform params lo (int (-90)))).
  { subst points lon lat. cbn [replicate app].
    pose proof (linspace_head (int (-90)) (int 90) 90) as Hl.
    destruct (linspace (int (-90)) (int 90) 91) as [|l0 ls]; [done|].
    by injection Hl as ->. }
  assert (Hlast : last points = Some (transform params lo (int (-90)))).
  { subst points lon lat. rewrite !app_assoc.
    rewrite zip_with_app by (by vm_compute). exact (last_snoc _ _). }
  assert (Hclosed : LinearRing points = points).
  { apply LinearRing_of_closed. by rewrite Hhead, Hlast. }
  destruct (store_boundary_spec params points) as (self & -> & Hp & Hb & Hin & Hatt).
  { intros E. by rewrite E in Hhead. }
  exists self. rewrite Hb, Hclosed in *. split_and!; try done; try apply Hatt.
  - subst lon. rewrite !Forall_app, Forall_singleton.
    split_and!; try apply Forall_replicate; try split; qc_lra.
  - subst lat. rewrite !Forall_app, Forall_singleton.
    split_and!; [apply latitudes_in_range_up|apply latitudes_in_range_down|..]; by vm_compute.
Qed.

(** ** [np.linspace] *)

Lemma linspace_length (start stop : Qc) (num : nat) : length (linspace start stop num) = num.
Proof. unfold linspace. by rewrite length_fmap, length_seq. Qed.

Lemma linspace_lookup (start stop : Qc) (num i : nat) :
  i < num →
  linspace start stop num !! i =
    Some (start + int (Z.of_nat i) * ((stop - start) / int (Z.of_nat (num - 1))))%Qc.
Proof.
  intros Hi. unfold linspace. rewrite list_lookup_fmap, lookup_seq_lt by done. done.
Qed.

Lemma int_le (i j : Z) : (i ≤ j)%Z → (int i ≤ int j)%Qc.
Proof. intros Hij. unfold int. rewrite Qc_le_Q, !this_Q2Qc. by rewrite <- Zle_Qle. Qed.

Lemma int_lt (i j : Z) : (i < j)%Z → (int i < int j)%Qc.
Proof. intros Hij. unfold int. rewrite Qc_lt_Q, !this_Q2Qc. by rewrite <- Zlt_Qlt. Qed.

(** The step times the number of steps is the span. *)
Lemma linspace_step (start stop : Qc) (m : Z) :
  (0 < m)%Z → ((stop - start) / int m * int m)%Qc = (stop - start)%Qc.
Proof.
  intros Hm. field. intros E. apply (int_lt 0 m) in Hm.
  rewrite E in Hm. by apply Qclt_not_eq in Hm.
Qed.

Lemma scaled_between (a b d I M : Qc) :
  (d * M)%Qc = (b - a)%Qc → (0 ≤ I)%Qc → (I ≤ M)%Qc → (0 < M)%Qc → (a ≤ b)%Qc →
  (a ≤ a + I * d)%Qc ∧ (a + I * d ≤ b)%Qc.
Proof.
  intros Hd HI HIM HM Hab. split; qc_to_q.
  - assert (0 <= this d)%Q.
    { destruct (Qlt_le_dec (this d) 0) as [Hneg|]; [exfalso|done].
      assert (this d * this M < 0)%Q by nra. lra. }
    nra.
  - assert (0 <= this d)%Q.
    { destruct (Qlt_le_dec (this d) 0) as [Hneg|]; [exfalso|done].
      assert (this d * this M < 0)%Q by nra. lra. }
    nra.
Qed.

Lemma scaled_step_sign (a b d M : Qc) :
  (d * M)%Qc = (b - a)%Qc → (0 < M)%Qc → (a < b)%Qc → (0 < d)%Qc.
Proof.
  intros Hd HM Hab. qc_to_q.
  destruct (Qlt_le_dec 0 (this d)) as [|Hneg]; [done|exfalso].
  assert (this d * this M <= 0)%Q by nra. lra.
Qed.

(** Samples of an increasing [linspace] lie between its ends and increase
    strictly. *)
Lemma linspace_increasing (start stop : Qc) (num : nat) :
  1 < num → (start < stop)%Qc →
  Forall (λ x, (start ≤ x)%Qc ∧ (x ≤ stop)%Qc) (linspace start stop num) ∧
  ∀ i j x y, i < j →
    linspace start stop num !! i = Some x → linspace start stop num !! j = Some y →
    (x < y)%Qc.
Proof.
  intros Hnum Hlt.
  set (M := int (Z.of_nat (num - 1))).
  set (d := ((stop - start) / M)%Qc).
  assert (HdM : (d * M)%Qc = (stop - start)%Qc) by (apply linspace_step; lia).
  assert (HM : (0 < M)%Qc) by (apply (int_lt 0); lia).
  assert (Hd : (0 < d)%Qc) by (by eapply scaled_step_sign).
  split.
  - apply Forall_forall. intros x Hx. apply list_elem_of_lookup in Hx as [i Hi].
    pose proof (lookup_lt_Some _ _ _ Hi) as Hlen. rewrite linspace_length in Hlen.
    rewrite linspace_lookup in Hi by done. injection Hi as <-.
    apply scaled_between with (M := M); try done.
    + apply (int_le 0). lia.
    + apply int_le. lia.
    + by apply Qclt_le_weak.
  - intros i j x y Hij Hi Hj.
    pose proof (lookup_lt_Some _ _ _ Hj) as Hlen. rewrite linspace_length in Hlen.
    rewrite linspace_lookup in Hi, Hj by lia. injection Hi as <-. injection Hj as <-.
    fold M d. assert (int (Z.of_nat i) < int (Z.of_nat j))%Qc as HIJ by (apply int_lt; lia).
    revert HIJ. generalize (int (Z.of_nat i)) (int (Z.of_nat j)). intros I J HIJ.
    clear HdM HM. qc_to_q. nra.
Qed.

Lemma linspace_decreasing (start stop : Qc) (num : nat) :
  1 < num → (stop < start)%Qc →
  Forall (λ x, (stop ≤ x)%Qc ∧ (x ≤ start)%Qc) (linspace start stop num) ∧
  ∀ i j x y, i < j →
    linspace start stop num !! i = Some x → linspace start stop num !! j = Some y →
    (y < x)%Qc.
Proof.
  intros Hnum Hlt.
  set (M := int (Z.of_nat (num - 1))).
  set (d := ((stop - start) / M)%Qc).
  assert (HdM : (d * M)%Qc = (stop - start)%Qc) by (apply linspace_step; lia).
  assert (HM : (0 < M)%Qc) by (apply (int_lt 0); lia).
  assert (Hd : (d < 0)%Qc).
  { clear -HdM HM Hlt. qc_to_q.
    destruct (Qlt_le_dec (this d) 0) as [|Hpos]; [done|exfalso].
    assert (0 <= this d * this M)%Q by nra. lra. }
  split.
  - apply Forall_forall. intros x Hx. apply list_elem_of_lookup in Hx as [i Hi].
    pose proof (lookup_lt_Some _ _ _ Hi) as Hlen. rewrite linspace_length in Hlen.
    rewrite linspace_lookup in Hi by done. injection Hi as <-. fold M d.
    assert (0 ≤ int (Z.of_nat i))%Qc as HI0 by (apply (int_le 0); lia).
    assert (int (Z.of_nat i) ≤ M)%Qc as HIM by (apply int_le; lia).
    revert HI0 HIM. generalize (int (Z.of_nat i)). intros I HI0 HIM.
    split; qc_to_q; nra.
  - intros i j x y Hij Hi Hj.
    pose proof (lookup_lt_Some _ _ _ Hj) as Hlen. rewrite linspace_length in Hlen.
    rewrite linspace_lookup in Hi, Hj by lia. injection Hi as <-. injection Hj as <-.
    fold M d. assert (int (Z.of_nat i) < int (Z.of_nat j))%Qc as HIJ by (apply int_lt; lia).
    revert HIJ. generalize (int (Z.of_nat i)) (int (Z.of_nat j)). intros I J HIJ.
    clear HdM HM. qc_to_q. nra.
Qed.

(** ** [LambertConformal] *)

Lemma pole_of_cases (latitude : Qc) :
  (LambertConformal.pole_of latitude = int 90 ∧ (0 < latitude)%Qc) ∨
  (LambertConformal.pole_of latitude = int (-90) ∧ ¬ (0 < latitude)%Qc).
Proof. unfold LambertConformal.pole_of. case_decide; auto. Qed.

(** Writing the next cells of an array that is filled from the left. *)
Lemma imap_id_ext {A} (f : nat → A → A) (l : list A) :
  (∀ k x, l !! k = Some x → f k x = x) → imap f l = l.
Proof.
  intros Hf. rewrite <- (list_fmap_id l) at 2. rewrite <- (imap_const id l).
  by apply imap_ext.
Qed.

Lemma set_slice_scalar_next (written rest : list Qc) (n : nat) (v : Qc) :
  n ≤ length rest →
  set_slice_scalar (written ++ rest) (length written) (length written + n) v =
    written ++ replicate n v ++ drop n rest.
Proof.
  intros Hn. unfold set_slice_scalar. rewrite imap_app. f_equal.
  - apply imap_id_ext. intros k x Hk%lookup_lt_Some.
    rewrite bool_decide_eq_false_2; [done|lia].
  - rewrite <- (take_drop n rest) at 1. rewrite imap_app. f_equal.
    + apply list_eq. intros k. rewrite list_lookup_imap.
      destruct (decide (k < n)) as [Hk|Hk].
      * rewrite lookup_replicate_2 by done.
        rewrite lookup_take_lt by done.
        destruct (lookup_lt_is_Some_2 rest k) as [x ->]; [lia|]. cbn.
        rewrite bool_decide_eq_true_2; [done|lia].
      * rewrite (proj1 (lookup_replicate_None n v k)) by lia.
        rewrite lookup_take_ge by lia. done.
    + apply imap_id_ext. intros k x _. rewrite length_take.
      rewrite bool_decide_eq_false_2; [done|lia].
Qed.

Lemma slice_length_next (written rest : list Qc) (n : nat) :
  n ≤ length rest →
  slice_length (written ++ rest) (length written) (length written + n) = n.
Proof.
  intros Hn. unfold slice_length.
  rewrite take_app_add', drop_app_length by done. rewrite length_take. lia.
Qed.

Lemma set_slice_next (written rest values : list Qc) :
  length values ≤ length rest →
  set_slice (written ++ rest) (length written) (length written + length values) values =
    Ok (written ++ values ++ drop (length values) rest).
Proof.
  intros Hn. unfold set_slice. rewrite slice_length_next by done.
  rewrite decide_True by done. f_equal. rewrite imap_app. f_equal.
  - apply imap_id_ext. intros k x Hk%lookup_lt_Some.
    rewrite bool_decide_eq_false_2; [done|lia].
  - rewrite <- (take_drop (length values) rest) at 1. rewrite imap_app. f_equal.
    + apply list_eq. intros k. rewrite list_lookup_imap.
      destruct (decide (k < length values)) as [Hk|Hk].
      * rewrite lookup_take_lt by done.
        destruct (lookup_lt_is_Some_2 rest k) as [x ->]; [lia|]. cbn.
        rewrite bool_decide_eq_true_2 by lia.
        replace (length written + k - length written) with k by lia.
        destruct (lookup_lt_is_Some_2 values k) as [y Hy]; [done|]. by rewrite Hy.
      * rewrite lookup_take_ge by lia. cbn. symmetry. apply lookup_ge_None_2. lia.
    + apply imap_id_ext. intros k x _. rewrite length_take.
      rewrite bool_decide_eq_false_2; [done|lia].
Qed.

Lemma set_last_snoc (written : list Qc) (x v : Qc) :
  set_last (written ++ [x]) v = Ok (written ++ [v]).
Proof.
  unfold set_last. destruct (written ++ [x]) eqn:E; [by destruct written|].
  rewrite <- E. f_equal.
  replace (length (written ++ [x]) - 1) with (length written + 0)
    by (rewrite length_app; cbn; lia).
  by rewrite insert_app_r.
Qed.

Lemma np_empty_split (u : nat → Qc) (n m : nat) :
  np_empty u (n + m) = np_empty u n ++ (u <$> seq n m).
Proof. unfold np_empty. by rewrite seq_app, fmap_app. Qed.

Lemma lambert_boundary_arrays_closed (u : nat → Qc) (central_longitude cutoff plat : Qc) :
  LambertConformal.boundary_arrays u central_longitude cutoff plat =
    Ok (int 0 ::
          (if decide (plat = int 90)
           then linspace (central_longitude + int 180 - decimal 1 3)
                         (central_longitude - int 180 + decimal 1 3) 91
           else linspace (central_longitude - int 180 + decimal 1 3)
                         (central_longitude + int 180 - decimal 1 3) 91) ++ [int 0],
        plat :: replicate 91 cutoff ++ [plat]).
Proof.
  unfold LambertConformal.boundary_arrays. cbn zeta.
  assert (set_first (np_empty u (91 + 2)) (int 0) = Ok ([int 0] ++ (u <$> seq 1 91) ++ [u 92]))
    as -> by (by vm_compute).
  cbn [mbind outcome_bind].
  rewrite (app_assoc [int 0]), set_last_snoc. cbn [mbind outcome_bind].
  assert (set_first (np_full (91 + 2) cutoff) plat
          = Ok ((plat :: replicate 91 cutoff) ++ [cutoff])) as -> by (by vm_compute).
  cbn [mbind outcome_bind]. rewrite set_last_snoc. cbn [mbind outcome_bind].
  set (sweep := if decide (plat = int 90)
                then linspace (central_longitude + int 180 - decimal 1 3)
                              (central_longitude - int 180 + decimal 1 3) 91
                else linspace (central_longitude - int 180 + decimal 1 3)
                              (central_longitude + int 180 - decimal 1 3) 91).
  assert (Hsweep : length sweep = 91) by (subst sweep; case_decide; apply linspace_length).
  assert (Hgoal : set_slice (([int 0] ++ (u <$> seq 1 91)) ++ [int 0]) 1
            (length (([int 0] ++ (u <$> seq 1 91)) ++ [int 0]) - 1) sweep
          = Ok (int 0 :: sweep ++ [int 0])).
  { assert (Hs := set_slice_next [int 0] ((u <$> seq 1 91) ++ [int 0]) sweep).
    rewrite Hsweep in Hs. specialize (Hs ltac:(cbn; lia)).
    rewrite <- app_assoc.
    transitivity (Ok ([int 0] ++ sweep ++ drop 91 ((u <$> seq 1 91) ++ [int 0])));
      [exact Hs|reflexivity]. }
  destruct (decide (plat = int 90)); subst sweep; rewrite Hgoal; done.
Qed.

(** The parallels the constructor goes on with. *)
Lemma effective_parallels_cases (secant_latitudes standard_parallels : option (list Qc)) :
  LambertConformal.effective_parallels secant_latitudes standard_parallels =
    if LambertConformal.truthy secant_latitudes && LambertConformal.truthy standard_parallels
    then Raise TypeError
    else Ok (default (default [int 33; int 45] standard_parallels) secant_latitudes).
Proof.
  unfold LambertConformal.effective_parallels.
  destruct (_ && _); [done|]. by destruct secant_latitudes, standard_parallels.
Qed.

Lemma central_pole_Ok (parallels : list Qc) :
  1 ≤ length parallels ≤ 2 →
  ∃ poliest,
    LambertConformal.central_pole parallels = Ok (LambertConformal.pole_of poliest) ∧
    poliest ∈ parallels ∧
    Forall (λ latitude, (Qcabs latitude ≤ Qcabs poliest)%Qc) parallels ∧
    (∀ lat_1 lat_2, parallels = [lat_1; lat_2] →
       poliest = if decide (Qcabs lat_2 < Qcabs lat_1)%Qc then lat_1 else lat_2).
Proof.
  intros Hlen. destruct parallels as [|lat_1 [|lat_2 [|? ?]]]; cbn in Hlen; try lia.
  - exists lat_1. split; [done|]. split; [left|]. split; [|done].
    repeat constructor. apply Qcle_refl.
  - unfold LambertConformal.central_pole. cbn [lookup list_lookup or_raise mbind outcome_bind length].
    rewrite decide_False by done. cbn [mbind outcome_bind].
    destruct (decide (Qcabs lat_2 < Qcabs lat_1)%Qc) as [Hlt|Hge].
    + exists lat_1. split; [done|]. split; [left|]. split.
      * repeat constructor; [apply Qcle_refl|by apply Qclt_le_weak].
      * intros ? ? [= <- <-]. by rewrite decide_True.
    + exists lat_2. split; [done|]. split; [right; left|]. split.
      * repeat constructor; [by apply Qcnot_lt_le|apply Qcle_refl].
      * intros ? ? [= <- <-]. by rewrite decide_False.
Qed.

(** The constructor up to the sampling of the boundary. *)
Lemma lambert_init_cases
    (transform : list (string * pval) → Qc → Qc → coord) (u : nat → Qc)
    (central_longitude central_latitude false_easting false_northing : Qc)
    (secant_latitudes standard_parallels : option (list Qc)) (cutoff : Qc) :
  let result := LambertConformal.__init__ transform u central_longitude central_latitude
                  false_easting false_northing secant_latitudes standard_parallels cutoff in
  let chosen := default (default [int 33; int 45] standard_parallels) secant_latitudes in
  let params :=
    [("proj", PStr "lcc"); ("lon_0", PNum central_longitude);
     ("lat_0", PNum central_latitude); ("x_0", PNum false_easting);
     ("y_0", PNum false_northing)] ++
    zip_with (λ name latitude, (name, PNum latitude)) ["lat_1"; "lat_2"] chosen in
  if LambertConformal.truthy secant_latitudes && LambertConformal.truthy standard_parallels
  then result = Raise TypeError
  else if bool_decide (1 ≤ length chosen ≤ 2)
  then ∃ poliest points,
         LambertConformal.central_pole chosen = Ok (LambertConformal.pole_of poliest) ∧
         poliest ∈ chosen ∧
         Forall (λ latitude, (Qcabs latitude ≤ Qcabs poliest)%Qc) chosen ∧
         (∀ lat_1 lat_2, chosen = [lat_1; lat_2] →
            poliest = if decide (Qcabs lat_2 < Qcabs lat_1)%Qc then lat_1 else lat_2) ∧
         transform_points (transform params)
           (int 0 ::
              (if decide (LambertConformal.pole_of poliest = int 90)
               then linspace (central_longitude + int 180 - decimal 1 3)
                             (central_longitude - int 180 + decimal 1 3) 91
               else linspace (central_longitude - int 180 + decimal 1 3)
                             (central_longitude + int 180 - decimal 1 3) 91) ++ [int 0])
           (LambertConformal.pole_of poliest :: replicate 91 cutoff
              ++ [LambertConformal.pole_of poliest]) = Ok points ∧
         result = (stored ← store_boundary params points;
                   Ok (LambertConformal.new stored cutoff (int 100000)))
  else result = Raise ValueError.
Proof.
  intros result chosen params. subst result. unfold LambertConformal.__init__.
  rewrite effective_parallels_cases. fold chosen.
  destruct (_ && _); [done|]. cbn [mbind outcome_bind].
  case_bool_decide as Hlen; cbn [negb]; [|done].
  destruct (central_pole_Ok chosen Hlen) as (poliest & Epole & Hin & Hmax & Htie).
  rewrite Epole.
  assert (∃ points, transform_points (transform params)
           (int 0 ::
              (if decide (LambertConformal.pole_of poliest = int 90)
               then linspace (central_longitude + int 180 - decimal 1 3)
                             (central_longitude - int 180 + decimal 1 3) 91
               else linspace (central_longitude - int 180 + decimal 1 3)
                             (central_longitude + int 180 - decimal 1 3) 91) ++ [int 0])
           (LambertConformal.pole_of poliest :: replicate 91 cutoff
              ++ [LambertConformal.pole_of poliest]) = Ok points) as [points Epoints].
  { unfold transform_points. rewrite decide_True; [by eexists|].
    cbn [length]. rewrite !length_app, length_replicate.
    destruct (decide _); by rewrite linspace_length. }
  exists poliest, points. split_and!; try done.
  subst params.
  destruct chosen as [|lat_1 [|lat_2 [|? ?]]]; cbn in Hlen; try lia;
    cbn [lookup list_lookup or_raise mbind outcome_bind length zip_with];
    [rewrite decide_False by done|rewrite decide_True by done];
    cbn [mbind outcome_bind]; rewrite lambert_boundary_arrays_closed;
    cbn [mbind outcome_bind]; cbn [zip_with app] in Epoints |- *;
    by rewrite Epoints.
Qed.

(** X14. [LambertConformal.__init__] checks its parallels before any
    projection work.  It raises [TypeError] exactly when [secant_latitudes]
    and [standard_parallels] are both non-empty.  Otherwise the parallels
    used are [secant_latitudes] whenever that argument is not [None] (even
    when it is empty), else [standard_parallels], else (33, 45); the
    constructor raises [ValueError] exactly when their number is not 1 or 2,
    and otherwise returns an object that keeps [cutoff], has threshold 1e5
    and parameters [proj, lon_0, lat_0, x_0, y_0, lat_1] followed by [lat_2]
    when there are two parallels. *)
Theorem lambert_conformal_argument_checks
    (transform : list (string * pval) → Qc → Qc → coord) (u : nat → Qc)
    (central_longitude central_latitude false_easting false_northing : Qc)
    (secant_latitudes standard_parallels : option (list Qc)) (cutoff : Qc) :
  let result := LambertConformal.__init__ transform u central_longitude central_latitude
                  false_easting false_northing secant_latitudes standard_parallels cutoff in
  let both := LambertConformal.truthy secant_latitudes = true ∧
              LambertConformal.truthy standard_parallels = true in
  let chosen := default (default [int 33; int 45] standard_parallels) secant_latitudes in
  (result = Raise TypeError ↔ both) ∧
  (result = Raise ValueError ↔ ¬ both ∧ ¬ (1 ≤ length chosen ≤ 2)) ∧
  ((∃ self, result = Ok self) ↔ ¬ both ∧ 1 ≤ length chosen ≤ 2) ∧
  (∀ self, result = Ok self →
     LambertConformal.cutoff self = cutoff ∧
     LambertConformal.threshold self = int 100000 ∧
     proj4_params (LambertConformal.base self) =
       [("proj", PStr "lcc"); ("lon_0", PNum central_longitude);
        ("lat_0", PNum central_latitude); ("x_0", PNum false_easting);
        ("y_0", PNum false_northing)] ++
       zip_with (λ name latitude, (name, PNum latitude)) ["lat_1"; "lat_2"] chosen).
Proof.
  intros result both chosen.
  pose proof (lambert_init_cases transform u central_longitude central_latitude
                false_easting false_northing secant_latitudes standard_parallels cutoff)
    as Hcases.
  cbn zeta in Hcases. fold result chosen in Hcases.
  assert (Hboth : both ↔ LambertConformal.truthy secant_latitudes &&
                         LambertConformal.truthy standard_parallels = true).
  { subst both. by rewrite andb_true_iff. }
  destruct (_ && _) eqn:Eboth.
  { assert both as Hyes by (by apply Hboth).
    rewrite Hcases. split_and!.
    - done.
    - split; [done|]. by intros [Hn _].
    - split; [by intros [? [=]]|]. by intros [Hn _].
    - by intros ? [=]. }
  assert (¬ both) as Hnot by (rewrite Hboth; done).
  case_bool_decide as Hlen.
  - destruct Hcases as (poliest & points & _ & _ & _ & _ & Epoints & Hres).
    assert (points ≠ []) as Hne.
    { unfold transform_points in Epoints. case_decide; [|done].
      injection Epoints as <-. done. }
    match type of Hres with
    | context [store_boundary ?p _] =>
        destruct (store_boundary_spec p points Hne) as (stored & Estored & Hparams & _)
    end.
    rewrite Estored in Hres. cbn [mbind outcome_bind] in Hres. rewrite Hres.
    split_and!.
    + split; [done|tauto].
    + split; [done|tauto].
    + split; [done|]. intros _. eauto.
    + intros self [= <-]. by rewrite <- Hparams.
  - rewrite Hcases. split_and!.
    + split; [done|tauto].
    + split; [done|tauto].
    + split; [by intros [? [=]]|tauto].
    + by intros ? [=].
Qed.

(** X15. The boundary [LambertConformal.__init__] stores is the image,
    point by point, of 93 geodetic samples: the pole [plat], then the
    parallel [cutoff] swept in 91 steps once around, then the pole again,
    so the ring is closed as built.  [plat] is 90 when the parallel of
    largest absolute value (the second of two on a tie) is positive and -90
    otherwise.  The swept longitudes stay strictly within 180 degrees of the
    central longitude; they decrease strictly for the pole 90 and increase
    strictly for the pole -90.  The limits are the bounding box of the
    boundary. *)
Theorem lambert_conformal_boundary_sweep
    (transform : list (string * pval) → Qc → Qc → coord) (u : nat → Qc)
    (central_longitude central_latitude false_easting false_northing : Qc)
    (secant_latitudes standard_parallels : option (list Qc)) (cutoff : Qc)
    (self : LambertConformal.t) :
  LambertConformal.__init__ transform u central_longitude central_latitude
    false_easting false_northing secant_latitudes standard_parallels cutoff = Ok self →
  let chosen := default (default [int 33; int 45] standard_parallels) secant_latitudes in
  let stored := LambertConformal.base self in
  ∃ poliest,
    let plat := LambertConformal.pole_of poliest in
    let sweep :=
      if decide (plat = int 90)
      then linspace (central_longitude + int 180 - decimal 1 3)
                    (central_longitude - int 180 + decimal 1 3) 91
      else linspace (central_longitude - int 180 + decimal 1 3)
                    (central_longitude + int 180 - decimal 1 3) 91 in
    poliest ∈ chosen ∧
    Forall (λ latitude, (Qcabs latitude ≤ Qcabs poliest)%Qc) chosen ∧
    (∀ lat_1 lat_2, chosen = [lat_1; lat_2] →
       poliest = if decide (Qcabs lat_2 < Qcabs lat_1)%Qc then lat_1 else lat_2) ∧
    ((plat = int 90 ∧ (0 < poliest)%Qc) ∨ (plat = int (-90) ∧ ¬ (0 < poliest)%Qc)) ∧
    _boundary stored =
      zip_with (transform (proj4_params stored))
        (int 0 :: sweep ++ [int 0]) (plat :: replicate 91 cutoff ++ [plat]) ∧
    length (_boundary stored) = 93 ∧
    head (_boundary stored) = last (_boundary stored) ∧
    Forall (λ x, (central_longitude - int 180 < x)%Qc ∧
                 (x < central_longitude + int 180)%Qc) sweep ∧
    (∀ i j x y, i < j → sweep !! i = Some x → sweep !! j = Some y →
       if decide (plat = int 90) then (y < x)%Qc else (x < y)%Qc) ∧
    Forall (inside_limits stored) (_boundary stored) ∧
    (_x_limits stored).1 ∈ (_boundary stored).*1 ∧
    (_x_limits stored).2 ∈ (_boundary stored).*1 ∧
    (_y_limits stored).1 ∈ (_boundary stored).*2 ∧
    (_y_limits stored).2 ∈ (_boundary stored).*2.
Proof.
  intros Hinit chosen stored.
  pose proof (lambert_init_cases transform u central_longitude central_latitude
                false_easting false_northing secant_latitudes standard_parallels cutoff)
    as Hcases.
  cbn zeta in Hcases. rewrite Hinit in Hcases. fold chosen in Hcases.
  destruct (_ && _); [done|]. case_bool_decide as Hlen; [|done].
  destruct Hcases as (poliest & points & _ & Hin & Hmax & Htie & Epoints & Hres).
  exists poliest. cbn zeta.
  set (plat := LambertConformal.pole_of poliest) in *.
  set (sweep := if decide (plat = int 90)
                then linspace (central_longitude + int 180 - decimal 1 3)
                              (central_longitude - int 180 + decimal 1 3) 91
                else linspace (central_longitude - int 180 + decimal 1 3)
                              (central_longitude + int 180 - decimal 1 3) 91) in *.
  assert (Hsweep : length sweep = 91) by (subst sweep; case_decide; apply linspace_length).
  unfold transform_points in Epoints.
  rewrite decide_True in Epoints
    by (cbn [length]; rewrite !length_app, length_replicate, Hsweep; done).
  apply Ok_inj in Epoints.
  assert (Hhead : head points = last points).
  { rewrite <- Epoints. rewrite !app_comm_cons.
    rewrite zip_with_app by (cbn [length]; rewrite length_replicate, Hsweep; done).
    cbn [zip_with]. by rewrite last_snoc. }
  assert (Hne : points ≠ []) by (by rewrite <- Epoints).
  match type of Hres with
  | context [store_boundary ?p _] =>
      destruct (store_boundary_spec p points Hne) as (st & Est & Hparams & Hb & Hinside & Hatt)
  end.
  rewrite Est in Hres. cbn [mbind outcome_bind] in Hres. injection Hres as ->.
  subst stored. cbn [LambertConformal.base].
  rewrite Hb, (LinearRing_of_closed points) in * by done.
  split_and!; try done; try apply Hatt.
  - apply pole_of_cases.
  - by rewrite Hparams.
  - rewrite <- Epoints. rewrite length_zip_with. cbn [length].
    rewrite !length_app, length_replicate, Hsweep. done.
  - subst sweep. destruct (decide (plat = int 90)).
    + destruct (linspace_decreasing (central_longitude + int 180 - decimal 1 3)
                  (central_longitude - int 180 + decimal 1 3) 91) as [Hrange _];
        [lia|qc_lra|].
      eapply Forall_impl; [exact Hrange|]. intros x [? ?]. split; qc_lra.
    + destruct (linspace_increasing (central_longitude - int 180 + decimal 1 3)
                  (central_longitude + int 180 - decimal 1 3) 91) as [Hrange _];
        [lia|qc_lra|].
      eapply Forall_impl; [exact Hrange|]. intros x [? ?]. split; qc_lra.
  - intros i j x y Hij Hi Hj. subst sweep. destruct (decide (plat = int 90)).
    + destruct (linspace_decreasing (central_longitude + int 180 - decimal 1 3)
                  (central_longitude - int 180 + decimal 1 3) 91) as [_ Hmono];
        [lia|qc_lra|]. by eapply Hmono.
    + destruct (linspace_increasing (central_longitude - int 180 + decimal 1 3)
                  (central_longitude + int 180 - decimal 1 3) 91) as [_ Hmono];
        [lia|qc_lra|]. by eapply Hmono.
Qed.

(** The default parallels (33, 45) on a system that leaves coordinates as
    they are. *)
Lemma lambert_conformal_boundary_sweep_witness :
  ∃ self,
    LambertConformal.__init__ (λ _ x y, (x, y)) (λ _, int 0) (int (-96)) (int 39)
      (int 0) (int 0) None None (int (-30)) = Ok self ∧
    length (_boundary (LambertConformal.base self)) = 93 ∧
    head (_boundary (LambertConformal.base self)) = Some (int 0, int 90).
Proof.
  destruct (LambertConformal.__init__ (λ _ x y, (x, y)) (λ _, int 0) (int (-96)) (int 39)
              (int 0) (int 0) None None (int (-30))) as [self| |] eqn:Einit;
    [|by vm_compute in Einit..].
  exists self. split; [done|].
  destruct (lambert_conformal_boundary_sweep _ _ _ _ _ _ _ _ _ _ Einit)
    as (poliest & Hin & _ & Htie & _ & Hring & Hlen & _).
  split; [exact Hlen|].
  cbn zeta in Hring. rewrite Hring.
  rewrite (Htie (int 33) (int 45) eq_refl). by vm_compute.
Defined.

(** ** [AlbersEqualArea] and [EquidistantConic] *)

Lemma conic_boundary_arrays_closed (u1 u2 : nat → Qc) (minlon maxlon : Qc) :
  conic_boundary_arrays u1 u2 minlon maxlon =
    Ok (linspace minlon maxlon 103 ++ rev (linspace minlon maxlon 103) ++ [minlon],
        replicate 103 (int 90) ++ replicate 103 (int (-90)) ++ [int 90]).
Proof.
  unfold conic_boundary_arrays. cbn zeta.
  set (tmp := linspace minlon maxlon 103).
  assert (Htmp : length tmp = 103) by apply linspace_length.
  assert (Hrev : length (rev tmp) = 103) by (by rewrite length_rev).
  change (2 * 103 + 1) with (103 + (103 + 1)).
  (* the first half of the longitudes *)
  assert (E1 : set_slice (np_empty u1 (103 + (103 + 1))) 0 103 tmp
               = Ok (tmp ++ (u1 <$> seq 103 (103 + 1)))).
  { assert (Hs := set_slice_next [] (np_empty u1 (103 + (103 + 1))) tmp).
    rewrite Htmp in Hs. specialize (Hs ltac:(unfold np_empty; rewrite length_fmap, length_seq; lia)).
    etrans; [exact Hs|]. reflexivity. }
  rewrite E1. cbn [mbind outcome_bind].
  (* the second half *)
  assert (E2 : set_slice (tmp ++ (u1 <$> seq 103 (103 + 1)))
                 103 (length (tmp ++ (u1 <$> seq 103 (103 + 1))) - 1) (rev tmp)
               = Ok (tmp ++ rev tmp ++ [u1 206])).
  { assert (Hs := set_slice_next tmp (u1 <$> seq 103 (103 + 1)) (rev tmp)).
    rewrite Hrev, Htmp in Hs. specialize (Hs ltac:(rewrite length_fmap, length_seq; lia)).
    replace (length (tmp ++ (u1 <$> seq 103 (103 + 1))) - 1) with (103 + 103)
      by (rewrite length_app, length_fmap, length_seq, Htmp; lia).
    etrans; [exact Hs|]. reflexivity. }
  rewrite E2. cbn [mbind outcome_bind].
  (* the latitudes *)
  assert (E3 : set_slice_scalar
                 (set_slice_scalar (np_empty u2 (103 + (103 + 1))) 0 103 (int 90)) 103
                 (length (set_slice_scalar (np_empty u2 (103 + (103 + 1))) 0 103 (int 90)) - 1)
                 (int (-90))
               = replicate 103 (int 90) ++ replicate 103 (int (-90)) ++ [u2 206])
    by (by vm_compute).
  rewrite E3.
  (* closing the loop *)
  assert (E4 : (tmp ++ rev tmp ++ [u1 206]) !! 0 = Some minlon).
  { pose proof (linspace_head minlon maxlon 102) as Hh. fold tmp in Hh.
    destruct tmp as [|t0 tmp']; [done|]. by injection Hh as ->. }
  rewrite E4. cbn [or_raise mbind outcome_bind].
  rewrite (app_assoc tmp), set_last_snoc. cbn [mbind outcome_bind].
  assert (E5 : (replicate 103 (int 90) ++ replicate 103 (int (-90)) ++ [u2 206]) !! 0
               = Some (int 90)) by done.
  rewrite E5. cbn [or_raise mbind outcome_bind].
  rewrite (app_assoc (replicate 103 (int 90))), set_last_snoc. cbn [mbind outcome_bind].
  by rewrite <- !app_assoc.
Qed.

Lemma append_standard_parallels_cases (params : list (string * pval))
    (standard_parallels : parallels_arg) :
  append_standard_parallels params standard_parallels =
    match standard_parallels with
    | NoParallels => Ok params
    | OneNumber latitude => Ok (params ++ [("lat_1", PNum latitude)])
    | Parallels [] => Raise IndexError
    | Parallels latitudes =>
        Ok (params ++ zip_with (λ name latitude, (name, PNum latitude))
                        ["lat_1"; "lat_2"] latitudes)
    end.
Proof.
  destruct standard_parallels as [|latitude|[|lat_1 [|lat_2 rest]]]; try done.
  - cbn. by rewrite <- app_assoc.
Qed.

(** Sampling and storing the boundary of a conic projection. *)
Lemma conic_sampling_spec (transform : list (string * pval) → Qc → Qc → coord)
    (u1 u2 : nat → Qc) (params : list (string * pval)) (lo hi : Qc) :
  (lo < hi)%Qc →
  ∃ self,
    ('(lons, lats) ← conic_boundary_arrays u1 u2 lo hi;
     points ← transform_points (transform params) lons lats;
     stored ← store_boundary params points;
     Ok (conic.new stored (int 100000))) = Ok (conic.new self (int 100000)) ∧
    proj4_params self = params ∧
    _boundary self =
      zip_with (transform params)
        (linspace lo hi 103 ++ rev (linspace lo hi 103) ++ [lo])
        (replicate 103 (int 90) ++ replicate 103 (int (-90)) ++ [int 90]) ∧
    length (_boundary self) = 207 ∧
    head (_boundary self) = last (_boundary self) ∧
    Forall (λ x, (lo ≤ x)%Qc ∧ (x ≤ hi)%Qc) (linspace lo hi 103) ∧
    Forall (inside_limits self) (_boundary self) ∧
    (_x_limits self).1 ∈ (_boundary self).*1 ∧ (_x_limits self).2 ∈ (_boundary self).*1 ∧
    (_y_limits self).1 ∈ (_boundary self).*2 ∧ (_y_limits self).2 ∈ (_boundary self).*2.
Proof.
  intros Hlt. rewrite conic_boundary_arrays_closed. cbn [mbind outcome_bind].
  assert (Hrange : Forall (λ x, (lo ≤ x)%Qc ∧ (x ≤ hi)%Qc) (linspace lo hi 103)).
  { apply linspace_increasing; [lia|exact Hlt]. }
  assert (Htmp : length (linspace lo hi 103) = 103) by apply linspace_length.
  assert (Hfirst : ∃ rest, linspace lo hi 103 = lo :: rest).
  { pose proof (linspace_head lo hi 102) as Hh.
    destruct (linspace lo hi 103) as [|t0 rest]; [discriminate Hh|].
    injection Hh as ->. by exists rest. }
  revert Hrange Htmp Hfirst. generalize (linspace lo hi 103). intros tmp Hrange Htmp Hfirst.
  assert (Hlen : length (tmp ++ rev tmp ++ [lo]) =
                 length (replicate 103 (int 90) ++ replicate 103 (int (-90)) ++ [int 90])).
  { rewrite !length_app, length_rev, !length_replicate, Htmp. reflexivity. }
  unfold transform_points. rewrite (decide_True _ _ Hlen).
  cbn [mbind outcome_bind].
  assert (Hhead : head (zip_with (transform params) (tmp ++ rev tmp ++ [lo])
                    (replicate 103 (int 90) ++ replicate 103 (int (-90)) ++ [int 90]))
                  = Some (transform params lo (int 90))).
  { destruct Hfirst as [rest ->]. reflexivity. }
  assert (Hlast : last (zip_with (transform params) (tmp ++ rev tmp ++ [lo])
                    (replicate 103 (int 90) ++ replicate 103 (int (-90)) ++ [int 90]))
                  = Some (transform params lo (int 90))).
  { rewrite !app_assoc.
    rewrite zip_with_app
      by (rewrite !length_app, length_rev, !length_replicate, Htmp; reflexivity).
    exact (last_snoc _ _). }
  assert (Hzip : length (zip_with (transform params) (tmp ++ rev tmp ++ [lo])
                    (replicate 103 (int 90) ++ replicate 103 (int (-90)) ++ [int 90])) = 207).
  { rewrite length_zip_with, <- Hlen, Nat.min_id.
    rewrite !length_app, length_rev, Htmp. reflexivity. }
  revert Hhead Hlast Hzip.
  generalize (zip_with (transform params) (tmp ++ rev tmp ++ [lo])
                (replicate 103 (int 90) ++ replicate 103 (int (-90)) ++ [int 90])).
  intros points Hhead Hlast Hzip.
  assert (Hclosed : LinearRing points = points).
  { apply LinearRing_of_closed. rewrite Hhead, Hlast. reflexivity. }
  assert (Hne : points ≠ []).
  { intros E. rewrite E in Hhead. discriminate Hhead. }
  destruct (store_boundary_spec params points Hne) as (self & -> & Hp & Hb & Hin & Hatt).
  cbn [mbind outcome_bind].
  exists self. rewrite Hb, Hclosed in *.
  split; [reflexivity|]. split; [exact Hp|]. split; [reflexivity|].
  split; [exact Hzip|]. split; [by rewrite Hhead, Hlast|].
  split; [exact Hrange|]. split; [exact Hin|exact Hatt].
Qed.

(** X16. [AlbersEqualArea.__init__] and [EquidistantConic.__init__] raise
    [IndexError] exactly when [standard_parallels] is an empty sequence (the
    [try] only guards against [TypeError]).  Otherwise they return: with
    [None] no parallel is passed on, with a number [lat_1] only, with a
    sequence its first element as [lat_1] and its second, if any, as
    [lat_2], further elements being ignored.  The boundary is the image,
    point by point, of 207 geodetic samples: along the parallel 90 from
    [minlon] to [maxlon] in 103 steps, back along the parallel -90, and the
    first sample again, so the ring is closed as built and every cell of the
    [np.empty] arrays is overwritten; the sampled longitudes lie between
    [minlon] and [maxlon]; the limits are the bounding box of the
    boundary; the threshold is 1e5. *)
Theorem conic_init_parallels_and_outline (proj : string)
    (transform : list (string * pval) → Qc → Qc → coord)
    (u1 u2 : nat → Qc)
    (central_longitude central_latitude false_easting false_northing : Qc)
    (standard_parallels : parallels_arg) :
  let result := conic__init__ proj transform u1 u2 central_longitude central_latitude
                  false_easting false_northing standard_parallels in
  let params :=
    [("proj", PStr proj); ("lon_0", PNum central_longitude);
     ("lat_0", PNum central_latitude); ("x_0", PNum false_easting);
     ("y_0", PNum false_northing)] ++
    match standard_parallels with
    | NoParallels => []
    | OneNumber latitude => [("lat_1", PNum latitude)]
    | Parallels latitudes =>
        zip_with (λ name latitude, (name, PNum latitude)) ["lat_1"; "lat_2"] latitudes
    end in
  let minlon := (_determine_longitude_bounds central_longitude).1 in
  let maxlon := (_determine_longitude_bounds central_longitude).2 in
  let tmp := linspace minlon maxlon 103 in
  AlbersEqualArea.__init__ = conic__init__ "aea" ∧
  EquidistantConic.__init__ = conic__init__ "eqdc" ∧
  (result = Raise IndexError ↔ standard_parallels = Parallels []) ∧
  (standard_parallels ≠ Parallels [] →
   ∃ self, result = Ok self ∧
     conic.threshold self = int 100000 ∧
     proj4_params (conic.base self) = params ∧
     _boundary (conic.base self) =
       zip_with (transform params) (tmp ++ rev tmp ++ [minlon])
         (replicate 103 (int 90) ++ replicate 103 (int (-90)) ++ [int 90]) ∧
     length (_boundary (conic.base self)) = 207 ∧
     head (_boundary (conic.base self)) = last (_boundary (conic.base self)) ∧
     Forall (λ x, (minlon ≤ x)%Qc ∧ (x ≤ maxlon)%Qc) tmp ∧
     Forall (inside_limits (conic.base self)) (_boundary (conic.base self)) ∧
     (_x_limits (conic.base self)).1 ∈ (_boundary (conic.base self)).*1 ∧
     (_x_limits (conic.base self)).2 ∈ (_boundary (conic.base self)).*1 ∧
     (_y_limits (conic.base self)).1 ∈ (_boundary (conic.base self)).*2 ∧
     (_y_limits (conic.base self)).2 ∈ (_boundary (conic.base self)).*2).
Proof.
  intros result params minlon maxlon tmp. split; [reflexivity|]. split; [reflexivity|].
  assert (Hlt : (minlon < maxlon)%Qc).
  { pose proof (longitude_bounds_facts central_longitude) as (H1 & H2 & H3 & H4).
    fold minlon maxlon in H1, H2, H3, H4. qc_lra. }
  subst result tmp params. unfold conic__init__. rewrite append_standard_parallels_cases.
  subst minlon maxlon.
  destruct (_determine_longitude_bounds central_longitude) as [lo hi]. cbn [fst snd] in *.
  destruct standard_parallels as [|latitude|[|lat_1 latitudes]]; cbn [mbind outcome_bind].
  3: { split; [split; reflexivity|]. intros Hne. by destruct Hne. }
  all: rewrite ?app_nil_r;
    match goal with
    | |- context [store_boundary ?given _] =>
        pose proof (conic_sampling_spec transform u1 u2 given lo hi Hlt)
          as (self & Hself & Hrest)
    end;
    (split;
     [split; [intros Hraise; rewrite Hself in Hraise; discriminate Hraise
             |intros E; discriminate E]
     |intros _; exists (conic.new self (int 100000));
      split; [exact Hself|split; [reflexivity|exact Hrest]]]).
Qed.


(** ** [InterruptedGoodeHomolosine] *)

Lemma set_slice_scalar_at (written rest : list Qc) (e f : nat) (v : Qc) :
  e = length written → e ≤ f → f - e ≤ length rest →
  set_slice_scalar (written ++ rest) e f v =
    written ++ replicate (f - e) v ++ drop (f - e) rest.
Proof.
  intros -> Hle Hn. replace f with (length written + (f - length written)) at 1 by lia.
  by apply set_slice_scalar_next.
Qed.

Lemma set_slice_at (written rest values : list Qc) (e f : nat) :
  e = length written → f = e + length values → length values ≤ length rest →
  set_slice (written ++ rest) e f values =
    Ok (written ++ values ++ drop (length values) rest).
Proof. intros -> -> Hn. by apply set_slice_next. Qed.

(** The cells one interruption writes. *)
Lemma interruption_spec (up : bool) (n : nat) (central_longitude : Qc)
    (lons_written lons_rest lats_written lats_rest : list Qc) (lon : Qc) :
  length lats_written = length lons_written →
  n + n ≤ length lons_rest → n + n ≤ length lats_rest →
  let pole := if up then int 90 else int (-90) in
  let first := if up then (lon - epsilon + central_longitude)%Qc
               else (lon + epsilon + central_longitude)%Qc in
  let second := if up then (lon + epsilon + central_longitude)%Qc
                else (lon - epsilon + central_longitude)%Qc in
  InterruptedGoodeHomolosine.interruption up n central_longitude
    (lons_written ++ lons_rest, lats_written ++ lats_rest, length lons_written) lon =
  Ok ((lons_written ++ replicate n first ++ replicate n second) ++ drop (n + n) lons_rest,
      (lats_written ++ linspace pole (int 0) n ++ linspace (int 0) pole n)
        ++ drop (n + n) lats_rest,
      length (lons_written ++ replicate n first ++ replicate n second)).
Proof.
  intros Hsame Hlons Hlats pole first second.
  unfold InterruptedGoodeHomolosine.interruption. fold pole first second.
  rewrite (set_slice_scalar_at lons_written lons_rest) by lia.
  rewrite (set_slice_at lats_written lats_rest)
    by (rewrite ?linspace_length; lia).
  cbn [mbind outcome_bind]. rewrite linspace_length.
  replace (length lons_written + n - length lons_written) with n by lia.
  rewrite (app_assoc lons_written (replicate n first)).
  rewrite (set_slice_scalar_at (lons_written ++ replicate n first))
    by (rewrite ?length_app, ?length_replicate, ?length_drop; lia).
  rewrite (app_assoc lats_written (linspace pole (int 0) n)).
  rewrite (set_slice_at (lats_written ++ linspace pole (int 0) n))
    by (rewrite ?length_app, ?linspace_length, ?length_drop; lia).
  cbn [mbind outcome_bind]. rewrite linspace_length.
  replace (length lons_written + n + n - (length lons_written + n)) with n by lia.
  rewrite !drop_drop. rewrite <- !app_assoc.
  do 2 f_equal. rewrite !length_app, !length_replicate. lia.
Qed.

Lemma interruptions_spec (up : bool) (n : nat) (central_longitude : Qc)
    (interrupted_lons : list Qc)
    (lons_written lons_rest lats_written lats_rest : list Qc) :
  length lats_written = length lons_written →
  (n + n) * length interrupted_lons ≤ length lons_rest →
  (n + n) * length interrupted_lons ≤ length lats_rest →
  let pole := if up then int 90 else int (-90) in
  let lons_block := mjoin ((λ lon,
    replicate n (if up then lon - epsilon + central_longitude
                 else lon + epsilon + central_longitude)%Qc ++
    replicate n (if up then lon + epsilon + central_longitude
                 else lon - epsilon + central_longitude)%Qc) <$> interrupted_lons) in
  let lats_block := mjoin ((λ _ : Qc,
    linspace pole (int 0) n ++ linspace (int 0) pole n) <$> interrupted_lons) in
  InterruptedGoodeHomolosine.interruptions up n central_longitude
    (lons_written ++ lons_rest, lats_written ++ lats_rest, length lons_written)
    interrupted_lons =
  Ok ((lons_written ++ lons_block) ++ drop ((n + n) * length interrupted_lons) lons_rest,
      (lats_written ++ lats_block) ++ drop ((n + n) * length interrupted_lons) lats_rest,
      length (lons_written ++ lons_block)) ∧
  length (lats_written ++ lats_block) = length (lons_written ++ lons_block).
Proof.
  revert lons_written lons_rest lats_written lats_rest.
  induction interrupted_lons as [|lon rest IH];
    intros lons_written lons_rest lats_written lats_rest Hsame Hlons Hlats; cbn zeta.
  - cbn [fmap list_fmap mjoin list_join InterruptedGoodeHomolosine.interruptions length].
    rewrite Nat.mul_0_r, !app_nil_r. cbn [drop]. done.
  - cbn [InterruptedGoodeHomolosine.interruptions length] in *.
    rewrite interruption_spec by lia. cbn [mbind outcome_bind].
    cbn zeta in IH.
    destruct (IH (lons_written ++ replicate n
                    (if up then lon - epsilon + central_longitude
                     else lon + epsilon + central_longitude)%Qc ++
                  replicate n
                    (if up then lon + epsilon + central_longitude
                     else lon - epsilon + central_longitude)%Qc)
                 (drop (n + n) lons_rest)
                 (lats_written ++ linspace (if up then int 90 else int (-90)) (int 0) n ++
                  linspace (int 0) (if up then int 90 else int (-90)) n)
                 (drop (n + n) lats_rest)) as [Hrun Hlen].
    { rewrite !length_app, !length_replicate, !linspace_length. lia. }
    { rewrite length_drop. lia. }
    { rewrite length_drop. lia. }
    rewrite Hrun. cbn [fmap list_fmap mjoin list_join].
    rewrite !drop_drop, <- !app_assoc. rewrite <- !app_assoc in Hlen.
    replace (n + n + (n + n) * length rest) with ((n + n) * S (length rest)) by lia.
    split; [reflexivity|exact Hlen].
Qed.

Lemma interruptions_spec_at (up : bool) (n : nat) (central_longitude : Qc)
    (interrupted_lons : list Qc)
    (lons_written lons_rest lats_written lats_rest : list Qc) (e : nat) :
  e = length lons_written →
  length lats_written = length lons_written →
  (n + n) * length interrupted_lons ≤ length lons_rest →
  (n + n) * length interrupted_lons ≤ length lats_rest →
  let pole := if up then int 90 else int (-90) in
  let lons_block := mjoin ((λ lon,
    replicate n (if up then lon - epsilon + central_longitude
                 else lon + epsilon + central_longitude)%Qc ++
    replicate n (if up then lon + epsilon + central_longitude
                 else lon - epsilon + central_longitude)%Qc) <$> interrupted_lons) in
  let lats_block := mjoin ((λ _ : Qc,
    linspace pole (int 0) n ++ linspace (int 0) pole n) <$> interrupted_lons) in
  InterruptedGoodeHomolosine.interruptions up n central_longitude
    (lons_written ++ lons_rest, lats_written ++ lats_rest, e) interrupted_lons =
  Ok ((lons_written ++ lons_block) ++ drop ((n + n) * length interrupted_lons) lons_rest,
      (lats_written ++ lats_block) ++ drop ((n + n) * length interrupted_lons) lats_rest,
      length (lons_written ++ lons_block)) ∧
  length (lats_written ++ lats_block) = length (lons_written ++ lons_block).
Proof. intros ->. apply interruptions_spec. Qed.

Lemma drop_to_last_cell {A} (l : list A) (k : nat) :
  length l = k + 1 → ∃ x, drop k l = [x].
Proof.
  intros Hl. assert (Hd : length (drop k l) = 1) by (rewrite length_drop; lia).
  destruct (drop k l) as [|x [|y rest]]; [discriminate Hd| |discriminate Hd]. by exists x.
Qed.

Lemma np_empty_length (u : nat → Qc) (n : nat) : length (np_empty u n) = n.
Proof. unfold np_empty. by rewrite length_fmap, length_seq. Qed.

(** The arrays handed to [transform_points]: every cell of the two
    [np.empty] arrays has been written. *)
Lemma igh_boundary_arrays_closed (u1 u2 : nat → Qc) (central_longitude minlon maxlon : Qc)
    (tops bottoms : list Qc) :
  InterruptedGoodeHomolosine.boundary_arrays u1 u2 central_longitude minlon maxlon
    tops bottoms =
  Ok (replicate 31 minlon ++
      mjoin ((λ lon, replicate 31 (lon - epsilon + central_longitude)%Qc ++
                     replicate 31 (lon + epsilon + central_longitude)%Qc) <$> tops) ++
      replicate 31 maxlon ++
      mjoin ((λ lon, replicate 31 (lon + epsilon + central_longitude)%Qc ++
                     replicate 31 (lon - epsilon + central_longitude)%Qc) <$> bottoms) ++
      [minlon],
      linspace (int (-90)) (int 90) 31 ++
      mjoin ((λ _ : Qc, linspace (int 90) (int 0) 31 ++ linspace (int 0) (int 90) 31)
               <$> tops) ++
      linspace (int 90) (int (-90)) 31 ++
      mjoin ((λ _ : Qc, linspace (int (-90)) (int 0) 31 ++ linspace (int 0) (int (-90)) 31)
               <$> bottoms) ++
      [int (-90)]).
Proof.
  unfold InterruptedGoodeHomolosine.boundary_arrays. cbn zeta. rewrite length_app.
  pose proof (np_empty_length u1 ((2 + 2 * (length tops + length bottoms)) * 31 + 1)) as H1.
  pose proof (np_empty_length u2 ((2 + 2 * (length tops + length bottoms)) * 31 + 1)) as H2.
  revert H1 H2.
  generalize (np_empty u1 ((2 + 2 * (length tops + length bottoms)) * 31 + 1))
             (np_empty u2 ((2 + 2 * (length tops + length bottoms)) * 31 + 1)).
  intros lons0 lats0 H1 H2.
  (* left boundary *)
  assert (E1 : set_slice_scalar lons0 0 (0 + 31) minlon
               = replicate 31 minlon ++ drop 31 lons0).
  { apply (set_slice_scalar_at [] lons0 0 (0 + 31)); cbn [length]; lia. }
  assert (E2 : set_slice lats0 0 (0 + 31) (linspace (int (-90)) (int 90) 31)
               = Ok (linspace (int (-90)) (int 90) 31 ++ drop 31 lats0)).
  { rewrite <- (linspace_length (int (-90)) (int 90) 31) at 3.
    apply (set_slice_at [] lats0); rewrite ?linspace_length; cbn [length]; lia. }
  rewrite E1, E2. cbn [mbind outcome_bind]. change (0 + 31) with 31.
  (* top boundary *)
  destruct (interruptions_spec_at true 31 central_longitude tops
              (replicate 31 minlon) (drop 31 lons0)
              (linspace (int (-90)) (int 90) 31) (drop 31 lats0) 31) as [Htop Htoplen].
  { by rewrite length_replicate. }
  { by rewrite linspace_length, length_replicate. }
  { rewrite length_drop. lia. }
  { rewrite length_drop. lia. }
  rewrite Htop. cbn [mbind outcome_bind].
  (* right boundary *)
  rewrite set_slice_scalar_next by (rewrite !length_drop; lia).
  rewrite set_slice_at
    by (rewrite ?linspace_length, ?length_drop; first [exact (eq_sym Htoplen)|lia]).
  cbn [mbind outcome_bind]. rewrite linspace_length.
  (* bottom boundary *)
  rewrite (app_assoc (replicate 31 minlon ++ _) (replicate 31 maxlon)).
  rewrite (app_assoc (linspace (int (-90)) (int 90) 31 ++ _)
             (linspace (int 90) (int (-90)) 31)).
  destruct (interruptions_spec_at false 31 central_longitude bottoms
              ((replicate 31 minlon ++
                mjoin ((λ lon, replicate 31 (lon - epsilon + central_longitude)%Qc ++
                               replicate 31 (lon + epsilon + central_longitude)%Qc)
                         <$> tops)) ++ replicate 31 maxlon)
              (drop 31 (drop ((31 + 31) * length tops) (drop 31 lons0)))
              ((linspace (int (-90)) (int 90) 31 ++
                mjoin ((λ _ : Qc, linspace (int 90) (int 0) 31 ++
                                  linspace (int 0) (int 90) 31) <$> tops)) ++
               linspace (int 90) (int (-90)) 31)
              (drop 31 (drop ((31 + 31) * length tops) (drop 31 lats0)))
              (length (replicate 31 minlon ++
                mjoin ((λ lon, replicate 31 (lon - epsilon + central_longitude)%Qc ++
                               replicate 31 (lon + epsilon + central_longitude)%Qc)
                         <$> tops)) + 31)) as [Hbottom Hbottomlen].
  { rewrite (length_app (_ ++ _) (replicate 31 maxlon)), (length_replicate 31 maxlon).
    reflexivity. }
  { rewrite (length_app (_ ++ _) (replicate 31 maxlon)), (length_replicate 31 maxlon).
    rewrite (length_app (_ ++ _) (linspace _ _ 31)), linspace_length.
    cbn zeta in Htoplen. rewrite Htoplen. reflexivity. }
  { rewrite !length_drop. lia. }
  { rewrite !length_drop. lia. }
  rewrite Hbottom. cbn [mbind outcome_bind].
  (* closing the loop *)
  rewrite !drop_drop.
  destruct (drop_to_last_cell lons0
              (31 + ((31 + 31) * length tops + (31 + (31 + 31) * length bottoms))))
    as [x1 ->]; [lia|].
  destruct (drop_to_last_cell lats0
              (31 + ((31 + 31) * length tops + (31 + (31 + 31) * length bottoms))))
    as [x2 ->]; [lia|].
  rewrite !set_last_snoc. cbn [mbind outcome_bind].
  rewrite <- !app_assoc. reflexivity.
Qed.

Lemma length_join_blocks {A B} (f : A → list B) (k : nat) (l : list A) :
  (∀ x, length (f x) = k) → length (mjoin (f <$> l)) = k * length l.
Proof.
  intros Hk. induction l as [|x l IH]; [cbn; lia|].
  change (mjoin (f <$> x :: l)) with (f x ++ mjoin (f <$> l)).
  rewrite length_app, Hk, IH. cbn [length]. lia.
Qed.

Lemma Forall_join_blocks {A B} (P : B → Prop) (f : A → list B) (l : list A) :
  Forall (λ x, Forall P (f x)) l → Forall P (mjoin (f <$> l)).
Proof.
  induction 1 as [|x l Hx Hl IH]; [constructor|].
  change (mjoin (f <$> x :: l)) with (f x ++ mjoin (f <$> l)).
  apply Forall_app. split; [exact Hx|exact IH].
Qed.

(** The sampled geodetic points lie within the longitude bounds when the
    interruptions do, and within the latitudes -90..90. *)
Lemma igh_samples_in_range (central_longitude lo hi : Qc) (tops bottoms : list Qc) :
  (lo ≤ hi)%Qc →
  Forall (λ lon, (lo ≤ lon - epsilon + central_longitude)%Qc ∧
                 (lon + epsilon + central_longitude ≤ hi)%Qc) (tops ++ bottoms) →
  Forall (λ x, (lo ≤ x)%Qc ∧ (x ≤ hi)%Qc)
    (replicate 31 lo ++
     mjoin ((λ lon, replicate 31 (lon - epsilon + central_longitude)%Qc ++
                    replicate 31 (lon + epsilon + central_longitude)%Qc) <$> tops) ++
     replicate 31 hi ++
     mjoin ((λ lon, replicate 31 (lon + epsilon + central_longitude)%Qc ++
                    replicate 31 (lon - epsilon + central_longitude)%Qc) <$> bottoms) ++
     [lo]) ∧
  Forall (λ y, (int (-90) ≤ y)%Qc ∧ (y ≤ int 90)%Qc)
    (linspace (int (-90)) (int 90) 31 ++
     mjoin ((λ _ : Qc, linspace (int 90) (int 0) 31 ++ linspace (int 0) (int 90) 31)
              <$> tops) ++
     linspace (int 90) (int (-90)) 31 ++
     mjoin ((λ _ : Qc, linspace (int (-90)) (int 0) 31 ++ linspace (int 0) (int (-90)) 31)
              <$> bottoms) ++
     [int (-90)]).
Proof.
  intros Hle [Htops Hbottoms]%Forall_app.
  assert (Hinner : ∀ lon,
            (lo ≤ lon - epsilon + central_longitude)%Qc ∧
            (lon + epsilon + central_longitude ≤ hi)%Qc →
            ((lo ≤ lon - epsilon + central_longitude)%Qc ∧
             (lon - epsilon + central_longitude ≤ hi)%Qc) ∧
            ((lo ≤ lon + epsilon + central_longitude)%Qc ∧
             (lon + epsilon + central_longitude ≤ hi)%Qc)).
  { intros lon [H1 H2]. split_and!; qc_lra. }
  assert (H90 : Forall (λ y, (int (-90) ≤ y)%Qc ∧ (y ≤ int 90)%Qc)
                  (linspace (int (-90)) (int 90) 31)).
  { apply linspace_increasing; [lia|by apply int_lt]. }
  assert (H90' : Forall (λ y, (int (-90) ≤ y)%Qc ∧ (y ≤ int 90)%Qc)
                   (linspace (int 90) (int (-90)) 31)).
  { apply linspace_decreasing; [lia|by apply int_lt]. }
  assert (Hwiden : ∀ a b l,
            (int (-90) ≤ a)%Qc → (b ≤ int 90)%Qc →
            Forall (λ y, (a ≤ y)%Qc ∧ (y ≤ b)%Qc) l →
            Forall (λ y, (int (-90) ≤ y)%Qc ∧ (y ≤ int 90)%Qc) l).
  { intros a b l Ha Hb Hl. eapply Forall_impl; [exact Hl|]. intros y [H1 H2].
    split; [exact (Qcle_trans _ _ _ Ha H1)|exact (Qcle_trans _ _ _ H2 Hb)]. }
  assert (Hup1 : Forall (λ y, (int (-90) ≤ y)%Qc ∧ (y ≤ int 90)%Qc)
                   (linspace (int 90) (int 0) 31)).
  { apply (Hwiden (int 0) (int 90)); [by apply int_le|by apply int_le|].
    apply linspace_decreasing; [lia|by apply int_lt]. }
  assert (Hup2 : Forall (λ y, (int (-90) ≤ y)%Qc ∧ (y ≤ int 90)%Qc)
                   (linspace (int 0) (int 90) 31)).
  { apply (Hwiden (int 0) (int 90)); [by apply int_le|by apply int_le|].
    apply linspace_increasing; [lia|by apply int_lt]. }
  assert (Hdown1 : Forall (λ y, (int (-90) ≤ y)%Qc ∧ (y ≤ int 90)%Qc)
                     (linspace (int (-90)) (int 0) 31)).
  { apply (Hwiden (int (-90)) (int 0)); [by apply int_le|by apply int_le|].
    apply linspace_increasing; [lia|by apply int_lt]. }
  assert (Hdown2 : Forall (λ y, (int (-90) ≤ y)%Qc ∧ (y ≤ int 90)%Qc)
                     (linspace (int 0) (int (-90)) 31)).
  { apply (Hwiden (int (-90)) (int 0)); [by apply int_le|by apply int_le|].
    apply linspace_decreasing; [lia|by apply int_lt]. }
  split.
  - repeat (apply Forall_app; split).
    + apply Forall_replicate. split; [reflexivity|exact Hle].
    + apply Forall_join_blocks. eapply Forall_impl; [exact Htops|].
      intros lon Hlon. destruct (Hinner lon Hlon) as [Ha Hb].
      apply Forall_app. split; by apply Forall_replicate.
    + apply Forall_replicate. split; [exact Hle|reflexivity].
    + apply Forall_join_blocks. eapply Forall_impl; [exact Hbottoms|].
      intros lon Hlon. destruct (Hinner lon Hlon) as [Ha Hb].
      apply Forall_app. split; by apply Forall_replicate.
    + apply Forall_singleton. split; [reflexivity|exact Hle].
  - repeat (apply Forall_app; split).
    + exact H90.
    + apply Forall_join_blocks, Forall_forall. intros _ _.
      apply Forall_app. split; [exact Hup1|exact Hup2].
    + exact H90'.
    + apply Forall_join_blocks, Forall_forall. intros _ _.
      apply Forall_app. split; [exact Hdown1|exact Hdown2].
    + apply Forall_singleton. split; [reflexivity|by apply int_le].
Qed.

Lemma igh_sampling_spec (transform : list (string * pval) → Qc → Qc → coord)
    (u1 u2 : nat → Qc) (params : list (string * pval)) (central_longitude lo hi : Qc)
    (tops bottoms : list Qc) :
  ∃ self,
    ('(lons, lats) ← InterruptedGoodeHomolosine.boundary_arrays u1 u2 central_longitude
                       lo hi tops bottoms;
     points ← transform_points (transform params) lons lats;
     stored ← store_boundary params points;
     Ok (InterruptedGoodeHomolosine.new stored (int 20000))) =
      Ok (InterruptedGoodeHomolosine.new self (int 20000)) ∧
    proj4_params self = params ∧
    _boundary self =
      zip_with (transform params)
        (replicate 31 lo ++
         mjoin ((λ lon, replicate 31 (lon - epsilon + central_longitude)%Qc ++
                        replicate 31 (lon + epsilon + central_longitude)%Qc) <$> tops) ++
         replicate 31 hi ++
         mjoin ((λ lon, replicate 31 (lon + epsilon + central_longitude)%Qc ++
                        replicate 31 (lon - epsilon + central_longitude)%Qc) <$> bottoms) ++
         [lo])
        (linspace (int (-90)) (int 90) 31 ++
         mjoin ((λ _ : Qc, linspace (int 90) (int 0) 31 ++ linspace (int 0) (int 90) 31)
                  <$> tops) ++
         linspace (int 90) (int (-90)) 31 ++
         mjoin ((λ _ : Qc, linspace (int (-90)) (int 0) 31 ++
                           linspace (int 0) (int (-90)) 31) <$> bottoms) ++
         [int (-90)]) ∧
    length (_boundary self) = (2 + 2 * (length tops + length bottoms)) * 31 + 1 ∧
    head (_boundary self) = last (_boundary self) ∧
    Forall (inside_limits self) (_boundary self) ∧
    (_x_limits self).1 ∈ (_boundary self).*1 ∧ (_x_limits self).2 ∈ (_boundary self).*1 ∧
    (_y_limits self).1 ∈ (_boundary self).*2 ∧ (_y_limits self).2 ∈ (_boundary self).*2.
Proof.
  rewrite igh_boundary_arrays_closed. cbn [mbind outcome_bind].
  assert (Hfirst : ∃ rest, linspace (int (-90)) (int 90) 31 = int (-90) :: rest).
  { pose proof (linspace_head (int (-90)) (int 90) 30) as Hh.
    destruct (linspace (int (-90)) (int 90) 31) as [|t0 rest]; [discriminate Hh|].
    injection Hh as ->. by exists rest. }
  assert (Hleft : length (linspace (int (-90)) (int 90) 31) = 31) by apply linspace_length.
  assert (Hright : length (linspace (int 90) (int (-90)) 31) = 31) by apply linspace_length.
  revert Hfirst Hleft Hright.
  generalize (linspace (int (-90)) (int 90) 31) (linspace (int 90) (int (-90)) 31).
  intros left right Hfirst Hleft Hright.
  assert (Htops : length (mjoin ((λ _ : Qc, linspace (int 90) (int 0) 31 ++
                                            linspace (int 0) (int 90) 31) <$> tops))
                  = 62 * length tops).
  { apply length_join_blocks. intros _. by rewrite length_app, !linspace_length. }
  assert (Hbottoms : length (mjoin ((λ _ : Qc, linspace (int (-90)) (int 0) 31 ++
                                               linspace (int 0) (int (-90)) 31) <$> bottoms))
                     = 62 * length bottoms).
  { apply length_join_blocks. intros _. by rewrite length_app, !linspace_length. }
  revert Htops Hbottoms.
  generalize (mjoin ((λ _ : Qc, linspace (int 90) (int 0) 31 ++
                                linspace (int 0) (int 90) 31) <$> tops))
             (mjoin ((λ _ : Qc, linspace (int (-90)) (int 0) 31 ++
                                linspace (int 0) (int (-90)) 31) <$> bottoms)).
  intros top_lats bottom_lats Htops Hbottoms.
  assert (Htops' : length (mjoin ((λ lon,
                      replicate 31 (lon - epsilon + central_longitude)%Qc ++
                      replicate 31 (lon + epsilon + central_longitude)%Qc) <$> tops))
                   = 62 * length tops).
  { apply length_join_blocks. intros lon. by rewrite length_app, !length_replicate. }
  assert (Hbottoms' : length (mjoin ((λ lon,
                         replicate 31 (lon + epsilon + central_longitude)%Qc ++
                         replicate 31 (lon - epsilon + central_longitude)%Qc) <$> bottoms))
                      = 62 * length bottoms).
  { apply length_join_blocks. intros lon. by rewrite length_app, !length_replicate. }
  revert Htops' Hbottoms'.
  generalize (mjoin ((λ lon, replicate 31 (lon - epsilon + central_longitude)%Qc ++
                             replicate 31 (lon + epsilon + central_longitude)%Qc) <$> tops))
             (mjoin ((λ lon, replicate 31 (lon + epsilon + central_longitude)%Qc ++
                             replicate 31 (lon - epsilon + central_longitude)%Qc)
                       <$> bottoms)).
  intros top_lons bottom_lons Htops' Hbottoms'.
  assert (Hlen : length (replicate 31 lo ++ top_lons ++ replicate 31 hi ++ bottom_lons ++ [lo])
                 = length (left ++ top_lats ++ right ++ bottom_lats ++ [int (-90)])).
  { rewrite !length_app, !length_replicate, Hleft, Hright, Htops, Hbottoms, Htops', Hbottoms'.
    reflexivity. }
  unfold transform_points. rewrite (decide_True _ _ Hlen). cbn [mbind outcome_bind].
  assert (Hhead : head (zip_with (transform params)
                    (replicate 31 lo ++ top_lons ++ replicate 31 hi ++ bottom_lons ++ [lo])
                    (left ++ top_lats ++ right ++ bottom_lats ++ [int (-90)]))
                  = Some (transform params lo (int (-90)))).
  { destruct Hfirst as [rest ->]. reflexivity. }
  assert (Hlast : last (zip_with (transform params)
                    (replicate 31 lo ++ top_lons ++ replicate 31 hi ++ bottom_lons ++ [lo])
                    (left ++ top_lats ++ right ++ bottom_lats ++ [int (-90)]))
                  = Some (transform params lo (int (-90)))).
  { rewrite !app_assoc.
    rewrite zip_with_app
      by (rewrite !length_app, !length_replicate, Hleft, Hright, Htops, Hbottoms,
            Htops', Hbottoms'; reflexivity).
    exact (last_snoc _ _). }
  assert (Hzip : length (zip_with (transform params)
                   (replicate 31 lo ++ top_lons ++ replicate 31 hi ++ bottom_lons ++ [lo])
                   (left ++ top_lats ++ right ++ bottom_lats ++ [int (-90)]))
                 = (2 + 2 * (length tops + length bottoms)) * 31 + 1).
  { rewrite length_zip_with, <- Hlen, Nat.min_id.
    rewrite !length_app, !length_replicate, Htops', Hbottoms'. cbn [length]. lia. }
  revert Hhead Hlast Hzip.
  generalize (zip_with (transform params)
                (replicate 31 lo ++ top_lons ++ replicate 31 hi ++ bottom_lons ++ [lo])
                (left ++ top_lats ++ right ++ bottom_lats ++ [int (-90)])).
  intros points Hhead Hlast Hzip.
  assert (Hclosed : LinearRing points = points).
  { apply LinearRing_of_closed. rewrite Hhead, Hlast. reflexivity. }
  assert (Hne : points ≠ []).
  { intros E. rewrite E in Hhead. discriminate Hhead. }
  destruct (store_boundary_spec params points Hne) as (self & -> & Hp & Hb & Hin & Hatt).
  cbn [mbind outcome_bind].
  exists self. rewrite Hb, Hclosed in *.
  split; [reflexivity|]. split; [exact Hp|]. split; [reflexivity|].
  split; [exact Hzip|]. split; [by rewrite Hhead, Hlast|].
  split; [exact Hin|exact Hatt].
Qed.

(** X17. [InterruptedGoodeHomolosine.__init__] raises [ValueError] exactly
    when [emphasis] is neither 'land' nor 'ocean', or is 'ocean' while
    [PROJ4_VERSION] is below (7, 1, 0).  Otherwise it returns, with threshold
    2e4 and projection name 'igh' for land, 'igh_o' for ocean.  The boundary
    is the image, point by point, of 311 geodetic samples that do not depend
    on what [np.empty] held: up the left edge at [minlon], down to the
    equator and back up on either side of each top interruption, down the
    right edge at [maxlon], up to the equator and back down on either side
    of each bottom interruption, and the first sample again, so the ring is
    closed as built.  Every sampled longitude lies between [minlon] and
    [maxlon], every sampled latitude between -90 and 90, and the limits are
    the bounding box of the boundary. *)
Theorem igh_init_emphasis_and_outline (PROJ4_VERSION : list nat)
    (transform : list (string * pval) → Qc → Qc → coord)
    (u1 u2 : nat → Qc) (central_longitude : Qc) (emphasis : string) :
  let result := InterruptedGoodeHomolosine.__init__ PROJ4_VERSION transform u1 u2
                  central_longitude emphasis in
  let land := bool_decide (emphasis = "land") in
  let params := [("proj", PStr (if land then "igh" else "igh_o"));
                 ("lon_0", PNum central_longitude)] in
  let minlon := (_determine_longitude_bounds central_longitude).1 in
  let maxlon := (_determine_longitude_bounds central_longitude).2 in
  let tops := if land then [int (-40)] else [int (-90); int 60] in
  let bottoms := if land then [int 80; int (-20); int (-100)] else [int 90; int (-60)] in
  let lons :=
    replicate 31 minlon ++
    mjoin ((λ lon, replicate 31 (lon - epsilon + central_longitude)%Qc ++
                   replicate 31 (lon + epsilon + central_longitude)%Qc) <$> tops) ++
    replicate 31 maxlon ++
    mjoin ((λ lon, replicate 31 (lon + epsilon + central_longitude)%Qc ++
                   replicate 31 (lon - epsilon + central_longitude)%Qc) <$> bottoms) ++
    [minlon] in
  let lats :=
    linspace (int (-90)) (int 90) 31 ++
    mjoin ((λ _ : Qc, linspace (int 90) (int 0) 31 ++ linspace (int 0) (int 90) 31)
             <$> tops) ++
    linspace (int 90) (int (-90)) 31 ++
    mjoin ((λ _ : Qc, linspace (int (-90)) (int 0) 31 ++ linspace (int 0) (int (-90)) 31)
             <$> bottoms) ++
    [int (-90)] in
  (result = Raise ValueError ↔
     emphasis ≠ "land" ∧
     (emphasis = "ocean" → InterruptedGoodeHomolosine.version_lt PROJ4_VERSION [7; 1; 0] = true)) ∧
  (emphasis = "land" ∨
   (emphasis = "ocean" ∧
    InterruptedGoodeHomolosine.version_lt PROJ4_VERSION [7; 1; 0] = false) →
   ∃ self, result = Ok self ∧
     InterruptedGoodeHomolosine.threshold self = int 20000 ∧
     proj4_params (InterruptedGoodeHomolosine.base self) = params ∧
     _boundary (InterruptedGoodeHomolosine.base self) =
       zip_with (transform params) lons lats ∧
     length (_boundary (InterruptedGoodeHomolosine.base self)) = 311 ∧
     head (_boundary (InterruptedGoodeHomolosine.base self)) =
       last (_boundary (InterruptedGoodeHomolosine.base self)) ∧
     Forall (λ x, (minlon ≤ x)%Qc ∧ (x ≤ maxlon)%Qc) lons ∧
     Forall (λ y, (int (-90) ≤ y)%Qc ∧ (y ≤ int 90)%Qc) lats ∧
     Forall (inside_limits (InterruptedGoodeHomolosine.base self))
       (_boundary (InterruptedGoodeHomolosine.base self)) ∧
     (_x_limits (InterruptedGoodeHomolosine.base self)).1
       ∈ (_boundary (InterruptedGoodeHomolosine.base self)).*1 ∧
     (_x_limits (InterruptedGoodeHomolosine.base self)).2
       ∈ (_boundary (InterruptedGoodeHomolosine.base self)).*1 ∧
     (_y_limits (InterruptedGoodeHomolosine.base self)).1
       ∈ (_boundary (InterruptedGoodeHomolosine.base self)).*2 ∧
     (_y_limits (InterruptedGoodeHomolosine.base self)).2
       ∈ (_boundary (InterruptedGoodeHomolosine.base self)).*2).
Proof.
  intros result land params minlon maxlon tops bottoms lons lats.
  assert (Hrange : Forall (λ x, (minlon ≤ x)%Qc ∧ (x ≤ maxlon)%Qc) lons ∧
                   Forall (λ y, (int (-90) ≤ y)%Qc ∧ (y ≤ int 90)%Qc) lats).
  { pose proof (longitude_bounds_facts central_longitude) as (B1 & B2 & B3 & B4).
    cbn zeta in B1, B2, B3, B4. fold minlon maxlon in B1, B2, B3, B4.
    apply igh_samples_in_range; [qc_lra|].
    subst tops bottoms land. case_bool_decide; cbn [app];
      repeat (apply Forall_cons; split; [split; qc_lra|]); apply Forall_nil_2. }
  revert Hrange. subst result lons lats tops bottoms params land minlon maxlon.
  unfold InterruptedGoodeHomolosine.__init__.
  destruct (_determine_longitude_bounds central_longitude) as [lo hi]. cbn [fst snd].
  intros [Hlons Hlats].
  destruct (decide (emphasis = "land")) as [Hland|Hland].
  - rewrite (bool_decide_eq_true_2 _ Hland) in Hlons, Hlats |- *. cbn [mbind outcome_bind].
    destruct (igh_sampling_spec transform u1 u2
                [("proj", PStr "igh"); ("lon_0", PNum central_longitude)]
                central_longitude lo hi
                [int (-40)] [int 80; int (-20); int (-100)])
      as (self & Hself & Hp & Hb & Hlen & Hclosed & Hin & Hatt).
    rewrite Hself. split.
    + split; [intros E; discriminate E|intros [Hne _]; by destruct Hne].
    + intros _. exists (InterruptedGoodeHomolosine.new self (int 20000)).
      cbn [InterruptedGoodeHomolosine.base InterruptedGoodeHomolosine.threshold].
      split; [reflexivity|]. split; [reflexivity|]. split; [exact Hp|].
      split; [exact Hb|]. split; [exact Hlen|]. split; [exact Hclosed|].
      split; [exact Hlons|]. split; [exact Hlats|]. split; [exact Hin|exact Hatt].
  - rewrite (bool_decide_eq_false_2 _ Hland) in Hlons, Hlats |- *.
    destruct (decide (emphasis = "ocean")) as [Hocean|Hocean].
    + destruct (InterruptedGoodeHomolosine.version_lt PROJ4_VERSION [7; 1; 0]) eqn:Hversion;
        cbn [mbind outcome_bind].
      * split; [split; [intros _; split; [exact Hland|reflexivity]|reflexivity]|].
        intros [Hl|[_ Hv]]; [by destruct Hland|discriminate Hv].
      * destruct (igh_sampling_spec transform u1 u2
                    [("proj", PStr "igh_o"); ("lon_0", PNum central_longitude)]
                    central_longitude lo hi
                    [int (-90); int 60] [int 90; int (-60)])
          as (self & Hself & Hp & Hb & Hlen & Hclosed & Hin & Hatt).
        rewrite Hself. split.
        -- split; [intros E; discriminate E|].
           intros [_ Hv]. specialize (Hv Hocean). discriminate Hv.
        -- intros _. exists (InterruptedGoodeHomolosine.new self (int 20000)).
           cbn [InterruptedGoodeHomolosine.base InterruptedGoodeHomolosine.threshold].
           split; [reflexivity|]. split; [reflexivity|]. split; [exact Hp|].
           split; [exact Hb|]. split; [exact Hlen|]. split; [exact Hclosed|].
           split; [exact Hlons|]. split; [exact Hlats|]. split; [exact Hin|exact Hatt].
    + cbn [mbind outcome_bind]. split.
      * split; [intros _; split; [exact Hland|intros Ho; by destruct Hocean]|reflexivity].
      * intros [Hl|[Ho _]]; [by destruct Hland|by destruct Hocean].
Qed.

(** ** [Sinusoidal] *)

Lemma Qcabs_cases (x : Qc) :
  ((0 ≤ x)%Qc ∧ Qcabs x = x) ∨ ((x < 0)%Qc ∧ Qcabs x = (- x)%Qc).
Proof.
  destruct (decide (0 ≤ x)%Qc) as [Hx|Hx].
  - left. split; [exact Hx|by apply Qcabs_pos].
  - right. apply Qcnot_le_lt in Hx. split; [exact Hx|]. apply Qcabs_neg. by apply Qclt_le_weak.
Qed.

(** The largest absolute value among the four limits bounds every
    coordinate of a boundary lying within the limits, and is the absolute
    value of a coordinate when the limits are attained. *)
Lemma largest_limit_spec (self : sampled) :
  Forall (inside_limits self) (_boundary self) →
  (_x_limits self).1 ∈ (_boundary self).*1 → (_x_limits self).2 ∈ (_boundary self).*1 →
  (_y_limits self).1 ∈ (_boundary self).*2 → (_y_limits self).2 ∈ (_boundary self).*2 →
  let largest := Qc_max (Qc_max (Qcabs (_x_limits self).1) (Qcabs (_x_limits self).2))
                        (Qc_max (Qcabs (_y_limits self).1) (Qcabs (_y_limits self).2)) in
  (0 ≤ largest)%Qc ∧
  Forall (λ v, (Qcabs v.1 ≤ largest)%Qc ∧ (Qcabs v.2 ≤ largest)%Qc) (_boundary self) ∧
  ∃ v, v ∈ _boundary self ∧ (Qcabs v.1 = largest ∨ Qcabs v.2 = largest).
Proof.
  intros Hin Hx1 Hx2 Hy1 Hy2 largest.
  assert (Hbound : (Qcabs (_x_limits self).1 ≤ largest)%Qc ∧
                   (Qcabs (_x_limits self).2 ≤ largest)%Qc ∧
                   (Qcabs (_y_limits self).1 ≤ largest)%Qc ∧
                   (Qcabs (_y_limits self).2 ≤ largest)%Qc).
  { assert (Hl : (largest ≤ largest)%Qc) by reflexivity.
    unfold largest at 1 in Hl. rewrite !Qc_max_le_iff in Hl. tauto. }
  destruct Hbound as (L1 & L2 & L3 & L4).
  split; [|split].
  - exact (Qcle_trans _ _ _ (Qcabs_nonneg _) L1).
  - eapply Forall_impl; [exact Hin|]. intros v (I1 & I2 & I3 & I4).
    cbn [get_x_limits get_y_limits sampled_members] in I1, I2, I3, I4.
    revert L1 L2 L3 L4. generalize largest. intros m L1 L2 L3 L4.
    destruct (Qcabs_cases v.1) as [[? ->]|[? ->]], (Qcabs_cases v.2) as [[? ->]|[? ->]],
      (Qcabs_cases (_x_limits self).1) as [[? E1]|[? E1]],
      (Qcabs_cases (_x_limits self).2) as [[? E2]|[? E2]],
      (Qcabs_cases (_y_limits self).1) as [[? E3]|[? E3]],
      (Qcabs_cases (_y_limits self).2) as [[? E4]|[? E4]];
      rewrite E1 in L1; rewrite E2 in L2; rewrite E3 in L3; rewrite E4 in L4;
      split; qc_lra.
  - assert (Hcol1 : ∀ q, q ∈ (_boundary self).*1 → ∃ v, v ∈ _boundary self ∧ v.1 = q).
    { intros q (v & -> & Hv)%list_elem_of_fmap. by exists v. }
    assert (Hcol2 : ∀ q, q ∈ (_boundary self).*2 → ∃ v, v ∈ _boundary self ∧ v.2 = q).
    { intros q (v & -> & Hv)%list_elem_of_fmap. by exists v. }
    destruct (Hcol1 _ Hx1) as (v1 & Hv1 & E1), (Hcol1 _ Hx2) as (v2 & Hv2 & E2),
      (Hcol2 _ Hy1) as (v3 & Hv3 & E3), (Hcol2 _ Hy2) as (v4 & Hv4 & E4).
    unfold largest, Qc_max. repeat case_decide.
    all: first [exists v1; split; [exact Hv1|left; by rewrite E1]
               |exists v2; split; [exact Hv2|left; by rewrite E2]
               |exists v3; split; [exact Hv3|right; by rewrite E3]
               |exists v4; split; [exact Hv4|right; by rewrite E4]].
Qed.
